(** * A shallow embedding of the composable task scheduler

    The scheduler library answers one question on every scheduling event:
    which task runs next.  It is assembled from a ready-queue policy
    ([next], [ready]) and a set of event handlers that reach the policy
    through the concrete scheduler they are mixed into.

    Conventions of the embedding:
    - a [Task*] is an address, a natural number, and [nullptr] is address 0;
    - task objects are owned by the kernel and live in a finite map from
      addresses to task records; dereferencing [nullptr] or an address that
      holds no task has no defined behaviour;
    - a member function that mutates its object or the scheduler is a state
      transformer that either returns, aborts (a failed [passert], a
      [pfatal]) or has no defined behaviour;
    - [uint32_t] values are integers with the wrap-around written out. *)

From stdpp Require Import gmap list strings sorting.
From Stdlib Require Import ZArith Lia.

Open Scope Z_scope.

(** ** Outcomes of a call and the state monad of member functions *)

Inductive Outcome (A : Type) : Type :=
| Returns (a : A)
| Aborts (msg : string)
| Undefined.
Arguments Returns {A} a.
Arguments Aborts {A} msg.
Arguments Undefined {A}.

Definition Stateful (S A : Type) : Type := S -> Outcome (A * S).

#[global] Instance Outcome_ret : MRet Outcome := fun A a => Returns a.
#[global] Instance Outcome_bind : MBind Outcome := fun A B k m =>
  match m with
  | Returns a => k a
  | Aborts msg => Aborts msg
  | Undefined => Undefined
  end.

#[global] Instance Stateful_ret {S} : MRet (Stateful S) := fun A a s => Returns (a, s).
#[global] Instance Stateful_bind {S} : MBind (Stateful S) := fun A B k m s =>
  match m s with
  | Returns (a, s') => k a s'
  | Aborts msg => Aborts msg
  | Undefined => Undefined
  end.

(** Modelled from the spec: [passert] and [pfatal] are macros of the
    project's support library (Debug.hpp), which is not part of the
    sources.  The spec says a violated pre-condition fails fast with an
    abort/assertion: a [passert] whose condition is false aborts with its
    message, and otherwise does nothing; [pfatal] always aborts. *)
Definition passert {S} (condition : bool) (msg : string) : Stateful S unit :=
  fun s => if condition then Returns (tt, s) else Aborts msg.

Definition pfatal {A} (msg : string) : Outcome A := Aborts msg.

(** ** Task pointers and task memory *)

Abbreviation TaskPtr := N (only parsing).
Definition nullptr : TaskPtr := 0%N.

Definition UINT32_MAX : Z := 4294967295.
Definition wrap32 (z : Z) : Z := z mod 4294967296.

(** [*p]: the task object an address designates. *)
Definition deref {Task} (memory : gmap N Task) (p : TaskPtr) : Outcome Task :=
  if (p =? nullptr)%N then Undefined
  else match memory !! p with
       | Some t => Returns t
       | None => Undefined
       end.

(** ** Task capability contracts (Prioritizable.hpp, Quantizable.hpp) *)

(** [Comparable]: the relational operators a type provides. *)
Class Comparable (T : Type) := {
  lt_op : T -> T -> bool;
  gt_op : T -> T -> bool;
  le_op : T -> T -> bool;
  ge_op : T -> T -> bool
}.

(** [ImplicitlyPrioritizable<Task> = Comparable<Task>]. *)
Abbreviation ImplicitlyPrioritizable := Comparable (only parsing).

Class PrioritizableByPriority (Task : Type) := getPriority : Task -> Z.

Class PrioritizableByMutablePriority (Task : Type) := setPriority : Z -> Task -> Task.

Class PrioritizableByAutoMutablePriority (Task : Type) := {
  promote : Task -> Task;
  demote : Task -> Task
}.

Class Quantizable (Task : Type) := {
  tick : Task -> Task;
  hasUsedUpTimeAllotment : Task -> bool;
  allocateTicks : Z -> Task -> Task
}.

(** Built-in relational operators: on unsigned integers (priority levels)
    and on pointers (addresses). *)
#[global] Instance Z_Comparable : Comparable Z := {
  lt_op := Z.ltb; gt_op := Z.gtb; le_op := Z.leb; ge_op := Z.geb
}.

#[global] Instance Pointer_Comparable : Comparable N := {
  lt_op a b := (a <? b)%N;
  gt_op a b := (b <? a)%N;
  le_op a b := (a <=? b)%N;
  ge_op a b := (b <=? a)%N
}.

(** [AnyPrioritizableTask<T>]: the comparable wrapper.  Its friend
    operators are overloaded on the capability of the wrapped type [T]:
    the intrinsic operators when [T] is [ImplicitlyPrioritizable], the
    priority levels when [T] is [PrioritizableByPriority]. *)
Class AnyPrioritizable (T : Type) := {
  wrapped_lt : T -> T -> bool;
  wrapped_gt : T -> T -> bool;
  wrapped_le : T -> T -> bool;
  wrapped_ge : T -> T -> bool
}.

Definition AnyPrioritizable_implicit {T} `{Comparable T} : AnyPrioritizable T := {|
  wrapped_lt lhs rhs := lt_op lhs rhs;
  wrapped_gt lhs rhs := gt_op lhs rhs;
  wrapped_le lhs rhs := le_op lhs rhs;
  wrapped_ge lhs rhs := ge_op lhs rhs
|}.

Definition AnyPrioritizable_by_priority {T} `{PrioritizableByPriority T} : AnyPrioritizable T := {|
  wrapped_lt lhs rhs := getPriority lhs <? getPriority rhs;
  wrapped_gt lhs rhs := getPriority lhs >? getPriority rhs;
  wrapped_le lhs rhs := getPriority lhs <=? getPriority rhs;
  wrapped_ge lhs rhs := getPriority lhs >=? getPriority rhs
|}.

(** ** The sample task types of the test suite *)

Module SimpleTask.

Record t : Type := mk { identifier : Z; priority : Z; ticks : Z }.

(** [SimpleTask(identifier, priority)]: no ticks allocated yet. *)
Definition new (identifier priority : Z) : t := mk identifier priority 0.

#[global] Instance by_priority : PrioritizableByPriority t := priority.

#[global] Instance mutable_priority : PrioritizableByMutablePriority t :=
  fun p task => mk (identifier task) p (ticks task).

(** [demote]: one level down, never below level 1; [promote] only logs. *)
#[global] Instance auto_mutable : PrioritizableByAutoMutablePriority t := {
  promote task := task;
  demote task :=
    if priority task >? 1
    then mk (identifier task) (wrap32 (priority task - 1)) (ticks task)
    else task
}.

#[global] Instance quantizable : Quantizable t := {
  tick task := mk (identifier task) (priority task) (wrap32 (ticks task - 1));
  hasUsedUpTimeAllotment task := ticks task =? 0;
  allocateTicks n task := mk (identifier task) (priority task) n
}.

#[global] Instance any_prioritizable : AnyPrioritizable t := AnyPrioritizable_by_priority.

(** [SimpleTask::QuantumSpecifier]. *)
Definition QuantumSpecifier (priority : Z) : Outcome Z :=
  match priority with
  | 0 => pfatal "Should never allocate ticks for idle task."
  | 1 => Returns UINT32_MAX
  | 2 => Returns 2
  | 3 => Returns 1
  | _ => pfatal "Invalid priority level. Supported: 0 (Reserved), 1, 2, 3."
  end.

End SimpleTask.

Module SimpleRealtimeTask.

Record t : Type := mk { identifier : Z; deadline : Z }.

(** The earlier the deadline, the higher the rank. *)
#[global] Instance comparable : Comparable t := {
  lt_op lhs rhs := deadline lhs >? deadline rhs;
  gt_op lhs rhs := deadline rhs >? deadline lhs;
  le_op lhs rhs := negb (deadline rhs >? deadline lhs);
  ge_op lhs rhs := negb (deadline lhs >? deadline rhs)
}.

#[global] Instance any_prioritizable : AnyPrioritizable t := AnyPrioritizable_implicit.

End SimpleRealtimeTask.

(** The wrapper around a pointer: [AnyPrioritizableTask(p)] with
    [p : Task*] deduces [T = Task*].  A pointer type has no member
    [Priority], so only the intrinsic operators apply, and they order
    addresses. *)
#[global] Instance Pointer_any_prioritizable : AnyPrioritizable N := AnyPrioritizable_implicit.

(** [BridgedLessComparator] and [BridgedGreaterComparator] on task
    pointers: both operands are dereferenced, then wrapped. *)
Definition BridgedLessComparator {Task} `{AnyPrioritizable Task}
  (memory : gmap N Task) (lhs rhs : TaskPtr) : Outcome bool :=
  l ← deref memory lhs; r ← deref memory rhs; mret (wrapped_lt l r).

Definition BridgedGreaterComparator {Task} `{AnyPrioritizable Task}
  (memory : gmap N Task) (lhs rhs : TaskPtr) : Outcome bool :=
  l ← deref memory lhs; r ← deref memory rhs; mret (wrapped_gt l r).

(** ** Ready-queue policies *)

(** *** FIFO (FIFO.hpp) *)

Module FIFO.

(** [std::queue<Task*>]: front of the queue first. *)
Abbreviation Queue := (list TaskPtr).

(** [StlQueueImp::next]. *)
Definition next (queue : Queue) : TaskPtr * Queue :=
  match queue with
  | [] => (nullptr, [])
  | task :: rest => (task, rest)
  end.

(** [StlQueueImp::ready]. *)
Definition ready (task : TaskPtr) (queue : Queue) : Queue := queue ++ [task].

End FIFO.

(** *** Prioritized multi-queue (PrioritizedMultiQueue.hpp)

    The sub-policy of every level is the FIFO queue that
    [PolicyMakers::DynamicFIFO::create] allocates, the only policy maker
    of the library. *)

Module PrioritizedMultiQueue.

Module ArrayMapImp.

(** [std::array<Scheduler::Policy<Task>*, MaxPriorityLevel + 1>]: slot
    [i] is the sub-queue of priority level [i], [None] a null slot. *)
Abbreviation Queues := (list (option FIFO.Queue)).

Definition empty (MaxPriorityLevel : nat) : Queues := replicate (S MaxPriorityLevel) None.

(** The loop of [next] over the slots in iteration order, [rbegin] first. *)
Fixpoint scan (slots : list (option FIFO.Queue)) : TaskPtr * list (option FIFO.Queue) :=
  match slots with
  | [] => (nullptr, [])
  | None :: rest => let '(task, rest') := scan rest in (task, None :: rest')
  | Some queue :: rest =>
      let '(next, queue') := FIFO.next queue in
      if (next =? nullptr)%N
      then let '(task, rest') := scan rest in (task, Some queue' :: rest')
      else (next, Some queue' :: rest)
  end.

Definition next (queues : Queues) : TaskPtr * Queues :=
  let '(task, slots) := scan (reverse queues) in (task, reverse slots).

(** [ready]: indexing the array past its end has no defined behaviour.
    A null slot is first filled by [PolicyMaker::create(priority)], an
    empty queue, so the [passert] on the slot that follows never fails. *)
Definition ready {Task} `{PrioritizableByPriority Task}
  (memory : gmap N Task) (task : TaskPtr) (queues : Queues) : Outcome Queues :=
  t ← deref memory task;
  let priority := Z.to_nat (getPriority t) in
  match queues !! priority with
  | None => Undefined
  | Some slot =>
      let queue := match slot with None => [] | Some queue => queue end in
      Returns (<[priority := Some (FIFO.ready task queue)]> queues)
  end.

End ArrayMapImp.

Module StlMapImp.

(** [std::map<Priority, Scheduler::Policy<Task>*, std::greater<Priority>>]:
    the entries in iteration order, keys strictly decreasing; a [None]
    value is a null policy pointer. *)
Abbreviation Queues := (list (Z * option FIFO.Queue)).

(** [queues.find(priority)]. *)
Fixpoint find (priority : Z) (queues : Queues) : option (option FIFO.Queue) :=
  match queues with
  | [] => None
  | (k, v) :: rest => if k =? priority then Some v else find priority rest
  end.

(** [queues[priority] = value]: assignment through [operator[]], which
    inserts the key at its place in the order when it is absent. *)
Fixpoint assign (priority : Z) (value : option FIFO.Queue) (queues : Queues) : Queues :=
  match queues with
  | [] => [(priority, value)]
  | (k, v) :: rest =>
      if k =? priority then (k, value) :: rest
      else if priority >? k then (priority, value) :: (k, v) :: rest
      else (k, v) :: assign priority value rest
  end.

(** The loop of [next]: every visited policy pointer is dereferenced. *)
Fixpoint next (queues : Queues) : Outcome (TaskPtr * Queues) :=
  match queues with
  | [] => Returns (nullptr, [])
  | (k, None) :: rest => Undefined
  | (k, Some queue) :: rest =>
      let '(next_task, queue') := FIFO.next queue in
      if (next_task =? nullptr)%N
      then '(task, rest') ← next rest; mret (task, (k, Some queue') :: rest')
      else Returns (next_task, (k, Some queue') :: rest)
  end.

(** [ready]: [queues[priority]] inserts a null entry for an absent key;
    a null entry is then replaced by [PolicyMaker::create(priority)], an
    empty queue, so the [passert] on the entry that follows never fails. *)
Definition ready {Task} `{PrioritizableByPriority Task}
  (memory : gmap N Task) (task : TaskPtr) (queues : Queues) : Outcome Queues :=
  t ← deref memory task;
  let priority := getPriority t in
  let queue :=
    match find priority queues with
    | Some (Some queue) => queue
    | _ => []
    end in
  Returns (assign priority (Some (FIFO.ready task queue)) queues).

End StlMapImp.

(** The policy type of the homogeneous variants: default-constructible,
    with the two scheduling primitives ([Concepts::Policy]). *)
Class SubPolicy (Task Q : Type) := {
  sub_empty : Q;
  sub_next : Q -> Outcome (TaskPtr * Q);
  sub_ready : gmap N Task -> TaskPtr -> Q -> Outcome Q
}.

(** [FIFO::Normal::StlQueueImp] as the policy of every level. *)
Definition StlQueueImp_sub {Task} : SubPolicy Task FIFO.Queue := {|
  sub_empty := [];
  sub_next queue := Returns (FIFO.next queue);
  sub_ready _ task queue := Returns (FIFO.ready task queue)
|}.

Module ArrayMapHomoImp.

(** [std::array<Policy, MaxPriorityLevel + 1>]: the policies are stored
    by value, every level has one from the start. *)
Definition empty {Task Q} {sub : SubPolicy Task Q} (MaxPriorityLevel : nat) : list Q :=
  replicate (S MaxPriorityLevel) sub_empty.

(** The loop of [next] over the policies in iteration order, [rbegin]
    first. *)
Fixpoint scan {Task Q} {sub : SubPolicy Task Q} (slots : list Q) :
  Outcome (TaskPtr * list Q) :=
  match slots with
  | [] => Returns (nullptr, [])
  | queue :: rest =>
      '(next, queue') ← sub_next queue;
      if (next =? nullptr)%N
      then '(task, rest') ← scan rest; Returns (task, queue' :: rest')
      else Returns (next, queue' :: rest)
  end.

Definition next {Task Q} {sub : SubPolicy Task Q} (queues : list Q) :
  Outcome (TaskPtr * list Q) :=
  '(task, slots) ← scan (reverse queues); Returns (task, reverse slots).

(** [ready]: indexing the array past its end has no defined behaviour. *)
Definition ready {Task Q} `{PrioritizableByPriority Task} {sub : SubPolicy Task Q}
  (memory : gmap N Task) (task : TaskPtr) (queues : list Q) : Outcome (list Q) :=
  t ← deref memory task;
  let priority := Z.to_nat (getPriority t) in
  match queues !! priority with
  | None => Undefined
  | Some queue =>
      queue' ← sub_ready memory task queue;
      Returns (<[priority := queue']> queues)
  end.

End ArrayMapHomoImp.

Module StlMapHomoImp.

(** [std::map<Priority, Policy, std::greater<Priority>>]: the entries in
    iteration order. *)
Fixpoint find {Q} (priority : Z) (queues : list (Z * Q)) : option Q :=
  match queues with
  | [] => None
  | (k, v) :: rest => if k =? priority then Some v else find priority rest
  end.

Fixpoint assign {Q} (priority : Z) (value : Q) (queues : list (Z * Q)) : list (Z * Q) :=
  match queues with
  | [] => [(priority, value)]
  | (k, v) :: rest =>
      if k =? priority then (k, value) :: rest
      else if priority >? k then (priority, value) :: (k, v) :: rest
      else (k, v) :: assign priority value rest
  end.

Fixpoint next {Task Q} {sub : SubPolicy Task Q} (queues : list (Z * Q)) :
  Outcome (TaskPtr * list (Z * Q)) :=
  match queues with
  | [] => Returns (nullptr, [])
  | (k, queue) :: rest =>
      '(next_task, queue') ← sub_next queue;
      if (next_task =? nullptr)%N
      then '(task, rest') ← next rest; Returns (task, (k, queue') :: rest')
      else Returns (next_task, (k, queue') :: rest)
  end.

(** [queues[priority].ready(task)]: [operator[]] inserts a
    default-constructed policy for an absent key. *)
Definition ready {Task Q} `{PrioritizableByPriority Task} {sub : SubPolicy Task Q}
  (memory : gmap N Task) (task : TaskPtr) (queues : list (Z * Q)) :
  Outcome (list (Z * Q)) :=
  t ← deref memory task;
  let priority := getPriority t in
  let queue := match find priority queues with Some queue => queue | None => sub_empty end in
  queue' ← sub_ready memory task queue;
  Returns (assign priority queue' queues).

End StlMapHomoImp.

End PrioritizedMultiQueue.

(** *** Prioritized single queue (PrioritizedSingleQueue.hpp) *)

(** Modelled from the spec: [LinkedList] is a class of the project's
    support library (LinkedList.hpp), which is not part of the sources.
    The policies use it as "an internal FIFO queue": [enqueue] appends at
    the tail, [dequeue] and [removeFirst] take the head (null when the
    list is empty), and [insert(item, comparator)] is the stable sorted
    insertion the spec describes for the prioritized single queue: the
    item goes before the first element it must precede according to the
    comparator, hence behind every element of equal rank (first come,
    first served, as the earliest-deadline-first test expects). *)
Module LinkedList.

Definition isEmpty (items : list TaskPtr) : bool :=
  match items with [] => true | _ => false end.

Definition dequeue (items : list TaskPtr) : TaskPtr * list TaskPtr :=
  match items with
  | [] => (nullptr, [])
  | item :: rest => (item, rest)
  end.

Definition enqueue (item : TaskPtr) (items : list TaskPtr) : list TaskPtr := items ++ [item].

Fixpoint insert (comparator : TaskPtr -> TaskPtr -> Outcome bool)
  (item : TaskPtr) (items : list TaskPtr) : Outcome (list TaskPtr) :=
  match items with
  | [] => Returns [item]
  | current :: rest =>
      before ← comparator item current;
      if before : bool then Returns (item :: current :: rest)
      else rest' ← insert comparator item rest; Returns (current :: rest')
  end.

End LinkedList.

(** [std::priority_queue<Task*, std::vector<Task*>, Compare>] as the GNU
    C++ library implements it: a binary max-heap in a vector, [push] is
    [push_back] then [std::push_heap], [pop] is [std::pop_heap] then
    [pop_back], [top] is [front].  Indices are signed ([ptrdiff_t]) and
    division truncates. *)
Module StlHeap.

Definition at_index (first : list TaskPtr) (i : Z) : Outcome TaskPtr :=
  if i <? 0 then Undefined
  else match first !! Z.to_nat i with
       | Some x => Returns x
       | None => Undefined
       end.

Definition set_index (first : list TaskPtr) (i : Z) (x : TaskPtr) : list TaskPtr :=
  <[Z.to_nat i := x]> first.

(** [std::__push_heap]: the hole moves up while the parent is less than
    the value. *)
Fixpoint push_heap_loop (fuel : nat) (comp : TaskPtr -> TaskPtr -> Outcome bool)
  (first : list TaskPtr) (holeIndex topIndex : Z) (value : TaskPtr) : Outcome (list TaskPtr) :=
  match fuel with
  | O => Undefined
  | S fuel' =>
      let parent := Z.quot (holeIndex - 1) 2 in
      if holeIndex >? topIndex then
        p ← at_index first parent;
        less ← comp p value;
        if less : bool
        then push_heap_loop fuel' comp (set_index first holeIndex p) parent topIndex value
        else Returns (set_index first holeIndex value)
      else Returns (set_index first holeIndex value)
  end.

Definition push_heap_aux (comp : TaskPtr -> TaskPtr -> Outcome bool)
  (first : list TaskPtr) (holeIndex topIndex : Z) (value : TaskPtr) : Outcome (list TaskPtr) :=
  push_heap_loop (S (Z.to_nat holeIndex)) comp first holeIndex topIndex value.

(** [std::push_heap(first, last, comp)] on the whole vector. *)
Definition push_heap (comp : TaskPtr -> TaskPtr -> Outcome bool)
  (first : list TaskPtr) : Outcome (list TaskPtr) :=
  let last := Z.of_nat (length first) in
  value ← at_index first (last - 1);
  push_heap_aux comp first (last - 1) 0 value.

(** The [while] loop of [std::__adjust_heap]: the hole moves down to the
    larger child, the right one when neither is less than the other. *)
Fixpoint adjust_heap_loop (fuel : nat) (comp : TaskPtr -> TaskPtr -> Outcome bool)
  (first : list TaskPtr) (holeIndex secondChild len : Z) : Outcome (list TaskPtr * Z * Z) :=
  match fuel with
  | O => Undefined
  | S fuel' =>
      if secondChild <? Z.quot (len - 1) 2 then
        let secondChild := 2 * (secondChild + 1) in
        right ← at_index first secondChild;
        left ← at_index first (secondChild - 1);
        less ← comp right left;
        let secondChild := if less : bool then secondChild - 1 else secondChild in
        child ← at_index first secondChild;
        adjust_heap_loop fuel' comp (set_index first holeIndex child) secondChild secondChild len
      else Returns (first, holeIndex, secondChild)
  end.

(** [std::__adjust_heap(first, holeIndex, len, value, comp)]. *)
Definition adjust_heap (comp : TaskPtr -> TaskPtr -> Outcome bool)
  (first : list TaskPtr) (holeIndex len : Z) (value : TaskPtr) : Outcome (list TaskPtr) :=
  let topIndex := holeIndex in
  '(first, holeIndex, secondChild) ←
    adjust_heap_loop (S (Z.to_nat len)) comp first holeIndex holeIndex len;
  '(first, holeIndex) ←
    (if (Z.land len 1 =? 0) && (secondChild =? Z.quot (len - 2) 2)
     then
       let secondChild := 2 * (secondChild + 1) in
       child ← at_index first (secondChild - 1);
       Returns (set_index first holeIndex child, secondChild - 1)
     else Returns (first, holeIndex));
  push_heap_aux comp first holeIndex topIndex value.

(** [std::pop_heap(first, last, comp)] on the whole vector: the top goes
    to the last position, the rest is a heap again. *)
Definition pop_heap (comp : TaskPtr -> TaskPtr -> Outcome bool)
  (first : list TaskPtr) : Outcome (list TaskPtr) :=
  let last := Z.of_nat (length first) in
  if last >? 1 then
    let result := last - 1 in
    value ← at_index first result;
    top ← at_index first 0;
    adjust_heap comp (set_index first result top) 0 result value
  else Returns first.

(** [c.pop_back()]. *)
Definition pop_back (c : list TaskPtr) : list TaskPtr := take (length c - 1)%nat c.

End StlHeap.

Module PrioritizedSingleQueue.

Module LinkedListImp.

Abbreviation Queue := (list TaskPtr).

Definition next (queue : Queue) : TaskPtr * Queue :=
  if LinkedList.isEmpty queue then (nullptr, queue) else LinkedList.dequeue queue.

Definition ready {Task} `{AnyPrioritizable Task}
  (memory : gmap N Task) (task : TaskPtr) (queue : Queue) : Outcome Queue :=
  LinkedList.insert (BridgedGreaterComparator memory) task queue.

End LinkedListImp.

Module StlPriorityQueueImp.

Abbreviation Queue := (list TaskPtr).

Definition next {Task} `{AnyPrioritizable Task}
  (memory : gmap N Task) (queue : Queue) : Outcome (TaskPtr * Queue) :=
  match queue with
  | [] => Returns (nullptr, queue)
  | task :: _ =>
      heap ← StlHeap.pop_heap (BridgedLessComparator memory) queue;
      Returns (task, StlHeap.pop_back heap)
  end.

Definition ready {Task} `{AnyPrioritizable Task}
  (memory : gmap N Task) (task : TaskPtr) (queue : Queue) : Outcome Queue :=
  StlHeap.push_heap (BridgedLessComparator memory) (queue ++ [task]).

End StlPriorityQueueImp.

End PrioritizedSingleQueue.

(** ** The concrete scheduler seen by the handlers *)

(** What a call into the scheduler can read and change: the kernel's task
    objects and the policy's ready queue(s). *)
Record World (Task Policy : Type) : Type := mkWorld {
  tasks : gmap N Task;
  policy : Policy
}.
Arguments mkWorld {Task Policy} tasks policy.
Arguments tasks {Task Policy} w.
Arguments policy {Task Policy} w.

Definition set_tasks {Task P} (memory : gmap N Task) (w : World Task P) : World Task P :=
  mkWorld memory (policy w).

Definition set_policy {Task P} (p : P) (w : World Task P) : World Task P :=
  mkWorld (tasks w) p.

(** [p->method()] for a member function that reads the task. *)
Definition read_task {Task P A} (p : TaskPtr) (method : Task -> A) : Stateful (World Task P) A :=
  fun w => t ← deref (tasks w) p; Returns (method t, w).

(** [p->method()] for a member function that changes the task. *)
Definition call_task {Task P} (p : TaskPtr) (method : Task -> Task) :
  Stateful (World Task P) unit :=
  fun w => t ← deref (tasks w) p; Returns (tt, set_tasks (<[p := method t]> (tasks w)) w).

(** [IdleTaskSupport<Task>]: the idle task pointer is set when the
    scheduler is constructed and never written afterwards. *)
Class SupportsIdleTask (S : Type) := idleTask : TaskPtr.

Definition getIdleTask {S} {idle : SupportsIdleTask S} : Stateful S TaskPtr :=
  mret idleTask.

(** The scheduling primitives every policy provides ([Concepts::Policy]),
    and the optional capabilities some handlers require
    ([SupportsRemovingTasks], [SupportsAdjustingTaskPriority],
    [ProvidesTaskQuantumUsedUpHandler]). *)
Class Policy (S : Type) := {
  next : Stateful S TaskPtr;
  ready : TaskPtr -> Stateful S unit
}.

Class SupportsRemovingTasks (S : Type) := remove : TaskPtr -> Stateful S unit.

Class SupportsAdjustingTaskPriority (S : Type) := adjustPosition : TaskPtr -> Z -> Stateful S unit.

Class ProvidesTaskQuantumUsedUpHandler (S : Type) :=
  onTaskQuantumUsedUp : TaskPtr -> Stateful S TaskPtr.

(** A policy whose [next] works on the queue alone and whose [ready] reads
    the task memory, as a policy of a scheduler. *)
Definition policy_of {Task P}
  (policy_next : P -> Outcome (TaskPtr * P))
  (policy_ready : gmap N Task -> TaskPtr -> P -> Outcome P) : Policy (World Task P) := {|
  next := fun w => '(task, p) ← policy_next (policy w); Returns (task, set_policy p w);
  ready := fun task w => p ← policy_ready (tasks w) task (policy w); Returns (tt, set_policy p w)
|}.

Definition FIFO_policy {Task} : Policy (World Task FIFO.Queue) :=
  policy_of (fun q => Returns (FIFO.next q)) (fun _ task q => Returns (FIFO.ready task q)).

Definition ArrayMapImp_policy {Task} `{PrioritizableByPriority Task} :
  Policy (World Task PrioritizedMultiQueue.ArrayMapImp.Queues) :=
  policy_of (fun q => Returns (PrioritizedMultiQueue.ArrayMapImp.next q))
            PrioritizedMultiQueue.ArrayMapImp.ready.


Definition LinkedListImp_policy {Task} `{AnyPrioritizable Task} :
  Policy (World Task PrioritizedSingleQueue.LinkedListImp.Queue) :=
  policy_of (fun q => Returns (PrioritizedSingleQueue.LinkedListImp.next q))
            PrioritizedSingleQueue.LinkedListImp.ready.

(** *** Policy extensions (PolicyExtension.hpp) *)

(** [((Extension{}(task)), ...)]: each code extension in order. *)
Fixpoint run_extensions {S} (extensions : list (TaskPtr -> Stateful S unit))
  (task : TaskPtr) : Stateful S unit :=
  match extensions with
  | [] => mret tt
  | extension :: rest => extension task;; run_extensions rest task
  end.

Definition PolicyWithEnqueueExtensions {S} (BasePolicy : Policy S)
  (extensions : list (TaskPtr -> Stateful S unit)) : Policy S := {|
  next := @next S BasePolicy;
  ready := fun task => run_extensions extensions task;; @ready S BasePolicy task
|}.

Definition PolicyWithDequeueExtensions {S} (BasePolicy : Policy S)
  (extensions : list (TaskPtr -> Stateful S unit)) : Policy S := {|
  next := task ← @next S BasePolicy; run_extensions extensions task;; mret task;
  ready := @ready S BasePolicy
|}.

(** [Extensions::PriorityBasedTaskQuantumAllocator]. *)
Definition PriorityBasedTaskQuantumAllocator {Task P}
  `{Quantizable Task} `{PrioritizableByPriority Task}
  (CustomQuantumSpecifier : Z -> Outcome Z) (task : TaskPtr) : Stateful (World Task P) unit :=
  priority ← read_task task getPriority;
  ticks ← (fun w => n ← CustomQuantumSpecifier priority; Returns (n, w));
  call_task task (allocateTicks ticks).

(** ** Event handlers

    Every handler is a mix-in of the concrete scheduler: [self] is the
    scheduler it is compiled into, through which it reaches the policy's
    primitives and the optional capabilities. *)

(** [Utilities::orderByPriority]: both overloads compare the two tasks
    with [>=], on the tasks themselves or on their priority levels; the
    first task wins a tie. *)
Definition orderByPriority {Task P} `{AnyPrioritizable Task}
  (task1 task2 : TaskPtr) : Stateful (World Task P) (TaskPtr * TaskPtr) :=
  fun w =>
    t1 ← deref (tasks w) task1;
    t2 ← deref (tasks w) task2;
    Returns (if wrapped_ge t1 t2 then (task1, task2) else (task2, task1), w).

Module TaskQuantumUsedUp.
Module Preemptive.

Module RunNextWithDemotion.
Definition onTaskQuantumUsedUp {Task P} `{PrioritizableByAutoMutablePriority Task}
  {self : Policy (World Task P)}
  (current : TaskPtr) : Stateful (World Task P) TaskPtr :=
  call_task current demote;;
  ready current;;
  next.
End RunNextWithDemotion.

Module RunNextWithQuantumRecharged.
Definition onTaskQuantumUsedUp {Task P} `{Quantizable Task} `{PrioritizableByPriority Task}
  {self : Policy (World Task P)}
  (CustomQuantumSpecifier : Z -> Outcome Z)
  (current : TaskPtr) : Stateful (World Task P) TaskPtr :=
  priority ← read_task current getPriority;
  ticks ← (fun w => n ← CustomQuantumSpecifier priority; Returns (n, w));
  call_task current (allocateTicks ticks);;
  ready current;;
  next.
End RunNextWithQuantumRecharged.

Module RunNextWithDemotionAndQuantumRecharged.
Definition onTaskQuantumUsedUp {Task P} `{Quantizable Task} `{PrioritizableByPriority Task}
  `{PrioritizableByAutoMutablePriority Task}
  {self : Policy (World Task P)}
  (CustomQuantumSpecifier : Z -> Outcome Z)
  (current : TaskPtr) : Stateful (World Task P) TaskPtr :=
  call_task current demote;;
  priority ← read_task current getPriority;
  ticks ← (fun w => n ← CustomQuantumSpecifier priority; Returns (n, w));
  call_task current (allocateTicks ticks);;
  ready current;;
  next.
End RunNextWithDemotionAndQuantumRecharged.

End Preemptive.
End TaskQuantumUsedUp.

Module TimerInterrupt.
Module Preemptive.

Module RunNext.
Definition onTimerInterrupt {Task P} {self : Policy (World Task P)}
  (current : TaskPtr) : Stateful (World Task P) TaskPtr :=
  ready current;;
  next.
End RunNext.

Module RunNextWithIdleTaskSupport.
Definition onTimerInterrupt {Task P}
  {self : Policy (World Task P)} {idle : SupportsIdleTask (World Task P)}
  (current : TaskPtr) : Stateful (World Task P) TaskPtr :=
  idle ← getIdleTask;
  (if negb (current =? idle)%N then ready current else mret tt);;
  nextTask ← next;
  if (nextTask =? nullptr)%N then getIdleTask else mret nextTask.
End RunNextWithIdleTaskSupport.

Module KeepRunningCurrentWithAnyQuantumUsedUpHandler.
Definition onTimerInterrupt {Task P} `{Quantizable Task}
  {quantumUsedUp : ProvidesTaskQuantumUsedUpHandler (World Task P)}
  (current : TaskPtr) : Stateful (World Task P) TaskPtr :=
  call_task current tick;;
  usedUp ← read_task current hasUsedUpTimeAllotment;
  if usedUp : bool then onTaskQuantumUsedUp current
  else mret current.
End KeepRunningCurrentWithAnyQuantumUsedUpHandler.

Module KeepRunningCurrentWithAnyQuantumUsedUpHandlerAndIdleTaskSupport.
Definition onTimerInterrupt {Task P} `{Quantizable Task}
 
  {self : Policy (World Task P)} {idle : SupportsIdleTask (World Task P)}
  {quantumUsedUp : ProvidesTaskQuantumUsedUpHandler (World Task P)}
  (current : TaskPtr) : Stateful (World Task P) TaskPtr :=
  idle ← getIdleTask;
  if (current =? idle)%N then
    nextTask ← next;
    if (nextTask =? nullptr)%N then getIdleTask else mret nextTask
  else
    call_task current tick;;
    usedUp ← read_task current hasUsedUpTimeAllotment;
    if usedUp : bool then onTaskQuantumUsedUp current
    else mret current.
End KeepRunningCurrentWithAnyQuantumUsedUpHandlerAndIdleTaskSupport.

Module KeepRunningCurrentWithAutoDemotionOnQuantumUsedUp.
Definition onTimerInterrupt {Task P} `{Quantizable Task} `{PrioritizableByAutoMutablePriority Task}
  {self : Policy (World Task P)}
  (current : TaskPtr) : Stateful (World Task P) TaskPtr :=
  KeepRunningCurrentWithAnyQuantumUsedUpHandler.onTimerInterrupt
    (quantumUsedUp := TaskQuantumUsedUp.Preemptive.RunNextWithDemotion.onTaskQuantumUsedUp)
    current.
End KeepRunningCurrentWithAutoDemotionOnQuantumUsedUp.

Module KeepRunningCurrentWithAutoDemotionOnQuantumUsedUpAndIdleTaskSupport.
Definition onTimerInterrupt {Task P} `{Quantizable Task} `{PrioritizableByAutoMutablePriority Task}
 
  {self : Policy (World Task P)} {idle : SupportsIdleTask (World Task P)}
  (current : TaskPtr) : Stateful (World Task P) TaskPtr :=
  KeepRunningCurrentWithAnyQuantumUsedUpHandlerAndIdleTaskSupport.onTimerInterrupt
    (quantumUsedUp := TaskQuantumUsedUp.Preemptive.RunNextWithDemotion.onTaskQuantumUsedUp)
    current.
End KeepRunningCurrentWithAutoDemotionOnQuantumUsedUpAndIdleTaskSupport.

Module KeepRunningCurrentWithAutoRechargeOnQuantumUsedUp.
Definition onTimerInterrupt {Task P} `{Quantizable Task} `{PrioritizableByPriority Task}
  {self : Policy (World Task P)}
  (CustomQuantumSpecifier : Z -> Outcome Z)
  (current : TaskPtr) : Stateful (World Task P) TaskPtr :=
  KeepRunningCurrentWithAnyQuantumUsedUpHandler.onTimerInterrupt
    (quantumUsedUp :=
       TaskQuantumUsedUp.Preemptive.RunNextWithQuantumRecharged.onTaskQuantumUsedUp
         CustomQuantumSpecifier)
    current.
End KeepRunningCurrentWithAutoRechargeOnQuantumUsedUp.

Module KeepRunningCurrentWithAutoRechargeOnQuantumUsedUpAndIdleTaskSupport.
Definition onTimerInterrupt {Task P} `{Quantizable Task} `{PrioritizableByPriority Task}
  {self : Policy (World Task P)} {idle : SupportsIdleTask (World Task P)}
  (CustomQuantumSpecifier : Z -> Outcome Z)
  (current : TaskPtr) : Stateful (World Task P) TaskPtr :=
  KeepRunningCurrentWithAnyQuantumUsedUpHandlerAndIdleTaskSupport.onTimerInterrupt
    (quantumUsedUp :=
       TaskQuantumUsedUp.Preemptive.RunNextWithQuantumRecharged.onTaskQuantumUsedUp
         CustomQuantumSpecifier)
    current.
End KeepRunningCurrentWithAutoRechargeOnQuantumUsedUpAndIdleTaskSupport.

End Preemptive.

Module Cooperative.
Module KeepRunningCurrent.
Definition onTimerInterrupt {Task P}
  (current : TaskPtr) : Stateful (World Task P) TaskPtr :=
  mret current.
End KeepRunningCurrent.
End Cooperative.

End TimerInterrupt.

Module TaskCreation.

Module Preemptive.

Module RunHigherPriority.
Definition onTaskCreated {Task P} `{AnyPrioritizable Task}
  {self : Policy (World Task P)}
  (current task : TaskPtr) : Stateful (World Task P) TaskPtr :=
  result ← orderByPriority current task;
  ready result.2;;
  mret result.1.
End RunHigherPriority.

Module RunHigherPriorityWithIdleTaskSupport.
Definition onTaskCreated {Task P} `{AnyPrioritizable Task}
 
  {self : Policy (World Task P)} {idle : SupportsIdleTask (World Task P)}
  (current task : TaskPtr) : Stateful (World Task P) TaskPtr :=
  idle ← getIdleTask;
  if (current =? idle)%N then mret task
  else
    result ← orderByPriority current task;
    ready result.2;;
    mret result.1.
End RunHigherPriorityWithIdleTaskSupport.

End Preemptive.

Module Cooperative.

Module KeepRunningCurrent.
Definition onTaskCreated {Task P} {self : Policy (World Task P)}
  (current task : TaskPtr) : Stateful (World Task P) TaskPtr :=
  ready task;;
  mret current.
End KeepRunningCurrent.

Module KeepRunningCurrentWithIdleTaskSupport.
Definition onTaskCreated {Task P}
  {self : Policy (World Task P)} {idle : SupportsIdleTask (World Task P)}
  (current task : TaskPtr) : Stateful (World Task P) TaskPtr :=
  idle ← getIdleTask;
  if (current =? idle)%N then mret task
  else
    ready task;;
    mret current.
End KeepRunningCurrentWithIdleTaskSupport.

End Cooperative.

End TaskCreation.

Module TaskTermination.
Module Common.

Module RunNext.
Definition onTaskFinished {Task P} {self : Policy (World Task P)}
  (current : TaskPtr) : Stateful (World Task P) TaskPtr :=
  next.
End RunNext.

Module RunNextWithIdleTaskSupport.
Definition onTaskFinished {Task P}
  {self : Policy (World Task P)} {idle : SupportsIdleTask (World Task P)}
  (current : TaskPtr) : Stateful (World Task P) TaskPtr :=
  nextTask ← next;
  if (nextTask =? nullptr)%N then getIdleTask else mret nextTask.
End RunNextWithIdleTaskSupport.

End Common.
End TaskTermination.

Module TaskBlocked.
Module Common.

Module RunNext.
Definition onTaskBlocked {Task P} {self : Policy (World Task P)}
  (current : TaskPtr) : Stateful (World Task P) TaskPtr :=
  next.
End RunNext.

Module RunNextWithIdleTaskSupport.
Definition onTaskBlocked {Task P}
  {self : Policy (World Task P)} {idle : SupportsIdleTask (World Task P)}
  (current : TaskPtr) : Stateful (World Task P) TaskPtr :=
  nextTask ← next;
  if (nextTask =? nullptr)%N then getIdleTask else mret nextTask.
End RunNextWithIdleTaskSupport.

End Common.
End TaskBlocked.

Module TaskYielding.
Module Common.
Module RunNext.
Definition onTaskYielded {Task P} {self : Policy (World Task P)}
  (current : TaskPtr) : Stateful (World Task P) TaskPtr :=
  ready current;;
  next.
End RunNext.
End Common.
End TaskYielding.

Module TaskUnblocked.

Module Preemptive.

Module RunNext.
Definition onTaskUnblocked {Task P} {self : Policy (World Task P)}
  (current task : TaskPtr) : Stateful (World Task P) TaskPtr :=
  if (current =? nullptr)%N then
    ready task;;
    mret nullptr
  else
    (if negb (task =? nullptr)%N then ready task else mret tt);;
    next.
End RunNext.

Module RunNextWithIdleTaskSupport.
Definition onTaskUnblocked {Task P}
  {self : Policy (World Task P)} {idle : SupportsIdleTask (World Task P)}
  (current task : TaskPtr) : Stateful (World Task P) TaskPtr :=
  if (current =? nullptr)%N then
    ready task;;
    mret nullptr
  else
    (if negb (task =? nullptr)%N then ready task else mret tt);;
    idle ← getIdleTask;
    (if negb (current =? idle)%N then ready current else mret tt);;
    nextTask ← next;
    if (nextTask =? nullptr)%N then getIdleTask else mret nextTask.
End RunNextWithIdleTaskSupport.

End Preemptive.

Module Cooperative.

Module KeepRunningCurrent.
Definition onTaskUnblocked {Task P} {self : Policy (World Task P)}
  (current task : TaskPtr) : Stateful (World Task P) TaskPtr :=
  if (current =? nullptr)%N then
    ready task;;
    mret nullptr
  else
    (if negb (task =? nullptr)%N then ready task else mret tt);;
    mret current.
End KeepRunningCurrent.

Module KeepRunningCurrentWithIdleTaskSupport.
Definition onTaskUnblocked {Task P}
  {self : Policy (World Task P)} {idle : SupportsIdleTask (World Task P)}
  (current task : TaskPtr) : Stateful (World Task P) TaskPtr :=
  if (current =? nullptr)%N then
    ready task;;
    mret nullptr
  else if (task =? nullptr)%N then
    mret current
  else
    ready task;;
    idle ← getIdleTask;
    if (current =? idle)%N then next
    else mret current.
End KeepRunningCurrentWithIdleTaskSupport.

End Cooperative.

End TaskUnblocked.

Module TaskKilled.
Module Common.
Module KeepRunningCurrent.
Definition onTaskKilled {Task P} {self : SupportsRemovingTasks (World Task P)}
  (current task : TaskPtr) : Stateful (World Task P) TaskPtr :=
  passert (negb (current =? task)%N)
    "Usage Error: The current running task cannot be identical to the task being killed.";;
  if (current =? nullptr)%N then
    remove task;;
    mret nullptr
  else
    (if negb (task =? nullptr)%N then remove task else mret tt);;
    mret current.
End KeepRunningCurrent.
End Common.
End TaskKilled.

Module TaskPriorityChanged.
Module Preemptive.
Module Balance.
(** The condition is [AnyPrioritizableTask(task) > AnyPrioritizableTask(current)]
    on the two pointers, not on the tasks they point to: the wrapper is
    the one around [Task*]. *)
Definition onTaskPriorityChanged {Task P} {self : Policy (World Task P)}
  {adjusting : SupportsAdjustingTaskPriority (World Task P)}
  (current task : TaskPtr) (oldPriority : Z) : Stateful (World Task P) TaskPtr :=
  adjustPosition task oldPriority;;
  if wrapped_gt (T := N) task current then
    ready current;;
    next
  else mret current.
End Balance.
End Preemptive.
End TaskPriorityChanged.

Module TaskSelfPriorityChanged.
Module Preemptive.
Module Balance.
Definition onTaskPriorityChanged {Task P} {self : Policy (World Task P)}
  (current : TaskPtr) : Stateful (World Task P) TaskPtr :=
  ready current;;
  next.
End Balance.
End Preemptive.
End TaskSelfPriorityChanged.

(** ** Optional capabilities of the policies

    No policy of the sources implements [remove] or [adjustPosition]; the
    handlers only require them of the concrete scheduler. *)

(** Modelled from the spec: [remove(t)] removes a specific task from its
    queue, and a task that is not in the queue is a violated pre-condition,
    which fails fast with an abort. *)
Definition FIFO_remove (task : TaskPtr) (queue : FIFO.Queue) : Outcome FIFO.Queue :=
  if bool_decide (task ∈ queue)
  then Returns (filter (fun queued => queued ≠ task) queue)
  else Aborts "The task to be removed is not in the ready queue.".

Definition FIFO_removing {Task} : SupportsRemovingTasks (World Task FIFO.Queue) :=
  fun task w => q ← FIFO_remove task (policy w); Returns (tt, set_policy q w).

(** Modelled from the spec: [adjustPosition(t, old)] of the prioritized
    multi-queue removes [t] from [queues[old]] and inserts it into
    [queues[t.priority()]]; a task that is not in [queues[old]] is a
    violated pre-condition, which fails fast with an abort. *)
Definition ArrayMapImp_adjustPosition {Task} `{PrioritizableByPriority Task}
  (memory : gmap N Task) (task : TaskPtr) (oldPriority : Z)
  (queues : PrioritizedMultiQueue.ArrayMapImp.Queues) :
  Outcome PrioritizedMultiQueue.ArrayMapImp.Queues :=
  match queues !! Z.to_nat oldPriority with
  | Some (Some queue) =>
      queue' ← FIFO_remove task queue;
      PrioritizedMultiQueue.ArrayMapImp.ready memory task
        (<[Z.to_nat oldPriority := Some queue']> queues)
  | _ => Aborts "The task to be adjusted is not in the ready queue."
  end.

Definition ArrayMapImp_adjusting {Task} `{PrioritizableByPriority Task} :
  SupportsAdjustingTaskPriority (World Task PrioritizedMultiQueue.ArrayMapImp.Queues) :=
  fun task oldPriority w =>
    q ← ArrayMapImp_adjustPosition (tasks w) task oldPriority (policy w);
    Returns (tt, set_policy q w).

(** ** The sample schedulers (SampleSchedulers.hpp) *)

Module SampleSchedulers.

(** [MultilevelFeedbackQueue<Task, QuantumSpecifier, MaxPriorityLevel>]:
    the prioritized multi-queue with the priority-based quantum allocator
    as its enqueue extension. *)
Module MultilevelFeedbackQueue.

Abbreviation State Task := (World Task PrioritizedMultiQueue.ArrayMapImp.Queues).

Definition policy {Task} `{Quantizable Task} `{PrioritizableByPriority Task}
  (QuantumSpecifier : Z -> Outcome Z) : Policy (State Task) :=
  PolicyWithEnqueueExtensions ArrayMapImp_policy
    [PriorityBasedTaskQuantumAllocator QuantumSpecifier].

(** A scheduler with empty queues. *)
Definition new {Task} (memory : gmap N Task) (MaxPriorityLevel : nat) : State Task :=
  mkWorld memory (PrioritizedMultiQueue.ArrayMapImp.empty MaxPriorityLevel).

Definition onTimerInterrupt {Task} `{Quantizable Task} `{PrioritizableByPriority Task}
  `{PrioritizableByAutoMutablePriority Task}
  {idle : SupportsIdleTask (State Task)}
  (QuantumSpecifier : Z -> Outcome Z) (current : TaskPtr) : Stateful (State Task) TaskPtr :=
  TimerInterrupt.Preemptive.KeepRunningCurrentWithAutoDemotionOnQuantumUsedUpAndIdleTaskSupport.onTimerInterrupt
    (self := policy QuantumSpecifier) current.

Definition onTaskCreated {Task} `{Quantizable Task} `{PrioritizableByPriority Task}
  {idle : SupportsIdleTask (State Task)}
  (QuantumSpecifier : Z -> Outcome Z) (current task : TaskPtr) :
  Stateful (State Task) TaskPtr :=
  TaskCreation.Preemptive.RunHigherPriorityWithIdleTaskSupport.onTaskCreated
    (H := AnyPrioritizable_by_priority) (self := policy QuantumSpecifier) current task.

End MultilevelFeedbackQueue.

End SampleSchedulers.

(** [k] consecutive timer interrupts delivered to the same running task:
    the handler must hand the processor back to [current] every time. *)
Fixpoint consecutive_interrupts {S} (onTimerInterrupt : TaskPtr -> Stateful S TaskPtr)
  (k : nat) (current : TaskPtr) : Stateful S unit :=
  match k with
  | O => mret tt
  | S k' =>
      running ← onTimerInterrupt current;
      if (running =? current)%N then consecutive_interrupts onTimerInterrupt k' current
      else fun _ => Aborts "Another task has been selected to run."
  end.

(** ** Well-formed ready queues

    [ready] dereferences the task it enqueues, so a null pointer never
    enters a sub-queue; the keys of the ordered map are kept strictly
    decreasing by [std::map]. *)

Definition array_well_formed (queues : PrioritizedMultiQueue.ArrayMapImp.Queues) : Prop :=
  ∀ (level : nat) (queue : FIFO.Queue), queues !! level = Some (Some queue) → nullptr ∉ queue.

Definition map_well_formed (queues : PrioritizedMultiQueue.StlMapImp.Queues) : Prop :=
  StronglySorted (fun a b => b.1 < a.1) queues ∧
  ∀ (level : Z) (slot : option FIFO.Queue), (level, slot) ∈ queues →
    ∃ queue, slot = Some queue ∧ nullptr ∉ queue.

(** A slot that holds no task: a null slot or an empty sub-queue. *)
Definition idle_slot (slot : option FIFO.Queue) : Prop := slot = None ∨ slot = Some [].

(** The tasks queued in a slot. *)
Definition slot_queue (slot : option FIFO.Queue) : FIFO.Queue :=
  match slot with None => [] | Some queue => queue end.

(** ** Sequences of primitive calls *)

(** [ready(t1); ...; ready(tn)]. *)
Fixpoint ready_all {Q} (ready : TaskPtr -> Q -> Outcome Q)
  (new_tasks : list TaskPtr) (queue : Q) : Outcome Q :=
  match new_tasks with
  | [] => Returns queue
  | task :: rest => queue' ← ready task queue; ready_all ready rest queue'
  end.

(** The tasks returned by [n] calls of [next], in the order of the calls. *)
Fixpoint next_all {Q} (next : Q -> Outcome (TaskPtr * Q))
  (n : nat) (queue : Q) : Outcome (list TaskPtr) :=
  match n with
  | O => Returns []
  | S n' =>
      '(task, queue') ← next queue;
      rest ← next_all next n' queue';
      Returns (task :: rest)
  end.

(** ** Ranked queues *)

(** The rank behind the comparison of two tasks: [lhs > rhs] exactly when
    the rank of [lhs] is the greater one. *)
Definition ranked_by {Task} `{AnyPrioritizable Task} (rank : Task -> Z) : Prop :=
  ∀ lhs rhs, wrapped_gt lhs rhs = (rank lhs >? rank rhs).

Definition rank_at {Task} (rank : Task -> Z) (memory : gmap N Task) (p : TaskPtr) : Z :=
  match memory !! p with
  | Some t => rank t
  | None => 0
  end.

(** A queue of live tasks, ranks never increasing towards the tail. *)
Definition ranked_queue {Task} (rank : Task -> Z) (memory : gmap N Task)
  (queue : list TaskPtr) : Prop :=
  Forall (fun p => p ≠ nullptr ∧ is_Some (memory !! p)) queue ∧
  StronglySorted (fun a b => rank_at rank memory b <= rank_at rank memory a) queue.

(** Four tasks of the same priority level, at addresses 1 to 4. *)
Definition four_equal_tasks : gmap N SimpleTask.t :=
  <[1%N := SimpleTask.new 1 1]> (<[2%N := SimpleTask.new 2 1]>
  (<[3%N := SimpleTask.new 3 1]> (<[4%N := SimpleTask.new 4 1]> ∅))).

(** The real-time tasks that are ready at time 20 of the
    earliest-deadline-first test: task 2 (address 2) is created before
    task 1 (address 1), both with deadline 24. *)
Definition deadline_tie : gmap N SimpleRealtimeTask.t :=
  <[2%N := SimpleRealtimeTask.mk 2 24]> (<[1%N := SimpleRealtimeTask.mk 1 24]> ∅).

(** The task a handler with idle task support dispatches when the policy
    hands it [nextTask]: [nextTask == nullptr ? getIdleTask() : nextTask]. *)
Definition or_idle (idle nextTask : TaskPtr) : TaskPtr :=
  if (nextTask =? nullptr)%N then idle else nextTask.


(** Task 3 of the multilevel-feedback-queue test alone in the system, at
    priority level 3 with no ticks left, and empty queues for the levels 0
    to 3. *)
Definition lone_task_world : World SimpleTask.t PrioritizedMultiQueue.ArrayMapImp.Queues :=
  mkWorld (<[3%N := SimpleTask.mk 3 3 0]> ∅) (PrioritizedMultiQueue.ArrayMapImp.empty 3).


(** The priority of task 3 of [lone_task_world] in the sample multilevel
    feedback queue ([SimpleTask::QuantumSpecifier]: 1 tick at level 3, 2
    ticks at level 2, [UINT32_MAX] ticks at level 1; idle task at address
    9) after it is made ready, dispatched, and interrupted [k] times in a
    row. *)
Definition mlfq_priority_after (k : nat) : Outcome Z :=
  '(priority, _) ←
    (@ready _ (SampleSchedulers.MultilevelFeedbackQueue.policy SimpleTask.QuantumSpecifier) 3%N ;;
     @next _ (SampleSchedulers.MultilevelFeedbackQueue.policy SimpleTask.QuantumSpecifier) ;;
     consecutive_interrupts
       (SampleSchedulers.MultilevelFeedbackQueue.onTimerInterrupt
          (idle := 9%N) SimpleTask.QuantumSpecifier) k 3%N ;;
     read_task 3%N getPriority) lone_task_world;
  Returns priority.

(** A quantum specifier that assigns two ticks to every level, and task 3
    running at level 3 with a full quantum while nothing else is ready. *)
Definition two_ticks_everywhere (priority : Z) : Outcome Z := Returns 2.

Definition lone_running_task_world : World SimpleTask.t PrioritizedMultiQueue.ArrayMapImp.Queues :=
  mkWorld (<[3%N := SimpleTask.mk 3 3 2]> ∅) (PrioritizedMultiQueue.ArrayMapImp.empty 3).


(** The running task (address 2, priority 3) and a ready task (address 1)
    whose priority has just been raised from 2 to 5 while it waits in the
    sub-queue of level 2 of a multi-queue with the levels 0 to 9. *)
Definition priority_raised_world : World SimpleTask.t PrioritizedMultiQueue.ArrayMapImp.Queues :=
  mkWorld (<[1%N := SimpleTask.mk 1 5 0]> (<[2%N := SimpleTask.mk 2 3 0]> ∅))
          (<[2%nat := Some [1%N]]> (PrioritizedMultiQueue.ArrayMapImp.empty 9)).

(** Task 3 running alone at priority level 3 with one tick left. *)
Definition last_tick_world : World SimpleTask.t PrioritizedMultiQueue.ArrayMapImp.Queues :=
  mkWorld (<[3%N := SimpleTask.mk 3 3 1]> ∅) (PrioritizedMultiQueue.ArrayMapImp.empty 3).

(** ** Draining a ready queue *)

(** [n] calls of [next]: the tasks returned, in the order of the calls,
    and the queue that is left. *)
Fixpoint dequeue_all {Q} (next : Q -> Outcome (TaskPtr * Q))
  (n : nat) (queue : Q) : Outcome (list TaskPtr * Q) :=
  match n with
  | O => Returns ([], queue)
  | S n' =>
      '(task, queue') ← next queue;
      '(rest, queue'') ← dequeue_all next n' queue';
      Returns (task :: rest, queue'')
  end.

(** The tasks queued in a prioritized multi-queue, the sub-queue of the
    highest level first. *)
Definition pending (queues : PrioritizedMultiQueue.ArrayMapImp.Queues) : list TaskPtr :=
  concat (reverse (slot_queue <$> queues)).

(** The priority level of the task at an address, as an array index. *)
Definition level_of {Task} `{PrioritizableByPriority Task}
  (memory : gmap N Task) (task : TaskPtr) : nat :=
  match memory !! task with
  | Some t => Z.to_nat (getPriority t)
  | None => O
  end.

(** The tasks of one level, in their order of arrival. *)
Definition arrivals_at {Task} `{PrioritizableByPriority Task}
  (memory : gmap N Task) (arrivals : list TaskPtr) (level : nat) : list TaskPtr :=
  filter (fun task => level_of memory task = level) arrivals.

(** Highest level first, first come first served within a level. *)
Definition by_descending_level {Task} `{PrioritizableByPriority Task}
  (memory : gmap N Task) (levels : nat) (arrivals : list TaskPtr) : list TaskPtr :=
  concat (arrivals_at memory arrivals <$> reverse (seq 0 levels)).

(** ** Policy pointers and policies stored by value *)

(** The policies that an array or a map of policy pointers stands for: a
    null pointer is a level whose policy is not created yet, an empty
    queue once it is. *)
Definition materialize (queues : PrioritizedMultiQueue.ArrayMapImp.Queues) :
  list FIFO.Queue :=
  slot_queue <$> queues.

Definition materialize_map (queues : PrioritizedMultiQueue.StlMapImp.Queues) :
  list (Z * FIFO.Queue) :=
  (fun entry => (entry.1, slot_queue entry.2)) <$> queues.

(** ** The two maps of the prioritized multi-queue side by side *)

(** The tasks queued at a priority level; a level without a policy has
    none. *)
Definition array_level (queues : PrioritizedMultiQueue.ArrayMapImp.Queues) (level : Z) :
  FIFO.Queue :=
  if level <? 0 then []
  else match queues !! Z.to_nat level with
       | Some slot => slot_queue slot
       | None => []
       end.

Definition map_level (queues : PrioritizedMultiQueue.StlMapImp.Queues) (level : Z) :
  FIFO.Queue :=
  match PrioritizedMultiQueue.StlMapImp.find level queues with
  | Some slot => slot_queue slot
  | None => []
  end.

(** An array map and an ordered map that queue the same tasks, level by
    level. *)
Definition same_levels (array : PrioritizedMultiQueue.ArrayMapImp.Queues)
  (map : PrioritizedMultiQueue.StlMapImp.Queues) : Prop :=
  ∀ level : Z, array_level array level = map_level map level.

(** ** Runs of a scheduler *)

(** [k] timer interrupts in a row, each delivered to the task that the
    previous one dispatched; the task that runs in the end. *)
Fixpoint interrupts_in_a_row {S} (onTimerInterrupt : TaskPtr -> Stateful S TaskPtr)
  (k : nat) (current : TaskPtr) : Stateful S TaskPtr :=
  match k with
  | O => mret current
  | S k' =>
      running ← onTimerInterrupt current;
      interrupts_in_a_row onTimerInterrupt k' running
  end.

(** A line of tasks after [k] of them have moved from the front to the
    back. *)
Definition turned (k : nat) (line : list TaskPtr) : list TaskPtr :=
  drop k line ++ take k line.

(** A group operation of the unblock protocol: one intermediate call
    (null [current]) for every unblocked task, then the terminating call
    that fetches the task to run. *)
Fixpoint unblock_group {S} (onTaskUnblocked : TaskPtr -> TaskPtr -> Stateful S TaskPtr)
  (unblocked : list TaskPtr) (current : TaskPtr) : Stateful S TaskPtr :=
  match unblocked with
  | [] => onTaskUnblocked current nullptr
  | task :: rest =>
      onTaskUnblocked nullptr task;;
      unblock_group onTaskUnblocked rest current
  end.

(** [ready(t1); ...; ready(tn)] on the concrete scheduler. *)
Fixpoint ready_each {S} {self : Policy S} (arrivals : list TaskPtr) : Stateful S unit :=
  match arrivals with
  | [] => mret tt
  | task :: rest => ready task;; ready_each rest
  end.

(** A call keeps a property of the scheduler's state: if the property
    holds before the call and the call returns, it holds after it. *)
Definition keeps {S A} (property : S -> Prop) (call : Stateful S A) : Prop :=
  ∀ w a w', property w → call w = Returns (a, w') → property w'.

(** The tasks pending above, at and below a level of the prioritized
    multi-queue, in the order in which [next] hands them out. *)
Definition pending_above (level : nat) (queues : PrioritizedMultiQueue.ArrayMapImp.Queues) :
  list TaskPtr :=
  concat (reverse (slot_queue <$> drop (S level) queues)).

Definition pending_at (level : nat) (queues : PrioritizedMultiQueue.ArrayMapImp.Queues) :
  list TaskPtr :=
  match queues !! level with
  | Some slot => slot_queue slot
  | None => []
  end.

Definition pending_below (level : nat) (queues : PrioritizedMultiQueue.ArrayMapImp.Queues) :
  list TaskPtr :=
  concat (reverse (slot_queue <$> take level queues)).

(** Four tasks of the same priority level and no ready task. *)
Definition no_ready_task_world : World SimpleTask.t FIFO.Queue :=
  mkWorld four_equal_tasks [].

(** The rank behind [>=] on two tasks: [lhs >= rhs] exactly when the rank
    of [lhs] is not the lower one. *)
Definition ordered_by {Task} `{AnyPrioritizable Task} (rank : Task -> Z) : Prop :=
  ∀ lhs rhs, wrapped_ge lhs rhs = (rank rhs <=? rank lhs).

(** Tasks created one after the other, each creation reported to the
    scheduler with the task that runs then; the task that runs in the
    end. *)
Fixpoint create_all {S} (onTaskCreated : TaskPtr -> TaskPtr -> Stateful S TaskPtr)
  (created : list TaskPtr) (current : TaskPtr) : Stateful S TaskPtr :=
  match created with
  | [] => mret current
  | task :: rest =>
      running ← onTaskCreated current task;
      create_all onTaskCreated rest running
  end.

(** [n] tasks finishing one after the other, each the task that runs
    then; the tasks dispatched, in order. *)
Fixpoint finish_all {S} (onTaskFinished : TaskPtr -> Stateful S TaskPtr)
  (n : nat) (current : TaskPtr) : Stateful S (list TaskPtr) :=
  match n with
  | O => mret []
  | S n' =>
      running ← onTaskFinished current;
      rest ← finish_all onTaskFinished n' running;
      mret (running :: rest)
  end.

(** ** Handlers that return without an idle fallback *)






(** Task 3 running at priority level 2 while task 4 waits at level 3,
    task 5 at level 2 and task 6 at level 1 of a multi-queue with the
    levels 0 to 3. *)
Definition waiting_at_every_level_world :
  World SimpleTask.t PrioritizedMultiQueue.ArrayMapImp.Queues :=
  mkWorld (<[6%N := SimpleTask.mk 6 1 0]>
             (<[5%N := SimpleTask.mk 5 2 0]>
                (<[4%N := SimpleTask.mk 4 3 0]> (<[3%N := SimpleTask.mk 3 2 0]> ∅))))
          [None; Some [6%N]; Some [5%N]; Some [4%N]].

(** ** Proof automation *)

(** Case analysis on the outcome of the first call that is not reduced. *)
Ltac case_outcome :=
  match goal with
  | |- context [match ?x with Returns _ => _ | Aborts _ => _ | Undefined => _ end] =>
      lazymatch x with
      | context [match _ with Returns _ => _ | Aborts _ => _ | Undefined => _ end] => fail
      | _ => destruct x as [[? ?]| |] eqn:?
      end
  end.

(** * Properties *)

(** ** The prioritized multi-queue serves the highest level first *)

Module MultiQueueFacts.

Import PrioritizedMultiQueue.

Lemma scan_all_idle (slots : list (option FIFO.Queue)) :
  Forall idle_slot slots → ArrayMapImp.scan slots = (nullptr, slots).
Proof.
  induction 1 as [|slot slots [-> | ->] _ IH]; simpl; [done| |].
  - by rewrite IH.
  - by rewrite IH.
Qed.

Lemma scan_first_pending (before after : list (option FIFO.Queue)) task rest :
  Forall idle_slot before → task ≠ nullptr →
  ArrayMapImp.scan (before ++ Some (task :: rest) :: after)
  = (task, before ++ Some rest :: after).
Proof.
  intros Hidle Htask. induction Hidle as [|slot slots [-> | ->] _ IH]; simpl.
  - destruct (N.eqb_spec task nullptr); [done | done].
  - by rewrite IH.
  - by rewrite IH.
Qed.

(** Either every slot is idle, or the slots split at the first pending one. *)
Lemma slots_split (slots : list (option FIFO.Queue)) :
  Forall idle_slot slots ∨
  ∃ before task rest after,
    slots = before ++ Some (task :: rest) :: after ∧ Forall idle_slot before.
Proof.
  induction slots as [|slot slots IH]; [by left|].
  destruct slot as [[|task rest]|].
  - destruct IH as [IH | (before & task & rest & after & -> & Hb)].
    + left. constructor; [by right | done].
    + right. exists (Some [] :: before), task, rest, after. split; [done|].
      constructor; [by right | done].
  - right. by exists [], task, rest, slots.
  - destruct IH as [IH | (before & task & rest & after & -> & Hb)].
    + left. constructor; [by left | done].
    + right. exists (None :: before), task, rest, after. split; [done|].
      constructor; [by left | done].
Qed.

Lemma all_idle_iff (queues : ArrayMapImp.Queues) :
  Forall idle_slot queues ↔
  ∀ (level : nat) (queue : FIFO.Queue), queues !! level = Some (Some queue) → queue = [].
Proof.
  rewrite Forall_lookup. split.
  - intros H level queue Hl. destruct (H _ _ Hl) as [?|?]; congruence.
  - intros H level [queue|] Hl; [right | by left]. by rewrite (H _ _ Hl).
Qed.

Lemma array_next_cases (queues : ArrayMapImp.Queues) :
  array_well_formed queues →
  (Forall idle_slot queues ∧ ArrayMapImp.next queues = (nullptr, queues)) ∨
  (∃ (level : nat) task rest,
      queues !! level = Some (Some (task :: rest)) ∧ task ≠ nullptr ∧
      (∀ (level' : nat) (queue : FIFO.Queue),
          (level < level')%nat → queues !! level' = Some (Some queue) → queue = []) ∧
      ArrayMapImp.next queues = (task, <[level := Some rest]> queues)).
Proof.
  intros Hwf. unfold ArrayMapImp.next.
  destruct (slots_split (reverse queues)) as [Hidle | (before & task & rest & after & Hsplit & Hidle)].
  - left. rewrite scan_all_idle by done. rewrite reverse_involutive. split; [|done].
    rewrite <- (reverse_involutive queues). by apply Forall_reverse.
  - right.
    assert (Hq : queues = reverse after ++ Some (task :: rest) :: reverse before).
    { rewrite <- (reverse_involutive queues), Hsplit.
      by rewrite reverse_app, reverse_cons, <- app_assoc. }
    assert (Hlvl : queues !! length (reverse after) = Some (Some (task :: rest))).
    { rewrite Hq. by apply list_lookup_middle. }
    assert (Htask : task ≠ nullptr).
    { intros ->. apply (Hwf _ _ Hlvl). constructor. }
    exists (length (reverse after)), task, rest. split_and!; [done | done | |].
    + intros level' queue Hlt Hl. rewrite Hq in Hl.
      rewrite lookup_app_r in Hl by lia.
      destruct (level' - length (reverse after))%nat as [|i] eqn:Hi; [lia|].
      simpl in Hl. apply Forall_reverse in Hidle.
      rewrite Forall_lookup in Hidle. destruct (Hidle _ _ Hl); congruence.
    + rewrite Hsplit, scan_first_pending by done.
      rewrite reverse_app, reverse_cons, <- app_assoc. simpl.
      rewrite Hq. by rewrite insert_app_r_alt, Nat.sub_diag by lia.
Qed.

Lemma map_next_cases (queues : StlMapImp.Queues) :
  map_well_formed queues →
  ((∀ (level : Z) (queue : FIFO.Queue), (level, Some queue) ∈ queues → queue = []) ∧
   StlMapImp.next queues = Returns (nullptr, queues)) ∨
  (∃ (level : Z) task rest,
      (level, Some (task :: rest)) ∈ queues ∧ task ≠ nullptr ∧
      (∀ (level' : Z) (queue : FIFO.Queue),
          level < level' → (level', Some queue) ∈ queues → queue = []) ∧
      StlMapImp.next queues = Returns (task, StlMapImp.assign level (Some rest) queues)).
Proof.
  intros [Hsorted Hslots]. induction queues as [|[k slot] queues IH].
  - left. split; [|done]. intros level queue Hin. by apply elem_of_nil in Hin.
  - apply StronglySorted_inv in Hsorted as [Hsorted Hlower].
    destruct (Hslots k slot) as (queue & -> & Hnonnull); [constructor|].
    destruct queue as [|task rest].
    + destruct IH as [[Hidle Hnext] | (level & task & rest & Hin & Htask & Hhigher & Hnext)];
        [done | intros level' slot' Hin'; apply (Hslots level'); by constructor | |].
      * left. split.
        -- intros level queue Hin. apply elem_of_cons in Hin as [[= _ <-] | Hin]; [done|].
           by apply (Hidle level).
        -- simpl. by rewrite Hnext.
      * right. exists level, task, rest.
        assert (Hlt : level < k).
        { rewrite Forall_forall in Hlower. apply (Hlower _ Hin). }
        split_and!; [by constructor | done | |].
        -- intros level' queue Hlt' Hin'.
           apply elem_of_cons in Hin' as [[= _ <-] | Hin']; [done|].
           by apply (Hhigher level').
        -- simpl. rewrite Hnext. simpl.
           destruct (Z.eqb_spec k level); [lia|].
           destruct (Z.gtb_spec level k); [lia | done].
    + right. exists k, task, rest.
      assert (Htask : task ≠ nullptr).
      { intros ->. apply Hnonnull. constructor. }
      split_and!; [constructor | done | |].
      * intros level' queue Hlt Hin.
        apply elem_of_cons in Hin as [[= -> _] | Hin]; [lia|].
        rewrite Forall_forall in Hlower. specialize (Hlower _ Hin). simpl in Hlower. lia.
      * simpl. destruct (N.eqb_spec task nullptr); [done|].
        by rewrite Z.eqb_refl.
Qed.

(** The invariants hold initially and [ready] keeps them. *)
Lemma array_empty_well_formed (MaxPriorityLevel : nat) :
  array_well_formed (ArrayMapImp.empty MaxPriorityLevel).
Proof.
  intros level queue Hl. apply lookup_replicate in Hl as [? _]. done.
Qed.

Lemma array_ready_well_formed {Task} `{PrioritizableByPriority Task}
  (memory : gmap N Task) task (queues queues' : ArrayMapImp.Queues) :
  array_well_formed queues →
  ArrayMapImp.ready memory task queues = Returns queues' →
  array_well_formed queues'.
Proof.
  unfold ArrayMapImp.ready, deref. intros Hwf Hready.
  destruct (N.eqb_spec task nullptr) as [|Htask]; [done|].
  destruct (memory !! task) as [t|]; [|done]. simpl in Hready.
  destruct (queues !! Z.to_nat (getPriority t)) as [slot|] eqn:Hslot; [|done].
  injection Hready as <-. intros level queue Hl.
  destruct (decide (level = Z.to_nat (getPriority t))) as [->|Hne].
  - rewrite list_lookup_insert_eq in Hl by (by eapply lookup_lt_Some).
    injection Hl as <-. unfold FIFO.ready. rewrite elem_of_app, list_elem_of_singleton.
    intros [Hin | Heq]; [|done].
    destruct slot as [queue|]; [by apply (Hwf _ _ Hslot) | by apply elem_of_nil in Hin].
  - rewrite list_lookup_insert_ne in Hl by done. by apply (Hwf level).
Qed.

Lemma assign_elem_of priority value (queues : StlMapImp.Queues) level slot :
  (level, slot) ∈ StlMapImp.assign priority value queues →
  (level, slot) = (priority, value) ∨ (level, slot) ∈ queues.
Proof.
  induction queues as [|[k v] queues IH]; simpl.
  - intros Hin. apply list_elem_of_singleton in Hin. by left.
  - destruct (Z.eqb_spec k priority) as [->|Hne].
    + intros Hin. apply elem_of_cons in Hin as [-> | Hin]; [by left|].
      right. by constructor.
    + destruct (Z.gtb_spec priority k).
      * intros Hin. apply elem_of_cons in Hin as [-> | Hin]; [by left | by right].
      * intros Hin. apply elem_of_cons in Hin as [-> | Hin]; [right; constructor|].
        destruct (IH Hin) as [-> | Hin']; [by left | right; by constructor].
Qed.

Lemma assign_sorted priority value (queues : StlMapImp.Queues) :
  StronglySorted (fun a b => b.1 < a.1) queues →
  StronglySorted (fun a b => b.1 < a.1) (StlMapImp.assign priority value queues).
Proof.
  induction queues as [|[k v] queues IH]; simpl; intros Hsorted.
  - repeat constructor.
  - apply StronglySorted_inv in Hsorted as [Hsorted Hlower].
    destruct (Z.eqb_spec k priority) as [->|Hne].
    + by constructor.
    + destruct (Z.gtb_spec priority k).
      * constructor; [by constructor|].
        constructor; [simpl; lia|].
        eapply Forall_impl; [exact Hlower|]. simpl. intros; lia.
      * constructor; [by apply IH|].
        rewrite Forall_forall. intros [level slot] Hin.
        destruct (assign_elem_of _ _ _ _ _ Hin) as [[= -> ->] | Hin']; simpl; [lia|].
        rewrite Forall_forall in Hlower. apply (Hlower _ Hin').
Qed.

Lemma find_elem_of priority (queues : StlMapImp.Queues) slot :
  StlMapImp.find priority queues = Some slot → (priority, slot) ∈ queues.
Proof.
  induction queues as [|[k v] queues IH]; simpl; [done|].
  destruct (Z.eqb_spec k priority) as [->|Hne].
  - intros [= ->]. constructor.
  - intros Hfind. right. by apply IH.
Qed.

Lemma map_ready_well_formed {Task} `{PrioritizableByPriority Task}
  (memory : gmap N Task) task (queues queues' : StlMapImp.Queues) :
  map_well_formed queues →
  StlMapImp.ready memory task queues = Returns queues' →
  map_well_formed queues'.
Proof.
  unfold StlMapImp.ready, deref. intros [Hsorted Hslots] Hready.
  destruct (N.eqb_spec task nullptr) as [|Htask]; [done|].
  destruct (memory !! task) as [t|]; [|done]. simpl in Hready.
  injection Hready as <-. split; [by apply assign_sorted|].
  intros level slot Hin.
  destruct (assign_elem_of _ _ _ _ _ Hin) as [[= -> ->] | Hin']; [|by apply (Hslots level)].
  eexists; split; [done|].
  unfold FIFO.ready. rewrite elem_of_app, list_elem_of_singleton.
  intros [Hnull | Heq]; [|done].
  destruct (StlMapImp.find (getPriority t) queues) as [[queue|]|] eqn:Hfind;
    [|by apply elem_of_nil in Hnull..].
  apply find_elem_of in Hfind. destruct (Hslots _ _ Hfind) as (queue' & [= <-] & Hq). done.
Qed.

(** C1.  In both implementations of the prioritized multi-queue (the
    array map and the ordered map), on every well-formed state: if some
    sub-queue is non-empty, [next] returns the head of the non-empty
    sub-queue of the highest priority level, every sub-queue of a strictly
    higher level being empty, and removes that task only; and [next]
    returns null exactly when every sub-queue is empty. *)
Theorem next_serves_highest_level
  (array : ArrayMapImp.Queues) (map : StlMapImp.Queues) :
  array_well_formed array →
  map_well_formed map →
  (((∃ (level : nat) (queue : FIFO.Queue), array !! level = Some (Some queue) ∧ queue ≠ []) →
    ∃ (level : nat) task rest,
      array !! level = Some (Some (task :: rest)) ∧ task ≠ nullptr ∧
      (∀ (level' : nat) (queue : FIFO.Queue),
          (level < level')%nat → array !! level' = Some (Some queue) → queue = []) ∧
      ArrayMapImp.next array = (task, <[level := Some rest]> array)) ∧
   ((ArrayMapImp.next array).1 = nullptr ↔
    ∀ (level : nat) (queue : FIFO.Queue), array !! level = Some (Some queue) → queue = []))
  ∧
  (((∃ (level : Z) (queue : FIFO.Queue), (level, Some queue) ∈ map ∧ queue ≠ []) →
    ∃ (level : Z) task rest,
      (level, Some (task :: rest)) ∈ map ∧ task ≠ nullptr ∧
      (∀ (level' : Z) (queue : FIFO.Queue),
          level < level' → (level', Some queue) ∈ map → queue = []) ∧
      StlMapImp.next map = Returns (task, StlMapImp.assign level (Some rest) map)) ∧
   (∃ task map', StlMapImp.next map = Returns (task, map') ∧
      (task = nullptr ↔
       ∀ (level : Z) (queue : FIFO.Queue), (level, Some queue) ∈ map → queue = []))).
Proof.
  intros Harray Hmap. split.
  - destruct (array_next_cases array Harray)
      as [[Hidle Hnext] | (level & task & rest & Hl & Htask & Hhigher & Hnext)].
    + pose proof (proj1 (all_idle_iff array) Hidle) as Hempty. clear Hidle.
      rename Hempty into Hidle. split.
      * intros (level & queue & Hl & Hne). by specialize (Hidle _ _ Hl).
      * by rewrite Hnext.
    + split.
      * intros _. by exists level, task, rest.
      * rewrite Hnext. simpl. split; [done|].
        intros Hidle. by specialize (Hidle _ _ Hl).
  - destruct (map_next_cases map Hmap)
      as [[Hidle Hnext] | (level & task & rest & Hin & Htask & Hhigher & Hnext)].
    + split.
      * intros (level & queue & Hin & Hne). by specialize (Hidle _ _ Hin).
      * by exists nullptr, map.
    + split.
      * intros _. by exists level, task, rest.
      * eexists _, _. split; [exact Hnext|]. split; [done|].
        intros Hidle. by specialize (Hidle _ _ Hin).
Qed.

Lemma next_serves_highest_level_witness :
  (((∃ (level : nat) (queue : FIFO.Queue),
        [None; Some [5%N]; Some []; Some [7%N; 8%N]; None] !! level = Some (Some queue) ∧ queue ≠ []) →
    ∃ (level : nat) task rest,
      [None; Some [5%N]; Some []; Some [7%N; 8%N]; None] !! level = Some (Some (task :: rest)) ∧
      task ≠ nullptr ∧
      (∀ (level' : nat) (queue : FIFO.Queue),
          (level < level')%nat →
          [None; Some [5%N]; Some []; Some [7%N; 8%N]; None] !! level' = Some (Some queue) →
          queue = []) ∧
      ArrayMapImp.next [None; Some [5%N]; Some []; Some [7%N; 8%N]; None]
      = (task, <[level := Some rest]> [None; Some [5%N]; Some []; Some [7%N; 8%N]; None])) ∧
   ((ArrayMapImp.next [None; Some [5%N]; Some []; Some [7%N; 8%N]; None]).1 = nullptr ↔
    ∀ (level : nat) (queue : FIFO.Queue),
      [None; Some [5%N]; Some []; Some [7%N; 8%N]; None] !! level = Some (Some queue) →
      queue = []))
  ∧
  (((∃ (level : Z) (queue : FIFO.Queue),
        (level, Some queue) ∈ [(9, Some []); (4, Some [7%N; 8%N]); (1, Some [5%N])] ∧ queue ≠ []) →
    ∃ (level : Z) task rest,
      (level, Some (task :: rest)) ∈ [(9, Some []); (4, Some [7%N; 8%N]); (1, Some [5%N])] ∧
      task ≠ nullptr ∧
      (∀ (level' : Z) (queue : FIFO.Queue),
          level < level' →
          (level', Some queue) ∈ [(9, Some []); (4, Some [7%N; 8%N]); (1, Some [5%N])] →
          queue = []) ∧
      StlMapImp.next [(9, Some []); (4, Some [7%N; 8%N]); (1, Some [5%N])]
      = Returns (task, StlMapImp.assign level (Some rest)
                         [(9, Some []); (4, Some [7%N; 8%N]); (1, Some [5%N])])) ∧
   (∃ task map',
      StlMapImp.next [(9, Some []); (4, Some [7%N; 8%N]); (1, Some [5%N])] = Returns (task, map') ∧
      (task = nullptr ↔
       ∀ (level : Z) (queue : FIFO.Queue),
         (level, Some queue) ∈ [(9, Some []); (4, Some [7%N; 8%N]); (1, Some [5%N])] →
         queue = []))).
Proof.
  apply (next_serves_highest_level
           [None; Some [5%N]; Some []; Some [7%N; 8%N]; None]
           [(9, Some []); (4, Some [7%N; 8%N]); (1, Some [5%N])]).
  - intros [|[|[|[|[|level]]]]] queue [= <-]; unfold nullptr; intros Hin;
      repeat (apply elem_of_cons in Hin as [?|Hin]; [done|]); by apply elem_of_nil in Hin.
  - split.
    + repeat constructor; simpl; lia.
    + intros level slot Hin. repeat (apply elem_of_cons in Hin as [[= -> ->]|Hin]);
        [eexists; split; [done|]; unfold nullptr; intros Hnull;
         repeat (apply elem_of_cons in Hnull as [?|Hnull]; [done|]);
         by apply elem_of_nil in Hnull.. | by apply elem_of_nil in Hin].
Defined.

End MultiQueueFacts.

(** ** Ties in the prioritized single queue *)

Module SingleQueueFacts.

Import PrioritizedSingleQueue.

Lemma deref_live {Task} (memory : gmap N Task) p :
  p ≠ nullptr → is_Some (memory !! p) →
  ∃ t, memory !! p = Some t ∧ deref memory p = Returns t.
Proof.
  intros Hp [t Ht]. exists t. split; [done|]. unfold deref.
  destruct (N.eqb_spec p nullptr); [done|]. by rewrite Ht.
Qed.

Lemma greater_live {Task} `{AnyPrioritizable Task} (rank : Task -> Z)
  (memory : gmap N Task) lhs rhs :
  ranked_by rank →
  lhs ≠ nullptr → is_Some (memory !! lhs) →
  rhs ≠ nullptr → is_Some (memory !! rhs) →
  BridgedGreaterComparator memory lhs rhs
  = Returns (rank_at rank memory lhs >? rank_at rank memory rhs).
Proof.
  intros Hrank Hl Hl' Hr Hr'.
  destruct (deref_live memory lhs Hl Hl') as (l & Hml & Hdl).
  destruct (deref_live memory rhs Hr Hr') as (r & Hmr & Hdr).
  unfold BridgedGreaterComparator, rank_at. rewrite Hdl, Hdr, Hml, Hmr. simpl.
  by rewrite Hrank.
Qed.

(** The sorted insertion splits the queue in two: the new task goes
    behind every task of its rank or above, before every task below. *)
Lemma insert_splits {Task} `{AnyPrioritizable Task} (rank : Task -> Z)
  (memory : gmap N Task) task (queue : list TaskPtr) :
  ranked_by rank →
  task ≠ nullptr → is_Some (memory !! task) →
  ranked_queue rank memory queue →
  ∃ front back,
    LinkedListImp.ready memory task queue = Returns (front ++ task :: back) ∧
    queue = front ++ back ∧
    Forall (fun p => rank_at rank memory task <= rank_at rank memory p) front ∧
    Forall (fun p => rank_at rank memory p < rank_at rank memory task) back.
Proof.
  intros Hrank Htask Hlive [Hqueue Hsorted]. unfold LinkedListImp.ready.
  induction queue as [|current rest IH].
  - exists [], []. by repeat split.
  - apply Forall_cons in Hqueue as [[Hc Hc'] Hqueue].
    apply StronglySorted_inv in Hsorted as [Hsorted Hlower].
    simpl. rewrite (greater_live rank) by done. simpl.
    destruct (Z.gtb_spec (rank_at rank memory task) (rank_at rank memory current)) as [Hgt|Hle].
    + exists [], (current :: rest). split_and!; [done | done | constructor |].
      constructor; [done|]. eapply Forall_impl; [exact Hlower|]. simpl. intros; lia.
    + destruct (IH Hqueue Hsorted) as (front & back & Hins & -> & Hfront & Hback).
      exists (current :: front), back. rewrite Hins. simpl.
      split_and!; [done | done | by constructor | done].
Qed.

Lemma next_all_whole_queue (queue : list TaskPtr) :
  next_all (fun q => Returns (LinkedListImp.next q)) (length queue) queue = Returns queue.
Proof.
  induction queue as [|task rest IH]; simpl; [done|]. by rewrite IH.
Qed.

(** C2, amended.  In the linked-list implementation of the prioritized
    single queue, a task [b] inserted by [ready] while a task [a] of equal
    rank is queued goes behind [a], without reordering the queued tasks;
    the queue stays ranked, and the successive calls of [next] return its
    tasks from the head on, so [a] is dequeued before [b]. *)
Theorem linked_list_ties_first_come_first_served
  {Task} `{AnyPrioritizable Task} (rank : Task -> Z)
  (memory : gmap N Task) (a b : TaskPtr) (queue : LinkedListImp.Queue) :
  ranked_by rank →
  ranked_queue rank memory queue →
  b ≠ nullptr → is_Some (memory !! b) →
  a ∈ queue →
  rank_at rank memory a = rank_at rank memory b →
  ∃ front back,
    LinkedListImp.ready memory b queue = Returns (front ++ b :: back) ∧
    queue = front ++ back ∧
    a ∈ front ∧
    ranked_queue rank memory (front ++ b :: back) ∧
    next_all (fun q => Returns (LinkedListImp.next q))
      (length (front ++ b :: back)) (front ++ b :: back)
    = Returns (front ++ b :: back).
Proof.
  intros Hrank Hqueue Hb Hlive Hin Heq.
  destruct (insert_splits rank memory b queue Hrank Hb Hlive Hqueue)
    as (front & back & Hins & -> & Hfront & Hback).
  exists front, back. split_and!; [done | done | | | apply next_all_whole_queue].
  - apply elem_of_app in Hin as [Hin | Hin]; [done|].
    rewrite Forall_forall in Hback. specialize (Hback _ Hin). simpl in Hback. lia.
  - destruct Hqueue as [Hall Hsorted]. split.
    + apply Forall_app in Hall as [Hf Hbk]. apply Forall_app. split; [done|].
      by constructor.
    + apply StronglySorted_app in Hsorted as (Hcross & Hsf & Hsb).
      apply StronglySorted_app. split_and!; [|done|].
      * intros x1 x2 Hx1 Hx2. apply elem_of_cons in Hx2 as [-> | Hx2].
        -- rewrite Forall_forall in Hfront. by apply Hfront.
        -- by apply Hcross.
      * constructor; [done|]. eapply Forall_impl; [exact Hback|]. simpl. intros; lia.
Qed.

Lemma simple_realtime_task_ranked :
  ranked_by (fun t : SimpleRealtimeTask.t => - SimpleRealtimeTask.deadline t).
Proof.
  intros lhs rhs. simpl.
  destruct (Z.gtb_spec (SimpleRealtimeTask.deadline rhs) (SimpleRealtimeTask.deadline lhs));
    destruct (Z.gtb_spec (- SimpleRealtimeTask.deadline lhs) (- SimpleRealtimeTask.deadline rhs));
    try done; lia.
Qed.

Lemma simple_task_ranked : ranked_by SimpleTask.priority.
Proof. intros lhs rhs. done. Qed.

Lemma linked_list_ties_first_come_first_served_witness :
  ∃ front back,
    LinkedListImp.ready deadline_tie 1%N [2%N] = Returns (front ++ 1%N :: back) ∧
    [2%N] = front ++ back ∧
    2%N ∈ front ∧
    ranked_queue (fun t => - SimpleRealtimeTask.deadline t) deadline_tie (front ++ 1%N :: back) ∧
    next_all (fun q => Returns (LinkedListImp.next q))
      (length (front ++ 1%N :: back)) (front ++ 1%N :: back)
    = Returns (front ++ 1%N :: back).
Proof.
  apply (linked_list_ties_first_come_first_served
           (fun t => - SimpleRealtimeTask.deadline t) deadline_tie 2%N 1%N [2%N]).
  - exact simple_realtime_task_ranked.
  - split; repeat constructor; [done | by eexists].
  - done.
  - by eexists.
  - constructor.
  - reflexivity.
Defined.

(** C2, as stated, fails for the priority queue of the standard library:
    of four tasks of the same priority made ready in the order 1, 2, 3, 4,
    task 3 is dequeued before task 2. *)
Lemma stl_priority_queue_reorders_ties :
  (queue ← ready_all (StlPriorityQueueImp.ready four_equal_tasks) [1%N; 2%N; 3%N; 4%N] [];
   next_all (StlPriorityQueueImp.next four_equal_tasks) 4 queue)
  = Returns [1%N; 3%N; 2%N; 4%N]
  ∧ SimpleTask.priority <$> four_equal_tasks !! 2%N = SimpleTask.priority <$> four_equal_tasks !! 3%N.
Proof. split; vm_compute; reflexivity. Qed.

End SingleQueueFacts.

(** ** Event handlers over an arbitrary concrete scheduler *)

Module HandlerFacts.

Lemma bind_returns {S A B} (m : Stateful S A) (k : A -> Stateful S B) w a w' :
  m w = Returns (a, w') → (m ≫= k) w = k a w'.
Proof. intros Hm. unfold mbind, Stateful_bind. by rewrite Hm. Qed.

Lemma getIdleTask_bind {S A} {idle : SupportsIdleTask S} (k : TaskPtr -> Stateful S A) w :
  (getIdleTask ≫= k) w = k idleTask w.
Proof. reflexivity. Qed.

Lemma or_idle_non_null idle nextTask : idle ≠ nullptr → or_idle idle nextTask ≠ nullptr.
Proof.
  intros Hidle. unfold or_idle. by destruct (N.eqb_spec nextTask nullptr).
Qed.

Lemma FIFO_next_ready_empty {Task} (w : World Task FIFO.Queue) task :
  policy w = [] →
  (@ready _ FIFO_policy task ;; @next _ FIFO_policy) w = Returns (task, w).
Proof.
  destruct w as [memory queue]. simpl. intros ->. reflexivity.
Qed.

Lemma FIFO_next_ready {Task} (w : World Task FIFO.Queue) task :
  (@ready _ FIFO_policy task ;; @next _ FIFO_policy) w
  = Returns (hd task (policy w), set_policy (tl (policy w ++ [task])) w).
Proof.
  destruct w as [memory [|first queue]]; reflexivity.
Qed.

(** C9.  The task-killed handler aborts on its assertion when [current]
    and [task] are the same pointer (two null pointers included), whatever
    [remove] does.  With different pointers the assertion passes: an
    intermediate call (null [current]) is [remove(task)] followed by the
    return of null; a terminating call with a task is [remove(task)]
    followed by the return of [current]; a terminating call without a task
    returns [current] and changes nothing. *)
Theorem task_killed_asserts_distinct_tasks
  {Task P} (self : SupportsRemovingTasks (World Task P))
  (current task : TaskPtr) (w : World Task P) :
  (current = task →
   TaskKilled.Common.KeepRunningCurrent.onTaskKilled current task w
   = Aborts "Usage Error: The current running task cannot be identical to the task being killed.")
  ∧ (current ≠ task → current = nullptr →
     TaskKilled.Common.KeepRunningCurrent.onTaskKilled current task w
     = (remove task ;; mret nullptr) w)
  ∧ (current ≠ task → current ≠ nullptr → task ≠ nullptr →
     TaskKilled.Common.KeepRunningCurrent.onTaskKilled current task w
     = (remove task ;; mret current) w)
  ∧ (current ≠ nullptr → task = nullptr →
     TaskKilled.Common.KeepRunningCurrent.onTaskKilled current task w
     = Returns (current, w)).
Proof.
  unfold TaskKilled.Common.KeepRunningCurrent.onTaskKilled, passert. split_and!.
  - intros ->. unfold mbind, Stateful_bind. by rewrite N.eqb_refl.
  - intros Hne ->. unfold mbind, Stateful_bind.
    destruct (N.eqb_spec nullptr task); [done|]. by rewrite N.eqb_refl.
  - intros Hne Hc Ht. unfold mbind, Stateful_bind.
    destruct (N.eqb_spec current task); [done|].
    destruct (N.eqb_spec current nullptr); [done|].
    destruct (N.eqb_spec task nullptr); [done|]. simpl.
    by destruct (remove task w) as [[[] w']| |].
  - intros Hc ->. unfold mbind, Stateful_bind.
    destruct (N.eqb_spec current nullptr); [done|]. by rewrite N.eqb_refl.
Qed.

Lemma deref_lookup {Task} (memory : gmap N Task) p t :
  p ≠ nullptr → memory !! p = Some t → deref memory p = Returns t.
Proof.
  intros Hp Ht. unfold deref. destruct (N.eqb_spec p nullptr); [done|]. by rewrite Ht.
Qed.

Lemma call_task_returns {Task P} (w : World Task P) p t (method : Task -> Task) :
  p ≠ nullptr → tasks w !! p = Some t →
  call_task p method w = Returns (tt, set_tasks (<[p := method t]> (tasks w)) w).
Proof. intros Hp Ht. unfold call_task. by rewrite (deref_lookup _ _ t). Qed.

Lemma read_task_returns {Task P A} (w : World Task P) p t (method : Task -> A) :
  p ≠ nullptr → tasks w !! p = Some t →
  read_task p method w = Returns (method t, w).
Proof. intros Hp Ht. unfold read_task. by rewrite (deref_lookup _ _ t). Qed.

(** C6.  [RunNextWithDemotionAndQuantumRecharged] on a live task: the
    task object is demoted once and given the ticks the quantum specifier
    assigns to its priority after the demotion, nothing else in memory
    changes; then the task is enqueued with [ready] and the handler returns
    what [next] returns. *)
Theorem demotion_then_recharge_then_next
  {Task P} `{Quantizable Task} `{PrioritizableByPriority Task}
  `{PrioritizableByAutoMutablePriority Task}
  (self : Policy (World Task P)) (CustomQuantumSpecifier : Z -> Outcome Z)
  (current : TaskPtr) (t : Task) (quantum : Z) (w : World Task P) :
  current ≠ nullptr →
  tasks w !! current = Some t →
  CustomQuantumSpecifier (getPriority (demote t)) = Returns quantum →
  TaskQuantumUsedUp.Preemptive.RunNextWithDemotionAndQuantumRecharged.onTaskQuantumUsedUp
    CustomQuantumSpecifier current w
  = (ready current ;; next)
      (set_tasks (<[current := allocateTicks quantum (demote t)]> (tasks w)) w).
Proof.
  intros Hc Ht Hq.
  unfold TaskQuantumUsedUp.Preemptive.RunNextWithDemotionAndQuantumRecharged.onTaskQuantumUsedUp.
  rewrite (bind_returns _ _ _ _ _ (call_task_returns w current t demote Hc Ht)).
  set (w1 := set_tasks (<[current := demote t]> (tasks w)) w).
  assert (Ht1 : tasks w1 !! current = Some (demote t)) by apply lookup_insert_eq.
  rewrite (bind_returns _ _ _ _ _ (read_task_returns w1 current _ getPriority Hc Ht1)).
  unfold mbind at 1, Stateful_bind at 1. rewrite Hq. simpl.
  rewrite (bind_returns _ _ _ _ _ (call_task_returns w1 current _ (allocateTicks quantum) Hc Ht1)).
  unfold w1, set_tasks. simpl. by rewrite insert_insert_eq.
Qed.

Lemma demotion_then_recharge_then_next_witness :
  TaskQuantumUsedUp.Preemptive.RunNextWithDemotionAndQuantumRecharged.onTaskQuantumUsedUp
    (self := ArrayMapImp_policy) SimpleTask.QuantumSpecifier 3%N lone_task_world
  = (@ready _ ArrayMapImp_policy 3%N ;; @next _ ArrayMapImp_policy)
      (set_tasks
         (<[3%N := allocateTicks 2 (demote (SimpleTask.mk 3 3 0))]> (tasks lone_task_world))
         lone_task_world).
Proof.
  apply (demotion_then_recharge_then_next ArrayMapImp_policy SimpleTask.QuantumSpecifier
           3%N (SimpleTask.mk 3 3 0) 2 lone_task_world).
  - done.
  - reflexivity.
  - reflexivity.
Defined.






(** C10.  The quantum-bookkeeping timer handler with idle task support,
    called with the idle task as [current], is [next] followed by the
    substitution of the idle task for a null result: no [tick] and no
    other call on a task is performed.  In the multilevel feedback queue
    the task memory, hence the idle task's ticks and priority, is left as
    it was, and the task returned is the one the multi-queue hands out, or
    the idle task when it hands out none. *)
Theorem idle_task_is_never_ticked
  {Task P} `{Quantizable Task} `{PrioritizableByPriority Task}
  `{PrioritizableByAutoMutablePriority Task}
  (self : Policy (World Task P)) (idle : SupportsIdleTask (World Task P))
  (quantumUsedUp : ProvidesTaskQuantumUsedUpHandler (World Task P))
  (w : World Task P)
  (QuantumSpecifier : Z -> Outcome Z)
  (mlfqIdle : SupportsIdleTask (World Task PrioritizedMultiQueue.ArrayMapImp.Queues))
  (mlfq : World Task PrioritizedMultiQueue.ArrayMapImp.Queues) :
  TimerInterrupt.Preemptive.KeepRunningCurrentWithAnyQuantumUsedUpHandlerAndIdleTaskSupport.onTimerInterrupt
    (idle := idle) idle w
  = (nextTask ← next; mret (or_idle idle nextTask)) w
  ∧ SampleSchedulers.MultilevelFeedbackQueue.onTimerInterrupt
      (idle := mlfqIdle) QuantumSpecifier mlfqIdle mlfq
    = Returns (or_idle mlfqIdle (PrioritizedMultiQueue.ArrayMapImp.next (policy mlfq)).1,
               mkWorld (tasks mlfq) (PrioritizedMultiQueue.ArrayMapImp.next (policy mlfq)).2).
Proof.
  split.
  - unfold TimerInterrupt.Preemptive.KeepRunningCurrentWithAnyQuantumUsedUpHandlerAndIdleTaskSupport.onTimerInterrupt.
    unfold getIdleTask, mbind, mret, Stateful_bind, Stateful_ret, idleTask.
    rewrite N.eqb_refl. destruct (next w) as [[nextTask w']| |]; [|done..].
    unfold or_idle. by destruct (N.eqb_spec nextTask nullptr).
  - unfold SampleSchedulers.MultilevelFeedbackQueue.onTimerInterrupt.
    unfold TimerInterrupt.Preemptive.KeepRunningCurrentWithAutoDemotionOnQuantumUsedUpAndIdleTaskSupport.onTimerInterrupt.
    unfold TimerInterrupt.Preemptive.KeepRunningCurrentWithAnyQuantumUsedUpHandlerAndIdleTaskSupport.onTimerInterrupt.
    unfold getIdleTask, mbind, mret, Stateful_bind, Stateful_ret, idleTask.
    rewrite N.eqb_refl. simpl.
    destruct (PrioritizedMultiQueue.ArrayMapImp.next (policy mlfq)) as [nextTask queues].
    simpl. unfold or_idle, set_policy.
    by destruct (N.eqb_spec nextTask nullptr).
Qed.

(** C3 at a failing input.  The priority of the ready task at address 1
    has been raised above the priority of the running task at address 2,
    yet [onTaskPriorityChanged] returns the running task and leaves the
    other one queued (now at level 5): the handler compares the two
    pointers, and address 1 is not greater than address 2. *)
Lemma priority_change_compares_addresses :
  TaskPriorityChanged.Preemptive.Balance.onTaskPriorityChanged
    (self := ArrayMapImp_policy) (adjusting := ArrayMapImp_adjusting)
    2%N 1%N 2 priority_raised_world
  = Returns (2%N,
             mkWorld (tasks priority_raised_world)
               (<[5%nat := Some [1%N]]>
                  (<[2%nat := Some []]> (PrioritizedMultiQueue.ArrayMapImp.empty 9))))
  ∧ SimpleTask.priority <$> tasks priority_raised_world !! 1%N = Some 5
  ∧ SimpleTask.priority <$> tasks priority_raised_world !! 2%N = Some 3.
Proof. split_and!; vm_compute; reflexivity. Qed.

(** Whatever the priorities, a task whose address is not above the
    address of [current] never preempts it, and one whose address is above
    always does. *)
Lemma priority_change_follows_addresses
  {Task P} (self : Policy (World Task P))
  (adjusting : SupportsAdjustingTaskPriority (World Task P))
  (current task : TaskPtr) (oldPriority : Z) (w : World Task P) :
  TaskPriorityChanged.Preemptive.Balance.onTaskPriorityChanged current task oldPriority w
  = (adjustPosition task oldPriority ;;
     if (current <? task)%N then ready current ;; next else mret current) w.
Proof. reflexivity. Qed.

End HandlerFacts.

(** ** The multilevel feedback queue *)

Module FeedbackQueueFacts.

Import PrioritizedMultiQueue SampleSchedulers HandlerFacts MultiQueueFacts.

Lemma array_ready_returns {Task} `{PrioritizableByPriority Task}
  (memory : gmap N Task) task t (queues : ArrayMapImp.Queues) slot :
  task ≠ nullptr → memory !! task = Some t →
  queues !! Z.to_nat (getPriority t) = Some slot →
  ArrayMapImp.ready memory task queues
  = Returns (<[Z.to_nat (getPriority t) := Some (FIFO.ready task (slot_queue slot))]> queues).
Proof.
  intros Htask Ht Hslot. unfold ArrayMapImp.ready.
  rewrite (deref_lookup _ _ t) by done. simpl. rewrite Hslot. by destruct slot.
Qed.

(** [ready] of the multilevel feedback queue: the ticks of the task's
    level are allocated, then the task joins the queue of its level. *)
Lemma mlfq_ready_returns {Task} `{Quantizable Task} `{PrioritizableByPriority Task}
  (QuantumSpecifier : Z -> Outcome Z) (w : MultilevelFeedbackQueue.State Task)
  task t quantum slot :
  task ≠ nullptr → tasks w !! task = Some t →
  QuantumSpecifier (getPriority t) = Returns quantum →
  policy w !! Z.to_nat (getPriority (allocateTicks quantum t)) = Some slot →
  @ready _ (MultilevelFeedbackQueue.policy QuantumSpecifier) task w
  = Returns (tt, mkWorld (<[task := allocateTicks quantum t]> (tasks w))
                   (<[Z.to_nat (getPriority (allocateTicks quantum t))
                      := Some (FIFO.ready task (slot_queue slot))]> (policy w))).
Proof.
  intros Htask Ht Hq Hslot. simpl.
  unfold PriorityBasedTaskQuantumAllocator, read_task, call_task.
  unfold mbind, mret, Stateful_bind, Stateful_ret, Outcome_bind, Outcome_ret.
  rewrite (deref_lookup _ _ t) by done. rewrite Hq.
  rewrite (deref_lookup _ _ t) by done. simpl.
  rewrite (array_ready_returns _ task (allocateTicks quantum t) _ slot);
    [done | done | apply lookup_insert_eq | done].
Qed.

Lemma array_next_single (queues : ArrayMapImp.Queues) (level : nat) task :
  Forall idle_slot queues → task ≠ nullptr → (level < length queues)%nat →
  ArrayMapImp.next (<[level := Some [task]]> queues) = (task, <[level := Some []]> queues).
Proof.
  intros Hidle Htask Hlevel. unfold ArrayMapImp.next.
  rewrite !insert_take_drop by done.
  rewrite reverse_app, reverse_cons, <- app_assoc. simpl.
  rewrite scan_first_pending; [|by apply Forall_reverse, Forall_drop | done].
  by rewrite reverse_app, reverse_cons, <- app_assoc, !reverse_involutive.
Qed.


Lemma mlfq_next_returns {Task} `{Quantizable Task} `{PrioritizableByPriority Task}
  (QuantumSpecifier : Z -> Outcome Z) (w : MultilevelFeedbackQueue.State Task) :
  @next _ (MultilevelFeedbackQueue.policy QuantumSpecifier) w
  = Returns ((ArrayMapImp.next (policy w)).1,
             mkWorld (tasks w) (ArrayMapImp.next (policy w)).2).
Proof.
  simpl. unfold mbind, Outcome_bind. by destruct (ArrayMapImp.next (policy w)).
Qed.

Lemma wrap32_small z : 0 <= z <= UINT32_MAX → wrap32 z = z.
Proof. unfold wrap32, UINT32_MAX. intros Hz. apply Z.mod_small. lia. Qed.

(** One timer interrupt on the only runnable task of the multilevel
    feedback queue, [ticks] of its quantum being left. *)
Lemma mlfq_interrupt_lone_task (QuantumSpecifier : Z -> Outcome Z)
  (w : MultilevelFeedbackQueue.State SimpleTask.t)
  (current : TaskPtr) (identifier priority ticks quantum : Z) :
  current ≠ nullptr →
  tasks w !! current = Some (SimpleTask.mk identifier priority ticks) →
  1 <= ticks <= UINT32_MAX →
  1 <= priority <= UINT32_MAX →
  (Z.to_nat priority < length (policy w))%nat →
  Forall idle_slot (policy w) →
  QuantumSpecifier (Z.max 1 (priority - 1)) = Returns quantum →
  ∃ w',
    TimerInterrupt.Preemptive.KeepRunningCurrentWithAutoDemotionOnQuantumUsedUp.onTimerInterrupt
      (self := MultilevelFeedbackQueue.policy QuantumSpecifier) current w
    = Returns (current, w') ∧
    tasks w' !! current
    = Some (if ticks =? 1
            then SimpleTask.mk identifier (Z.max 1 (priority - 1)) quantum
            else SimpleTask.mk identifier priority (ticks - 1)) ∧
    Forall idle_slot (policy w') ∧
    length (policy w') = length (policy w).
Proof.
  intros Hc Ht Hticks Hp Hlen Hidle Hq.
  unfold TimerInterrupt.Preemptive.KeepRunningCurrentWithAutoDemotionOnQuantumUsedUp.onTimerInterrupt.
  unfold TimerInterrupt.Preemptive.KeepRunningCurrentWithAnyQuantumUsedUpHandler.onTimerInterrupt.
  rewrite (bind_returns _ _ _ _ _ (call_task_returns w current _ tick Hc Ht)).
  set (w1 := set_tasks _ w).
  assert (Ht1 : tasks w1 !! current = Some (SimpleTask.mk identifier priority (ticks - 1))).
  { unfold w1. simpl. rewrite lookup_insert_eq. by rewrite wrap32_small by lia. }
  rewrite (bind_returns _ _ _ _ _
             (read_task_returns w1 current _ hasUsedUpTimeAllotment Hc Ht1)).
  simpl. destruct (Z.eqb_spec ticks 1) as [->|Hne].
  - simpl.
    unfold onTaskQuantumUsedUp,
      TaskQuantumUsedUp.Preemptive.RunNextWithDemotion.onTaskQuantumUsedUp.
    rewrite (bind_returns _ _ _ _ _ (call_task_returns w1 current _ demote Hc Ht1)).
    set (w2 := set_tasks _ w1).
    set (priority' := Z.max 1 (priority - 1)).
    assert (Ht2 : tasks w2 !! current = Some (SimpleTask.mk identifier priority' 0)).
    { unfold w2. simpl. rewrite lookup_insert_eq. f_equal. simpl.
      unfold priority'. destruct (Z.gtb_spec priority 1).
      - rewrite wrap32_small by lia. f_equal. lia.
      - f_equal. lia. }
    assert (Hlevel : (Z.to_nat priority' < length (policy w2))%nat).
    { unfold priority'. simpl. lia. }
    destruct (lookup_lt_is_Some_2 _ _ Hlevel) as [slot Hslot].
    rewrite (bind_returns _ _ _ _ _
               (mlfq_ready_returns QuantumSpecifier w2 current _ quantum slot Hc Ht2 Hq Hslot)).
    assert (Hempty : slot_queue slot = []).
    { simpl in Hslot. rewrite Forall_lookup in Hidle.
      by destruct (Hidle _ _ Hslot) as [-> | ->]. }
    rewrite Hempty, mlfq_next_returns.
    change (FIFO.ready current []) with [current].
    cbn [policy tasks set_policy set_tasks].
    rewrite array_next_single by done.
    eexists. split; [reflexivity|]. cbn [policy tasks fst snd]. split_and!.
    + by rewrite lookup_insert_eq.
    + apply Forall_insert; [done | by right].
    + by rewrite length_insert.
  - assert ((ticks - 1 =? 0) = false) as -> by lia.
    eexists. split; [reflexivity|]. by split_and!.
Qed.

(** [k] interrupts on the only runnable task, [elapsed] ticks of the
    current quantum being used already. *)
Lemma mlfq_interrupts_lone_task (QuantumSpecifier : Z -> Outcome Z) (quantum : Z)
  (current : TaskPtr) (identifier : Z) (k : nat) :
  1 <= quantum <= UINT32_MAX →
  current ≠ nullptr →
  ∀ (w : MultilevelFeedbackQueue.State SimpleTask.t) (priority elapsed : Z),
    (∀ level, 1 <= level <= priority → QuantumSpecifier level = Returns quantum) →
    0 <= elapsed < quantum →
    tasks w !! current = Some (SimpleTask.mk identifier priority (quantum - elapsed)) →
    1 <= priority <= UINT32_MAX →
    (Z.to_nat priority < length (policy w))%nat →
    Forall idle_slot (policy w) →
    ∃ w',
      consecutive_interrupts
        (TimerInterrupt.Preemptive.KeepRunningCurrentWithAutoDemotionOnQuantumUsedUp.onTimerInterrupt
           (self := MultilevelFeedbackQueue.policy QuantumSpecifier)) k current w
      = Returns (tt, w') ∧
      tasks w' !! current
      = Some (SimpleTask.mk identifier
                (Z.max 1 (priority - (Z.of_nat k + elapsed) / quantum))
                (quantum - (Z.of_nat k + elapsed) mod quantum)).
Proof.
  intros Hq Hc. induction k as [|k IH]; intros w priority elapsed Hspec He Ht Hp Hlen Hidle.
  - exists w. split; [done|]. rewrite Ht. simpl.
    rewrite Z.div_small, Z.mod_small by lia. do 2 f_equal. lia.
  - assert (Hnext : QuantumSpecifier (Z.max 1 (priority - 1)) = Returns quantum)
      by (apply Hspec; lia).
    destruct (mlfq_interrupt_lone_task QuantumSpecifier w current identifier priority
                (quantum - elapsed) quantum Hc Ht ltac:(lia) Hp Hlen Hidle Hnext)
      as (w1 & Hstep & Ht1 & Hidle1 & Hlen1).
    cbn [consecutive_interrupts]. rewrite (bind_returns _ _ _ _ _ Hstep).
    rewrite N.eqb_refl. rewrite Nat2Z.inj_succ.
    destruct (Z.eqb_spec (quantum - elapsed) 1) as [Hlast|Hmore].
    + destruct (IH w1 (Z.max 1 (priority - 1)) 0) as (w' & Hrun & Ht');
        [intros level Hl; apply Hspec; lia | lia | by rewrite Z.sub_0_r | lia | lia | done |].
      exists w'. split; [done|]. rewrite Ht'. f_equal.
      replace (Z.succ (Z.of_nat k) + elapsed) with (Z.of_nat k + 1 * quantum) by lia.
      rewrite Z.add_0_r, Z.div_add, Z.mod_add by lia.
      pose proof (Z.div_pos (Z.of_nat k) quantum ltac:(lia) ltac:(lia)).
      f_equal. lia.
    + destruct (IH w1 priority (elapsed + 1)) as (w' & Hrun & Ht');
        [done | lia | rewrite Ht1; do 2 f_equal; lia | lia | lia | done |].
      exists w'. split; [done|]. rewrite Ht'.
      by replace (Z.succ (Z.of_nat k) + elapsed) with (Z.of_nat k + (elapsed + 1)) by lia.
Qed.

Lemma idle_support_agrees {Task P} `{Quantizable Task}
  `{PrioritizableByAutoMutablePriority Task}
  (self : Policy (World Task P)) (idle : SupportsIdleTask (World Task P))
  (current : TaskPtr) (w : World Task P) :
  current ≠ idleTask →
  TimerInterrupt.Preemptive.KeepRunningCurrentWithAutoDemotionOnQuantumUsedUpAndIdleTaskSupport.onTimerInterrupt
    current w
  = TimerInterrupt.Preemptive.KeepRunningCurrentWithAutoDemotionOnQuantumUsedUp.onTimerInterrupt
      current w.
Proof.
  intros Hidle.
  unfold TimerInterrupt.Preemptive.KeepRunningCurrentWithAutoDemotionOnQuantumUsedUpAndIdleTaskSupport.onTimerInterrupt.
  unfold TimerInterrupt.Preemptive.KeepRunningCurrentWithAnyQuantumUsedUpHandlerAndIdleTaskSupport.onTimerInterrupt.
  rewrite getIdleTask_bind.
  by destruct (N.eqb_spec current idleTask).
Qed.

Lemma consecutive_interrupts_ext {S} (handler handler' : TaskPtr -> Stateful S TaskPtr)
  (current : TaskPtr) (k : nat) (w : S) :
  (∀ w, handler current w = handler' current w) →
  consecutive_interrupts handler k current w = consecutive_interrupts handler' k current w.
Proof.
  intros Hext. revert w. induction k as [|k IH]; intros w; [done|].
  cbn [consecutive_interrupts]. unfold mbind, Stateful_bind. rewrite Hext.
  destruct (handler' current w) as [[running w']| |]; [|done..].
  destruct (running =? current)%N; [apply IH | done].
Qed.

(** C5, amended.  In the multilevel feedback queue with a quantum
    specifier that assigns the same quantum [q] (at least one tick) to
    every level from 1 to the initial one, a task that runs alone with a
    full quantum keeps the processor through any [k] consecutive timer
    interrupts, after which its priority is [max(1, initial - k / q)],
    level 1 being the floor of [demote], and its remaining ticks are
    [q - k mod q]: the counter is back at the specifier's quantum after
    each demotion.  This holds for the timer handler with automatic
    demotion, with and without idle task support. *)
Theorem uniform_quantum_demotes_once_per_quantum
  (QuantumSpecifier : Z -> Outcome Z) (quantum : Z) (idle : TaskPtr)
  (w : MultilevelFeedbackQueue.State SimpleTask.t)
  (current : TaskPtr) (identifier initial : Z) (k : nat) :
  1 <= quantum <= UINT32_MAX →
  (∀ level, 1 <= level <= initial → QuantumSpecifier level = Returns quantum) →
  current ≠ nullptr →
  current ≠ idle →
  tasks w !! current = Some (SimpleTask.mk identifier initial quantum) →
  1 <= initial <= UINT32_MAX →
  (Z.to_nat initial < length (policy w))%nat →
  Forall idle_slot (policy w) →
  (∃ w',
     consecutive_interrupts
       (MultilevelFeedbackQueue.onTimerInterrupt (idle := idle) QuantumSpecifier) k current w
     = Returns (tt, w') ∧
     tasks w' !! current
     = Some (SimpleTask.mk identifier
               (Z.max 1 (initial - Z.of_nat k / quantum))
               (quantum - Z.of_nat k mod quantum)))
  ∧
  (∃ w',
     consecutive_interrupts
       (TimerInterrupt.Preemptive.KeepRunningCurrentWithAutoDemotionOnQuantumUsedUp.onTimerInterrupt
          (self := MultilevelFeedbackQueue.policy QuantumSpecifier)) k current w
     = Returns (tt, w') ∧
     tasks w' !! current
     = Some (SimpleTask.mk identifier
               (Z.max 1 (initial - Z.of_nat k / quantum))
               (quantum - Z.of_nat k mod quantum))).
Proof.
  intros Hq Hspec Hc Hidle Ht Hp Hlen Hqueues.
  destruct (mlfq_interrupts_lone_task QuantumSpecifier quantum current identifier k Hq Hc
              w initial 0)
    as (w' & Hrun & Ht'); [done | lia | by rewrite Z.sub_0_r | done | done | done |].
  rewrite Z.add_0_r in Ht'.
  split; exists w'; (split; [|done]); [|done].
  rewrite <- Hrun. apply consecutive_interrupts_ext. intros w0.
  unfold MultilevelFeedbackQueue.onTimerInterrupt.
  by apply (idle_support_agrees _ (idle : SupportsIdleTask (MultilevelFeedbackQueue.State _))).
Qed.

Lemma uniform_quantum_demotes_once_per_quantum_witness :
  (∃ w',
     consecutive_interrupts
       (MultilevelFeedbackQueue.onTimerInterrupt (idle := 9%N) two_ticks_everywhere)
       5 3%N lone_running_task_world
     = Returns (tt, w') ∧
     tasks w' !! 3%N
     = Some (SimpleTask.mk 3 (Z.max 1 (3 - Z.of_nat 5 / 2)) (2 - Z.of_nat 5 mod 2)))
  ∧
  (∃ w',
     consecutive_interrupts
       (TimerInterrupt.Preemptive.KeepRunningCurrentWithAutoDemotionOnQuantumUsedUp.onTimerInterrupt
          (self := MultilevelFeedbackQueue.policy two_ticks_everywhere))
       5 3%N lone_running_task_world
     = Returns (tt, w') ∧
     tasks w' !! 3%N
     = Some (SimpleTask.mk 3 (Z.max 1 (3 - Z.of_nat 5 / 2)) (2 - Z.of_nat 5 mod 2))).
Proof.
  apply (uniform_quantum_demotes_once_per_quantum
           two_ticks_everywhere 2 9%N lone_running_task_world 3%N 3 3 5).
  - unfold UINT32_MAX. lia.
  - reflexivity.
  - done.
  - done.
  - reflexivity.
  - unfold UINT32_MAX. lia.
  - simpl. lia.
  - repeat constructor; by left.
Defined.

(** C5, as stated, fails in the sample configuration, whose quanta are 1,
    2 and [UINT32_MAX] ticks at the levels 3, 2 and 1: a task that starts
    at level 3 is at level 2 after one and after two interrupts and at
    level 1 after three, while [max(1, 3 - k / q)] is 1 at [k = 2] for the
    quantum of level 3, 3 at [k = 1] and 2 at [k = 3] for the quantum of
    level 2, and 3 at [k = 1] for the quantum of level 1. *)
Lemma sample_quanta_do_not_follow_the_formula :
  mlfq_priority_after 1 = Returns 2 ∧
  mlfq_priority_after 2 = Returns 2 ∧
  mlfq_priority_after 3 = Returns 1 ∧
  SimpleTask.QuantumSpecifier 3 = Returns 1 ∧ Z.max 1 (3 - 2 / 1) = 1 ∧
  SimpleTask.QuantumSpecifier 2 = Returns 2 ∧ Z.max 1 (3 - 1 / 2) = 3 ∧ Z.max 1 (3 - 3 / 2) = 2 ∧
  SimpleTask.QuantumSpecifier 1 = Returns UINT32_MAX ∧ Z.max 1 (3 - 1 / UINT32_MAX) = 3.
Proof. split_and!; vm_compute; reflexivity. Qed.

End FeedbackQueueFacts.

(** ** What the handlers with idle task support return *)

Module IdleTaskFacts.

Import PrioritizedMultiQueue SampleSchedulers HandlerFacts MultiQueueFacts FeedbackQueueFacts.


Lemma bind_assoc {S A B C} (m : Stateful S A) (k : A -> Stateful S B)
  (k' : B -> Stateful S C) (w : S) :
  ((m ≫= k) ≫= k') w = (m ≫= fun a => k a ≫= k') w.
Proof.
  unfold mbind, Stateful_bind. by destruct (m w) as [[a w']| |].
Qed.





Lemma creation_from_idle {Task P} `{AnyPrioritizable Task} (self : Policy (World Task P))
  (idle : SupportsIdleTask (World Task P)) (task : TaskPtr) (w : World Task P) :
  TaskCreation.Cooperative.KeepRunningCurrentWithIdleTaskSupport.onTaskCreated idleTask task w
  = Returns (task, w)
  ∧ TaskCreation.Preemptive.RunHigherPriorityWithIdleTaskSupport.onTaskCreated idleTask task w
    = Returns (task, w).
Proof.
  unfold TaskCreation.Cooperative.KeepRunningCurrentWithIdleTaskSupport.onTaskCreated,
    TaskCreation.Preemptive.RunHigherPriorityWithIdleTaskSupport.onTaskCreated.
  rewrite !getIdleTask_bind, N.eqb_refl. done.
Qed.

Lemma cooperative_creation_keeps_current {Task P} (self : Policy (World Task P))
  (idle : SupportsIdleTask (World Task P)) (current task : TaskPtr) (w w' : World Task P) :
  current ≠ idleTask →
  ready task w = Returns (tt, w') →
  TaskCreation.Cooperative.KeepRunningCurrentWithIdleTaskSupport.onTaskCreated current task w
  = Returns (current, w').
Proof.
  intros Hidle Hready.
  unfold TaskCreation.Cooperative.KeepRunningCurrentWithIdleTaskSupport.onTaskCreated.
  rewrite getIdleTask_bind. destruct (N.eqb_spec current idleTask); [done|].
  by rewrite (bind_returns _ _ _ _ _ Hready).
Qed.




















End IdleTaskFacts.

(** ** Yielding *)

Module YieldFacts.

Import PrioritizedMultiQueue HandlerFacts MultiQueueFacts FeedbackQueueFacts.

(** C8.  The yield handler enqueues [current] with [ready] and returns
    what [next] returns then, on every concrete scheduler.  On the FIFO
    policy that is the head of the queue extended by [current]; when the
    ready queue is empty at the call, the handler returns [current] itself
    and the queue is empty again, on the FIFO policy, on the prioritized
    single queue and on the prioritized multi-queue. *)
Theorem yield_returns_next_after_ready
  {Task P} `{PrioritizableByPriority Task} `{AnyPrioritizable Task}
  (self : Policy (World Task P)) (current : TaskPtr) (w : World Task P)
  (fifo : World Task FIFO.Queue)
  (single : World Task PrioritizedSingleQueue.LinkedListImp.Queue)
  (multi : World Task ArrayMapImp.Queues) :
  TaskYielding.Common.RunNext.onTaskYielded current w = (ready current ;; next) w
  ∧ TaskYielding.Common.RunNext.onTaskYielded (self := FIFO_policy) current fifo
    = Returns (hd current (policy fifo), set_policy (tl (policy fifo ++ [current])) fifo)
  ∧ (policy fifo = [] →
     TaskYielding.Common.RunNext.onTaskYielded (self := FIFO_policy) current fifo
     = Returns (current, fifo))
  ∧ (policy single = [] →
     TaskYielding.Common.RunNext.onTaskYielded (self := LinkedListImp_policy) current single
     = Returns (current, single))
  ∧ (∀ t,
       current ≠ nullptr →
       tasks multi !! current = Some t →
       (Z.to_nat (getPriority t) < length (policy multi))%nat →
       Forall idle_slot (policy multi) →
       TaskYielding.Common.RunNext.onTaskYielded (self := ArrayMapImp_policy) current multi
       = Returns (current,
                  set_policy (<[Z.to_nat (getPriority t) := Some []]> (policy multi)) multi)).
Proof.
  split_and!.
  - reflexivity.
  - apply FIFO_next_ready.
  - apply FIFO_next_ready_empty.
  - destruct single as [memory queue]. simpl. by intros ->.
  - intros t Hc Ht Hlen Hidle.
    unfold TaskYielding.Common.RunNext.onTaskYielded.
    destruct (lookup_lt_is_Some_2 _ _ Hlen) as [slot Hslot].
    assert (Hempty : slot_queue slot = []).
    { rewrite Forall_lookup in Hidle. by destruct (Hidle _ _ Hslot) as [-> | ->]. }
    simpl. unfold mbind, Stateful_bind, Outcome_bind.
    rewrite (array_ready_returns _ current t _ slot) by done.
    rewrite Hempty. change (FIFO.ready current []) with [current].
    cbn [policy set_policy tasks].
    by rewrite array_next_single.
Qed.

End YieldFacts.

(** ** First come, first served *)

Module FIFOFacts.

Lemma dequeue_all_fifo (queue : FIFO.Queue) :
  dequeue_all (fun q => Returns (FIFO.next q)) (length queue) queue = Returns (queue, []).
Proof.
  induction queue as [|task rest IH]; [done|].
  cbn [length dequeue_all FIFO.next]. cbn [mbind Outcome_bind]. by rewrite IH.
Qed.

Lemma ready_all_fifo (arrivals : list TaskPtr) (queue : FIFO.Queue) :
  ready_all (fun task q => Returns (FIFO.ready task q)) arrivals queue
  = Returns (queue ++ arrivals).
Proof.
  revert queue. induction arrivals as [|task rest IH]; intros queue; simpl.
  - by rewrite app_nil_r.
  - rewrite IH. unfold FIFO.ready. by rewrite <- app_assoc.
Qed.

(** The queue of [StlQueueImp] is first in, first out: tasks made ready
    one after the other join the queue behind the tasks that wait
    already, as many calls of [next] as there are tasks return them in
    that order and leave the queue empty, and [next] on the empty queue
    returns null and leaves it empty. *)
Theorem stl_queue_first_in_first_out (arrivals : list TaskPtr) (queue : FIFO.Queue) :
  (queue' ← ready_all (fun task q => Returns (FIFO.ready task q)) arrivals queue;
   dequeue_all (fun q => Returns (FIFO.next q)) (length queue + length arrivals) queue')
  = Returns (queue ++ arrivals, [])
  ∧ FIFO.next [] = (nullptr, []).
Proof.
  split; [|done]. rewrite ready_all_fifo. cbn [mbind Outcome_bind].
  rewrite <- length_app. apply dequeue_all_fifo.
Qed.

End FIFOFacts.

(** ** The order in which the prioritized multi-queue hands out tasks *)

Module ServiceOrderFacts.

Import PrioritizedMultiQueue MultiQueueFacts.

Lemma concat_all_nil {A} (lists : list (list A)) :
  Forall (fun l => l = []) lists → concat lists = [].
Proof. induction 1 as [|l lists -> _ IH]; [done|]. by simpl. Qed.

Lemma elem_of_concat {A} (x : A) (lists : list (list A)) :
  x ∈ concat lists → ∃ l, x ∈ l ∧ l ∈ lists.
Proof.
  induction lists as [|l lists IH]; simpl; [by intros ?%elem_of_nil|].
  intros [Hin | Hin]%elem_of_app.
  - exists l. split; [done | constructor].
  - destruct (IH Hin) as (l' & ? & ?). exists l'. split; [done | by right].
Qed.

Lemma pending_idle (queues : ArrayMapImp.Queues) :
  Forall idle_slot queues → pending queues = [].
Proof.
  intros Hidle. unfold pending. apply concat_all_nil.
  apply Forall_reverse, Forall_fmap. eapply Forall_impl; [exact Hidle|].
  by intros slot [-> | ->].
Qed.

Lemma pending_split (queues : ArrayMapImp.Queues) (level : nat) slot :
  queues !! level = Some slot →
  pending queues
  = concat (reverse (slot_queue <$> drop (S level) queues))
    ++ slot_queue slot
    ++ concat (reverse (slot_queue <$> take level queues)).
Proof.
  intros Hl. unfold pending.
  rewrite <- (take_drop_middle queues level slot Hl) at 1.
  rewrite fmap_app, fmap_cons, reverse_app, reverse_cons, concat_app, concat_app.
  simpl. by rewrite app_nil_r, <- app_assoc.
Qed.

Lemma pending_insert (queues : ArrayMapImp.Queues) (level : nat) slot :
  (level < length queues)%nat →
  pending (<[level := slot]> queues)
  = concat (reverse (slot_queue <$> drop (S level) queues))
    ++ slot_queue slot
    ++ concat (reverse (slot_queue <$> take level queues)).
Proof.
  intros Hlen.
  rewrite (pending_split (<[level := slot]> queues) level slot)
    by (by apply list_lookup_insert_eq).
  by rewrite drop_insert_lt, take_insert_ge by lia.
Qed.

(** [next] takes the first of the pending tasks, or finds none pending. *)
Lemma pending_next (queues : ArrayMapImp.Queues) :
  array_well_formed queues →
  (pending queues = [] ∧ ArrayMapImp.next queues = (nullptr, queues)) ∨
  (∃ task queues',
      ArrayMapImp.next queues = (task, queues') ∧ task ≠ nullptr ∧
      pending queues = task :: pending queues' ∧
      array_well_formed queues' ∧ length queues' = length queues).
Proof.
  intros Hwf.
  destruct (array_next_cases queues Hwf)
    as [[Hidle Hnext] | (level & task & rest & Hl & Htask & Hhigher & Hnext)].
  - left. split; [by apply pending_idle | done].
  - right. exists task, (<[level := Some rest]> queues).
    assert (Hlen : (level < length queues)%nat) by (by eapply lookup_lt_Some).
    assert (Hhigh : concat (reverse (slot_queue <$> drop (S level) queues)) = []).
    { apply concat_all_nil, Forall_reverse, Forall_fmap, Forall_lookup.
      intros i slot Hi. rewrite lookup_drop in Hi. simpl.
      destruct slot as [queue|]; [|done]. apply (Hhigher (S level + i)%nat); [lia | done]. }
    split_and!; [done | done | | | by rewrite length_insert].
    + rewrite (pending_split queues level _ Hl), pending_insert by done.
      by rewrite Hhigh.
    + intros level' queue Hl'.
      destruct (decide (level' = level)) as [->|Hne].
      * rewrite list_lookup_insert_eq in Hl' by done. injection Hl' as <-.
        intros Hin. apply (Hwf _ _ Hl). by right.
      * rewrite list_lookup_insert_ne in Hl' by done. by apply (Hwf level').
Qed.

(** As many calls of [next] as tasks are pending return them all, in
    their order, and leave no task pending. *)
Lemma dequeue_all_pending (n : nat) (queues : ArrayMapImp.Queues) :
  array_well_formed queues →
  length (pending queues) = n →
  ∃ queues',
    dequeue_all (fun q => Returns (ArrayMapImp.next q)) n queues
    = Returns (pending queues, queues') ∧
    pending queues' = [] ∧
    ArrayMapImp.next queues' = (nullptr, queues').
Proof.
  revert queues. induction n as [|n IH]; intros queues Hwf Hlen.
  - apply length_zero_iff_nil in Hlen.
    destruct (pending_next queues Hwf)
      as [[_ Hnext] | (task & queues' & _ & _ & Hp & _)]; [|congruence].
    exists queues. by rewrite Hlen.
  - destruct (pending_next queues Hwf)
      as [[Hp _] | (task & queues' & Hnext & Htask & Hp & Hwf' & _)].
    { rewrite Hp in Hlen. done. }
    rewrite Hp in Hlen. injection Hlen as Hlen.
    destruct (IH queues' Hwf' Hlen) as (queues'' & Hrest & Hnone & Hnull).
    exists queues''. cbn [dequeue_all mbind Outcome_bind].
    rewrite Hnext, Hrest. cbn [mbind Outcome_bind]. by rewrite Hp.
Qed.

(** [ready] puts the task behind the tasks of its level and touches no
    other level. *)
Lemma ready_arrival {Task} `{PrioritizableByPriority Task}
  (memory : gmap N Task) (task : TaskPtr) (served : list TaskPtr)
  (queues queues' : ArrayMapImp.Queues) :
  slot_queue <$> queues = arrivals_at memory served <$> seq 0 (length queues) →
  ArrayMapImp.ready memory task queues = Returns queues' →
  length queues' = length queues ∧
  slot_queue <$> queues' = arrivals_at memory (served ++ [task]) <$> seq 0 (length queues).
Proof.
  unfold ArrayMapImp.ready, deref. intros Hinv Hready.
  destruct (N.eqb_spec task nullptr) as [|Htask]; [done|].
  destruct (memory !! task) as [t|] eqn:Ht; [|done]. simpl in Hready.
  destruct (queues !! Z.to_nat (getPriority t)) as [slot|] eqn:Hslot; [|done].
  injection Hready as <-. split; [by rewrite length_insert|].
  assert (Hlevel : level_of memory task = Z.to_nat (getPriority t))
    by (unfold level_of; by rewrite Ht).
  assert (Hlen : (Z.to_nat (getPriority t) < length queues)%nat)
    by (by eapply lookup_lt_Some).
  rewrite list_fmap_insert, Hinv. apply list_eq. intros level.
  assert (Hold : slot_queue slot = arrivals_at memory served (Z.to_nat (getPriority t))).
  { assert (Hat : (slot_queue <$> queues) !! Z.to_nat (getPriority t)
                  = Some (slot_queue slot)) by (by rewrite list_lookup_fmap, Hslot).
    rewrite Hinv, list_lookup_fmap, lookup_seq_lt in Hat by done.
    by injection Hat. }
  destruct (decide (level = Z.to_nat (getPriority t))) as [->|Hne].
  - rewrite list_lookup_insert_eq by (by rewrite length_fmap, length_seq).
    rewrite list_lookup_fmap, lookup_seq_lt by done. simpl. f_equal.
    change (match slot with Some queue => queue | None => [] end) with (slot_queue slot).
    rewrite Hold. unfold arrivals_at, FIFO.ready. rewrite filter_app. f_equal.
    by rewrite filter_cons_True by done.
  - rewrite list_lookup_insert_ne by done. rewrite !list_lookup_fmap.
    destruct (seq 0 (length queues) !! level) as [i|] eqn:Hi; [|done]. simpl. f_equal.
    apply lookup_seq in Hi as [-> _]. simpl in *.
    unfold arrivals_at. rewrite filter_app, filter_cons_False, app_nil_r; [done|].
    rewrite Hlevel. congruence.
Qed.

Lemma ready_all_arrivals {Task} `{PrioritizableByPriority Task}
  (memory : gmap N Task) (arrivals served : list TaskPtr) (queues : ArrayMapImp.Queues) :
  Forall (fun task => task ≠ nullptr ∧ is_Some (memory !! task) ∧
                      (level_of memory task < length queues)%nat) arrivals →
  array_well_formed queues →
  slot_queue <$> queues = arrivals_at memory served <$> seq 0 (length queues) →
  ∃ queues',
    ready_all (ArrayMapImp.ready memory) arrivals queues = Returns queues' ∧
    array_well_formed queues' ∧
    length queues' = length queues ∧
    slot_queue <$> queues'
    = arrivals_at memory (served ++ arrivals) <$> seq 0 (length queues).
Proof.
  revert served queues.
  induction arrivals as [|task arrivals IH]; intros served queues Hall Hwf Hinv.
  - exists queues. by rewrite app_nil_r.
  - apply Forall_cons in Hall as [(Htask & [t Ht] & Hlevel) Hall].
    unfold level_of in Hlevel. rewrite Ht in Hlevel.
    destruct (lookup_lt_is_Some_2 _ _ Hlevel) as [slot Hslot].
    assert (Hready : ArrayMapImp.ready memory task queues
                     = Returns (<[Z.to_nat (getPriority t)
                                  := Some (FIFO.ready task (slot_queue slot))]> queues)).
    { unfold ArrayMapImp.ready, deref.
      destruct (N.eqb_spec task nullptr); [done|]. rewrite Ht. simpl.
      rewrite Hslot. by destruct slot. }
    set (queues1 := <[Z.to_nat (getPriority t)
                      := Some (FIFO.ready task (slot_queue slot))]> queues) in *.
    destruct (ready_arrival memory task served _ _ Hinv Hready) as [Hlen Hinv'].
    destruct (IH (served ++ [task]) queues1) as (queues' & Hrest & Hwf' & Hlen' & Hfinal).
    + eapply Forall_impl; [exact Hall|]. intros p (? & ? & ?). by rewrite Hlen.
    + by eapply array_ready_well_formed.
    + by rewrite Hlen.
    + exists queues'. cbn [ready_all mbind Outcome_bind]. rewrite Hready.
      cbn [mbind Outcome_bind]. rewrite Hrest. split_and!; [done | done | congruence |].
      rewrite Hfinal, Hlen, <- app_assoc. done.
Qed.

Lemma arrivals_at_cons {Task} `{PrioritizableByPriority Task}
  (memory : gmap N Task) (task : TaskPtr) (arrivals : list TaskPtr) (levels : list nat) :
  NoDup levels →
  concat (arrivals_at memory (task :: arrivals) <$> levels)
  ≡ₚ (if decide (level_of memory task ∈ levels) then [task] else [])
     ++ concat (arrivals_at memory arrivals <$> levels).
Proof.
  induction 1 as [|level levels Hnotin Hnodup IH]; [done|].
  cbn [fmap list_fmap concat]. rewrite IH. unfold arrivals_at at 1.
  destruct (decide (level_of memory task = level)) as [<-|Hne].
  - rewrite filter_cons_True by done.
    rewrite decide_False by done. rewrite decide_True by constructor. done.
  - rewrite filter_cons_False by done. fold (arrivals_at memory arrivals level).
    destruct (decide (level_of memory task ∈ levels)) as [Hin|Hout].
    + rewrite decide_True by (by right). simpl. by rewrite Permutation_middle.
    + rewrite decide_False; [done|]. intros Hin. apply elem_of_cons in Hin as [?|?]; done.
Qed.

(** Every arrival whose level exists is served once. *)
Lemma by_descending_level_permutation {Task} `{PrioritizableByPriority Task}
  (memory : gmap N Task) (levels : nat) (arrivals : list TaskPtr) :
  Forall (fun task => (level_of memory task < levels)%nat) arrivals →
  by_descending_level memory levels arrivals ≡ₚ arrivals.
Proof.
  unfold by_descending_level. induction 1 as [|task arrivals Hlevel _ IH].
  - rewrite concat_all_nil; [done|].
    apply Forall_fmap, Forall_forall. by intros level _.
  - rewrite arrivals_at_cons by (rewrite reverse_Permutation; apply NoDup_seq).
    rewrite decide_True; [simpl; by rewrite IH|].
    apply elem_of_reverse, elem_of_seq. lia.
Qed.

Lemma descending_levels (levels : nat) :
  StronglySorted (fun a b => (b < a)%nat) (reverse (seq 0 levels)).
Proof.
  induction levels as [|levels IH]; [constructor|].
  rewrite seq_S, reverse_app. simpl. constructor; [done|].
  apply Forall_forall. intros level Hin.
  apply elem_of_reverse, elem_of_seq in Hin. lia.
Qed.

Lemma arrivals_at_sorted {Task} `{PrioritizableByPriority Task}
  (memory : gmap N Task) (arrivals : list TaskPtr) (level : nat) :
  StronglySorted (fun a b => (level_of memory b <= level_of memory a)%nat)
    (arrivals_at memory arrivals level).
Proof.
  unfold arrivals_at. induction arrivals as [|task arrivals IH]; [constructor|].
  destruct (decide (level_of memory task = level)) as [Heq|Hne].
  - rewrite filter_cons_True by done. constructor; [done|].
    apply Forall_forall. intros b Hb. apply list_elem_of_filter in Hb as [-> _]. lia.
  - by rewrite filter_cons_False.
Qed.

(** No task is served before a task of a higher level. *)
Lemma by_descending_level_sorted {Task} `{PrioritizableByPriority Task}
  (memory : gmap N Task) (levels : nat) (arrivals : list TaskPtr) :
  StronglySorted (fun a b => (level_of memory b <= level_of memory a)%nat)
    (by_descending_level memory levels arrivals).
Proof.
  unfold by_descending_level.
  induction (descending_levels levels) as [|level rest _ IH Hlower]; [constructor|].
  cbn [fmap list_fmap concat]. apply StronglySorted_app. split_and!; [| |done].
  - intros a b Ha Hb. unfold arrivals_at in Ha. apply list_elem_of_filter in Ha as [-> _].
    apply elem_of_concat in Hb as (group & Hb & Hgroup).
    apply list_elem_of_fmap in Hgroup as (level' & -> & Hlevel').
    unfold arrivals_at in Hb. apply list_elem_of_filter in Hb as [-> _].
    rewrite Forall_forall in Hlower. specialize (Hlower _ Hlevel'). lia.
  - apply arrivals_at_sorted.
Qed.

(** Tasks made ready one after the other in a prioritized multi-queue
    with the levels 0 to [MaxPriorityLevel] are handed out by as many
    calls of [next] highest level first and, within a level, first come
    first served: every task once, none before a task of a higher level;
    the call of [next] after the last task returns null. *)
Theorem multi_queue_serves_by_level_then_arrival
  {Task} `{PrioritizableByPriority Task}
  (memory : gmap N Task) (MaxPriorityLevel : nat) (arrivals : list TaskPtr) :
  Forall (fun task => task ≠ nullptr ∧ is_Some (memory !! task) ∧
                      (level_of memory task <= MaxPriorityLevel)%nat) arrivals →
  ∃ queues queues',
    ready_all (ArrayMapImp.ready memory) arrivals (ArrayMapImp.empty MaxPriorityLevel)
    = Returns queues ∧
    dequeue_all (fun q => Returns (ArrayMapImp.next q)) (length arrivals) queues
    = Returns (by_descending_level memory (S MaxPriorityLevel) arrivals, queues') ∧
    ArrayMapImp.next queues' = (nullptr, queues') ∧
    by_descending_level memory (S MaxPriorityLevel) arrivals ≡ₚ arrivals ∧
    StronglySorted (fun a b => (level_of memory b <= level_of memory a)%nat)
      (by_descending_level memory (S MaxPriorityLevel) arrivals).
Proof.
  intros Hall.
  assert (Hlen0 : length (ArrayMapImp.empty MaxPriorityLevel) = S MaxPriorityLevel)
    by apply length_replicate.
  destruct (ready_all_arrivals memory arrivals [] (ArrayMapImp.empty MaxPriorityLevel))
    as (queues & Hready & Hwf & Hlen & Hinv).
  { eapply Forall_impl; [exact Hall|]. intros task (? & ? & ?). rewrite Hlen0.
    split_and!; [done | done | lia]. }
  { apply array_empty_well_formed. }
  { rewrite Hlen0. unfold ArrayMapImp.empty. apply list_eq. intros level.
    rewrite !list_lookup_fmap.
    destruct (decide (level < S MaxPriorityLevel)%nat).
    - rewrite lookup_replicate_2, lookup_seq_lt by done. done.
    - rewrite (proj1 (lookup_replicate_None _ _ _)), lookup_seq_ge by lia. done. }
  assert (Hperm : by_descending_level memory (S MaxPriorityLevel) arrivals ≡ₚ arrivals).
  { apply by_descending_level_permutation.
    eapply Forall_impl; [exact Hall|]. intros task (? & ? & ?). simpl in *. lia. }
  assert (Hpending : pending queues
                     = by_descending_level memory (S MaxPriorityLevel) arrivals).
  { unfold pending, by_descending_level. by rewrite Hinv, Hlen0, fmap_reverse. }
  destruct (dequeue_all_pending (length arrivals) queues Hwf)
    as (queues' & Hdrain & _ & Hnull).
  { by rewrite Hpending, Hperm. }
  exists queues, queues'. rewrite <- Hpending at 1.
  split_and!; [done | done | done | done | apply by_descending_level_sorted].
Qed.

Lemma multi_queue_serves_by_level_then_arrival_witness :
  ∃ queues queues',
    ready_all (ArrayMapImp.ready (tasks priority_raised_world)) [2%N; 1%N]
      (ArrayMapImp.empty 9)
    = Returns queues ∧
    dequeue_all (fun q => Returns (ArrayMapImp.next q)) (length [2%N; 1%N]) queues
    = Returns (by_descending_level (tasks priority_raised_world) 10 [2%N; 1%N], queues') ∧
    ArrayMapImp.next queues' = (nullptr, queues') ∧
    by_descending_level (tasks priority_raised_world) 10 [2%N; 1%N] ≡ₚ [2%N; 1%N] ∧
    StronglySorted
      (fun a b => (level_of (tasks priority_raised_world) b
                   <= level_of (tasks priority_raised_world) a)%nat)
      (by_descending_level (tasks priority_raised_world) 10 [2%N; 1%N]).
Proof.
  apply (multi_queue_serves_by_level_then_arrival (tasks priority_raised_world) 9
           [2%N; 1%N]).
  repeat constructor; try done; try (by eexists); vm_compute; lia.
Defined.

End ServiceOrderFacts.

(** ** Policies stored by value and policies created on demand *)

Module HomogeneousFacts.

Import PrioritizedMultiQueue.

Lemma scan_materialize {Task} (slots : list (option FIFO.Queue)) :
  ArrayMapHomoImp.scan (sub := StlQueueImp_sub (Task := Task)) (slot_queue <$> slots)
  = Returns ((ArrayMapImp.scan slots).1, slot_queue <$> (ArrayMapImp.scan slots).2).
Proof.
  induction slots as [|[[|task rest]|] slots IH]; [done|..].
  - cbn [fmap list_fmap slot_queue ArrayMapHomoImp.scan ArrayMapImp.scan].
    cbn [sub_next StlQueueImp_sub FIFO.next mbind Outcome_bind].
    rewrite N.eqb_refl. fold (fmap (M := list) slot_queue slots). rewrite IH.
    by destruct (ArrayMapImp.scan slots).
  - cbn [fmap list_fmap slot_queue ArrayMapHomoImp.scan ArrayMapImp.scan].
    cbn [sub_next StlQueueImp_sub FIFO.next mbind Outcome_bind].
    fold (fmap (M := list) slot_queue slots).
    destruct (task =? nullptr)%N; [|done]. rewrite IH.
    by destruct (ArrayMapImp.scan slots).
  - cbn [fmap list_fmap slot_queue ArrayMapHomoImp.scan ArrayMapImp.scan].
    cbn [sub_next StlQueueImp_sub FIFO.next mbind Outcome_bind].
    rewrite N.eqb_refl. fold (fmap (M := list) slot_queue slots). rewrite IH.
    by destruct (ArrayMapImp.scan slots).
Qed.

(** The array map whose policies are created on the first [ready] of a
    level behaves like the array map that stores a FIFO queue for every
    level from the start: the two start alike, and [next] and [ready]
    return the same results and keep the two alike, null slots standing
    for empty queues. *)
Theorem array_map_is_homogeneous_array_map
  {Task} `{PrioritizableByPriority Task}
  (memory : gmap N Task) (task : TaskPtr) (MaxPriorityLevel : nat)
  (queues : ArrayMapImp.Queues) :
  ArrayMapHomoImp.empty (sub := StlQueueImp_sub (Task := Task)) MaxPriorityLevel
  = materialize (ArrayMapImp.empty MaxPriorityLevel)
  ∧ ArrayMapHomoImp.next (sub := StlQueueImp_sub (Task := Task)) (materialize queues)
    = Returns ((ArrayMapImp.next queues).1, materialize (ArrayMapImp.next queues).2)
  ∧ ArrayMapHomoImp.ready (sub := StlQueueImp_sub) memory task (materialize queues)
    = (queues' ← ArrayMapImp.ready memory task queues; Returns (materialize queues')).
Proof.
  unfold materialize. split_and!.
  - unfold ArrayMapHomoImp.empty, ArrayMapImp.empty. by rewrite fmap_replicate.
  - unfold ArrayMapHomoImp.next, ArrayMapImp.next.
    rewrite <- fmap_reverse, scan_materialize. cbn [mbind Outcome_bind].
    destruct (ArrayMapImp.scan (reverse queues)) as [found slots]. simpl.
    by rewrite fmap_reverse.
  - unfold ArrayMapHomoImp.ready, ArrayMapImp.ready.
    destruct (deref memory task) as [t| |]; [|done..]. cbn [mbind Outcome_bind].
    rewrite list_lookup_fmap.
    destruct (queues !! Z.to_nat (getPriority t)) as [slot|]; [|done].
    cbn [fmap option_fmap option_map sub_ready StlQueueImp_sub mbind Outcome_bind].
    rewrite list_fmap_insert. by destruct slot.
Qed.

Lemma find_materialize (priority : Z) (queues : StlMapImp.Queues) :
  StlMapHomoImp.find priority (materialize_map queues)
  = slot_queue <$> StlMapImp.find priority queues.
Proof.
  induction queues as [|[k v] queues IH]; [done|]. simpl.
  by destruct (k =? priority).
Qed.

Lemma assign_materialize (priority : Z) (value : option FIFO.Queue)
  (queues : StlMapImp.Queues) :
  StlMapHomoImp.assign priority (slot_queue value) (materialize_map queues)
  = materialize_map (StlMapImp.assign priority value queues).
Proof.
  induction queues as [|[k v] queues IH]; [done|]. simpl.
  destruct (k =? priority); [done|]. destruct (priority >? k); [done|].
  unfold materialize_map in *. by rewrite IH.
Qed.

Lemma map_next_materialize {Task} (queues : StlMapImp.Queues) :
  Forall (fun entry => entry.2 ≠ None) queues →
  StlMapHomoImp.next (sub := StlQueueImp_sub (Task := Task)) (materialize_map queues)
  = ('(found, queues') ← StlMapImp.next queues; Returns (found, materialize_map queues'))
  ∧ ∀ found queues',
      StlMapImp.next queues = Returns (found, queues') →
      Forall (fun entry => entry.2 ≠ None) queues'.
Proof.
  induction 1 as [|[k [queue|]] queues Hk Hentries [IHnext IHkeep]]; [| |done].
  { split; [done|]. intros found queues' [= _ <-]. constructor. }
  split.
  - cbn [materialize_map fmap list_fmap fst snd slot_queue StlMapHomoImp.next StlMapImp.next].
    cbn [sub_next StlQueueImp_sub mbind Outcome_bind].
    destruct (FIFO.next queue) as [next_task queue'].
    destruct (next_task =? nullptr)%N; [|done].
    fold (materialize_map queues). rewrite IHnext.
    destruct (StlMapImp.next queues) as [[found rest']| |]; done.
  - intros found queues'. cbn [StlMapImp.next].
    destruct (FIFO.next queue) as [next_task queue'].
    destruct (next_task =? nullptr)%N.
    + destruct (StlMapImp.next queues) as [[found' rest']| |] eqn:Hrest; [|done..].
      cbn [mbind Outcome_bind mret Outcome_ret]. intros [= _ <-].
      constructor; [done|]. by eapply IHkeep.
    + intros [= _ <-]. by constructor.
Qed.

(** The ordered map whose policies are created on the first [ready] of a
    level behaves like the ordered map that stores FIFO queues by value:
    [ready] returns the same results on the two, and so does [next] on a
    map without null entries, which is what [ready] and [next] leave. *)
Theorem stl_map_is_homogeneous_stl_map
  {Task} `{PrioritizableByPriority Task}
  (memory : gmap N Task) (task : TaskPtr) (queues : StlMapImp.Queues) :
  Forall (fun entry => entry.2 ≠ None) queues →
  StlMapHomoImp.next (sub := StlQueueImp_sub (Task := Task)) (materialize_map queues)
  = ('(found, queues') ← StlMapImp.next queues; Returns (found, materialize_map queues'))
  ∧ StlMapHomoImp.ready (sub := StlQueueImp_sub) memory task (materialize_map queues)
    = (queues' ← StlMapImp.ready memory task queues; Returns (materialize_map queues'))
  ∧ (∀ found queues',
       StlMapImp.next queues = Returns (found, queues') →
       Forall (fun entry => entry.2 ≠ None) queues')
  ∧ (∀ queues',
       StlMapImp.ready memory task queues = Returns queues' →
       Forall (fun entry => entry.2 ≠ None) queues').
Proof.
  intros Hentries.
  destruct (map_next_materialize (Task := Task) queues Hentries) as [Hnext Hkeep].
  split_and!; [done | | done |].
  - unfold StlMapHomoImp.ready, StlMapImp.ready.
    destruct (deref memory task) as [t| |]; [|done..]. cbn [mbind Outcome_bind].
    rewrite find_materialize.
    cbn [sub_ready sub_empty StlQueueImp_sub mbind Outcome_bind].
    rewrite <- assign_materialize. simpl.
    by destruct (StlMapImp.find (getPriority t) queues) as [[queue|]|].
  - unfold StlMapImp.ready. intros queues'.
    destruct (deref memory task) as [t| |]; [|done..]. cbn [mbind Outcome_bind].
    intros [= <-]. apply Forall_forall. intros [level slot] Hin.
    destruct (MultiQueueFacts.assign_elem_of _ _ _ _ _ Hin) as [[= _ ->] | Hin']; [done|].
    rewrite Forall_forall in Hentries. apply (Hentries _ Hin').
Qed.

Lemma stl_map_is_homogeneous_stl_map_witness :
  StlMapHomoImp.next (sub := StlQueueImp_sub (Task := SimpleTask.t))
    (materialize_map [(3, Some []); (1, Some [2%N])])
  = ('(found, queues') ← StlMapImp.next [(3, Some []); (1, Some [2%N])];
     Returns (found, materialize_map queues'))
  ∧ StlMapHomoImp.ready (sub := StlQueueImp_sub) four_equal_tasks 4%N
      (materialize_map [(3, Some []); (1, Some [2%N])])
    = (queues' ← StlMapImp.ready four_equal_tasks 4%N [(3, Some []); (1, Some [2%N])];
       Returns (materialize_map queues'))
  ∧ (∀ found queues',
       StlMapImp.next [(3, Some []); (1, Some [2%N])] = Returns (found, queues') →
       Forall (fun entry => entry.2 ≠ None) queues')
  ∧ (∀ queues',
       StlMapImp.ready four_equal_tasks 4%N [(3, Some []); (1, Some [2%N])]
       = Returns queues' →
       Forall (fun entry => entry.2 ≠ None) queues').
Proof.
  apply (stl_map_is_homogeneous_stl_map four_equal_tasks 4%N
           [(3, Some []); (1, Some [2%N])]).
  by repeat constructor.
Defined.

End HomogeneousFacts.

(** ** The array map and the ordered map are interchangeable *)

Module InterchangeFacts.

Import PrioritizedMultiQueue MultiQueueFacts.

Lemma find_assign (level priority : Z) value (queues : StlMapImp.Queues) :
  StlMapImp.find level (StlMapImp.assign priority value queues)
  = if level =? priority then Some value else StlMapImp.find level queues.
Proof.
  induction queues as [|[k v] queues IH]; simpl.
  - rewrite (Z.eqb_sym priority level). by destruct (level =? priority).
  - destruct (Z.eqb_spec k priority) as [->|Hne]; simpl.
    + rewrite (Z.eqb_sym priority level). by destruct (level =? priority).
    + destruct (priority >? k); simpl.
      * rewrite (Z.eqb_sym priority level). by destruct (level =? priority).
      * destruct (Z.eqb_spec k level) as [->|Hne'].
        -- by destruct (Z.eqb_spec level priority).
        -- apply IH.
Qed.

Lemma elem_of_find (level : Z) slot (queues : StlMapImp.Queues) :
  StronglySorted (fun a b => b.1 < a.1) queues →
  (level, slot) ∈ queues → StlMapImp.find level queues = Some slot.
Proof.
  induction 1 as [|[k v] queues _ IH Hlower]; [by intros ?%elem_of_nil|].
  intros [[= -> ->] | Hin]%elem_of_cons; simpl.
  - by rewrite Z.eqb_refl.
  - rewrite Forall_forall in Hlower. specialize (Hlower _ Hin). simpl in Hlower.
    destruct (Z.eqb_spec k level); [lia | by apply IH].
Qed.

Lemma array_level_of_nat (queues : ArrayMapImp.Queues) (level : nat) slot :
  queues !! level = Some slot → array_level queues (Z.of_nat level) = slot_queue slot.
Proof.
  intros Hl. unfold array_level.
  destruct (Z.ltb_spec (Z.of_nat level) 0); [lia|]. by rewrite Nat2Z.id, Hl.
Qed.

Lemma array_level_pending (queues : ArrayMapImp.Queues) (level : Z) task rest :
  array_level queues level = task :: rest →
  0 <= level ∧ queues !! Z.to_nat level = Some (Some (task :: rest)).
Proof.
  unfold array_level. destruct (Z.ltb_spec level 0); [done|].
  destruct (queues !! Z.to_nat level) as [[queue|]|]; [|done..].
  simpl. by intros ->.
Qed.

Lemma map_level_pending (queues : StlMapImp.Queues) (level : Z) task rest :
  map_level queues level = task :: rest →
  (level, Some (task :: rest)) ∈ queues.
Proof.
  unfold map_level.
  destruct (StlMapImp.find level queues) as [[queue|]|] eqn:Hfind; [|done..].
  simpl. intros ->. by apply find_elem_of.
Qed.

Lemma same_levels_update (array : ArrayMapImp.Queues) (map : StlMapImp.Queues)
  (level : nat) (queue : FIFO.Queue) :
  (level < length array)%nat →
  same_levels array map →
  same_levels (<[level := Some queue]> array)
              (StlMapImp.assign (Z.of_nat level) (Some queue) map).
Proof.
  intros Hlen Hsame other. unfold map_level. rewrite find_assign.
  destruct (Z.eqb_spec other (Z.of_nat level)) as [->|Hne].
  - rewrite (array_level_of_nat _ level (Some queue)); [done|].
    by apply list_lookup_insert_eq.
  - fold (map_level map other). rewrite <- Hsame. unfold array_level.
    destruct (Z.ltb_spec other 0); [done|].
    rewrite list_lookup_insert_ne by lia. done.
Qed.

(** [next] and [ready] on an array map and an ordered map that hold the
    same tasks. *)
Lemma next_and_ready_agree
  {Task} `{PrioritizableByPriority Task}
  (memory : gmap N Task) (task : TaskPtr)
  (array : ArrayMapImp.Queues) (map : StlMapImp.Queues) :
  array_well_formed array →
  map_well_formed map →
  same_levels array map →
  (∀ t, memory !! task = Some t → 0 <= getPriority t) →
  (∃ map',
     StlMapImp.next map = Returns ((ArrayMapImp.next array).1, map') ∧
     same_levels (ArrayMapImp.next array).2 map' ∧
     map_well_formed map')
  ∧ (∀ array',
       ArrayMapImp.ready memory task array = Returns array' →
       ∃ map',
         StlMapImp.ready memory task map = Returns map' ∧
         same_levels array' map' ∧
         map_well_formed map').
Proof.
  intros Harray Hmap Hsame Hunsigned. split.
  - destruct (array_next_cases array Harray)
      as [[Hidle ->] | (level & found & rest & Hl & Hfound & Hhigher & ->)];
    destruct (map_next_cases map Hmap)
      as [[Hnone ->] | (level' & found' & rest' & Hin & Hfound' & Hhigher' & ->)].
    + by exists map.
    + exfalso. pose proof (elem_of_find _ _ _ (proj1 Hmap) Hin) as Hfind.
      assert (Hlevel : array_level array level' = found' :: rest').
      { rewrite Hsame. unfold map_level. by rewrite Hfind. }
      apply array_level_pending in Hlevel as [_ Hl].
      rewrite Forall_lookup in Hidle. by destruct (Hidle _ _ Hl).
    + exfalso.
      assert (Hlevel : map_level map (Z.of_nat level) = found :: rest).
      { rewrite <- Hsame. by rewrite (array_level_of_nat _ _ _ Hl). }
      apply map_level_pending in Hlevel. by specialize (Hnone _ _ Hlevel).
    + pose proof (elem_of_find _ _ _ (proj1 Hmap) Hin) as Hfind.
      assert (Hlevel' : array_level array level' = found' :: rest').
      { rewrite Hsame. unfold map_level. by rewrite Hfind. }
      apply array_level_pending in Hlevel' as [Hpos Hl'].
      assert (Hlevel : map_level map (Z.of_nat level) = found :: rest).
      { rewrite <- Hsame. by rewrite (array_level_of_nat _ _ _ Hl). }
      apply map_level_pending in Hlevel.
      assert (level' = Z.of_nat level) as ->.
      { destruct (Z.lt_trichotomy level' (Z.of_nat level)) as [Hlt | [Heq | Hgt]]; [|done|].
        - by specialize (Hhigher' _ _ Hlt Hlevel).
        - assert (Hlt : (level < Z.to_nat level')%nat) by lia.
          by specialize (Hhigher _ _ Hlt Hl'). }
      rewrite Nat2Z.id, Hl in Hl'. injection Hl' as <- <-.
      exists (StlMapImp.assign (Z.of_nat level) (Some rest) map). simpl.
      split_and!; [done | apply same_levels_update; [by eapply lookup_lt_Some | done] |].
      destruct Hmap as [Hsorted Hslots]. split; [by apply assign_sorted|].
      intros other slot Hother.
      destruct (assign_elem_of _ _ _ _ _ Hother) as [[= -> ->] | Hold];
        [|by apply (Hslots other)].
      destruct (Hslots _ _ Hin) as (queue & [= <-] & Hnull).
      eexists. split; [done|]. intros Hrest. apply Hnull. by right.
  - intros array' Hready.
    assert (Hwf' : ∀ map', StlMapImp.ready memory task map = Returns map' →
                           map_well_formed map')
      by (intros map'; by apply map_ready_well_formed).
    revert Hready Hwf'. unfold ArrayMapImp.ready, StlMapImp.ready, deref.
    destruct (N.eqb_spec task nullptr); [done|].
    destruct (memory !! task) as [t|] eqn:Ht; [|done]. cbn [mbind Outcome_bind].
    destruct (array !! Z.to_nat (getPriority t)) as [slot|] eqn:Hslot; [|done].
    intros [= <-] Hwf'. eexists. split; [done|]. split; [|by apply Hwf'].
    specialize (Hunsigned t eq_refl).
    assert (Hqueue : match StlMapImp.find (getPriority t) map with
                     | Some (Some queue) => queue
                     | _ => []
                     end = slot_queue slot).
    { pose proof (Hsame (getPriority t)) as Hlevel. unfold array_level, map_level in Hlevel.
      destruct (Z.ltb_spec (getPriority t) 0); [lia|]. rewrite Hslot in Hlevel.
      rewrite Hlevel. by destruct (StlMapImp.find (getPriority t) map) as [[?|]|]. }
    rewrite Hqueue. rewrite <- (Z2Nat.id (getPriority t)) at 2 by done.
    replace (match slot with Some queue => queue | None => [] end) with (slot_queue slot)
      by done.
    apply same_levels_update; [by eapply lookup_lt_Some | done].
Qed.

Lemma ready_all_agree {Task} `{PrioritizableByPriority Task}
  (memory : gmap N Task) (arrivals : list TaskPtr) :
  ∀ (array array' : ArrayMapImp.Queues) (map : StlMapImp.Queues),
    array_well_formed array →
    map_well_formed map →
    same_levels array map →
    Forall (fun task => ∀ t, memory !! task = Some t → 0 <= getPriority t) arrivals →
    ready_all (ArrayMapImp.ready memory) arrivals array = Returns array' →
    ∃ map',
      ready_all (StlMapImp.ready memory) arrivals map = Returns map' ∧
      same_levels array' map' ∧ map_well_formed map' ∧ array_well_formed array'.
Proof.
  induction arrivals as [|task arrivals IH]; intros array array' map Harray Hmap Hsame Hall.
  - intros [= <-]. by exists map.
  - apply Forall_cons in Hall as [Hunsigned Hall]. cbn [ready_all].
    destruct (ArrayMapImp.ready memory task array) as [array1| |] eqn:Hready; [|done..].
    cbn [mbind Outcome_bind]. intros Hrest.
    destruct (next_and_ready_agree memory task array map Harray Hmap Hsame Hunsigned)
      as [_ Hagree].
    destruct (Hagree array1 Hready) as (map1 & Hready' & Hsame1 & Hmap1).
    rewrite Hready'. cbn [mbind Outcome_bind].
    apply (IH array1 array' map1); [by eapply array_ready_well_formed | done..].
Qed.

Lemma dequeue_all_agree (n : nat) :
  ∀ (array array' : ArrayMapImp.Queues) (map : StlMapImp.Queues) (served : list TaskPtr),
    array_well_formed array →
    map_well_formed map →
    same_levels array map →
    dequeue_all (fun q => Returns (ArrayMapImp.next q)) n array = Returns (served, array') →
    ∃ map',
      dequeue_all StlMapImp.next n map = Returns (served, map') ∧
      same_levels array' map' ∧ map_well_formed map' ∧ array_well_formed array'.
Proof.
  induction n as [|n IH]; intros array array' map served Harray Hmap Hsame.
  - intros [= <- <-]. by exists map.
  - cbn [dequeue_all mbind Outcome_bind].
    destruct (next_and_ready_agree (Task := unit) (H := fun _ => 0) ∅ nullptr
                array map Harray Hmap Hsame ltac:(done))
      as [(map1 & Hnext & Hsame1 & Hmap1) _].
    rewrite Hnext. cbn [mbind Outcome_bind].
    destruct (ArrayMapImp.next array) as [task array1] eqn:Harray1. cbn [fst snd] in *.
    assert (Hwf1 : array_well_formed array1).
    { destruct (ServiceOrderFacts.pending_next array Harray)
        as [[_ Hidle] | (found & queues' & Hfound & _ & _ & Hwf' & _)].
      - rewrite Harray1 in Hidle. by injection Hidle as _ ->.
      - rewrite Harray1 in Hfound. by injection Hfound as _ ->. }
    destruct (dequeue_all (fun q => Returns (ArrayMapImp.next q)) n array1)
      as [[rest array2]| |] eqn:Hrest; [|done..].
    cbn [mbind Outcome_bind]. intros [= <- <-].
    destruct (IH array1 array2 map1 rest Hwf1 Hmap1 Hsame1 Hrest)
      as (map2 & Hrest' & Hsame2 & Hmap2 & Hwf2).
    exists map2. rewrite Hrest'. by split_and!.
Qed.

(** On the same tasks, the array map and the ordered map give the same
    answers: [next] returns the same task on both and [ready] succeeds on
    the ordered map whenever it does on the array map, and both leave the
    two maps with the same tasks at every level. *)
Theorem array_map_and_stl_map_agree
  {Task} `{PrioritizableByPriority Task}
  (memory : gmap N Task) (task : TaskPtr)
  (array : ArrayMapImp.Queues) (map : StlMapImp.Queues) :
  array_well_formed array →
  map_well_formed map →
  same_levels array map →
  (∀ t, memory !! task = Some t → 0 <= getPriority t) →
  (∃ map',
     StlMapImp.next map = Returns ((ArrayMapImp.next array).1, map') ∧
     same_levels (ArrayMapImp.next array).2 map' ∧
     map_well_formed map')
  ∧ (∀ array',
       ArrayMapImp.ready memory task array = Returns array' →
       ∃ map',
         StlMapImp.ready memory task map = Returns map' ∧
         same_levels array' map' ∧
         map_well_formed map').
Proof.
  intros Harray Hmap Hsame Hunsigned.
  exact (next_and_ready_agree memory task array map Harray Hmap Hsame Hunsigned).
Qed.

Lemma array_map_and_stl_map_agree_witness :
  (∃ map',
     StlMapImp.next [(1, Some [2%N])]
     = Returns ((ArrayMapImp.next [None; Some [2%N]]).1, map') ∧
     same_levels (ArrayMapImp.next [None; Some [2%N]]).2 map' ∧
     map_well_formed map')
  ∧ (∀ array',
       ArrayMapImp.ready four_equal_tasks 4%N [None; Some [2%N]] = Returns array' →
       ∃ map',
         StlMapImp.ready four_equal_tasks 4%N [(1, Some [2%N])] = Returns map' ∧
         same_levels array' map' ∧
         map_well_formed map').
Proof.
  apply (array_map_and_stl_map_agree four_equal_tasks 4%N
           [None; Some [2%N]] [(1, Some [2%N])]).
  - intros [|[|[|level]]] queue [= <-]. unfold nullptr.
    intros Hin. apply elem_of_cons in Hin as [?|Hin]; [done|]. by apply elem_of_nil in Hin.
  - split; [repeat constructor|].
    intros level slot Hin. apply elem_of_cons in Hin as [[= -> ->]|Hin];
      [|by apply elem_of_nil in Hin].
    eexists. split; [done|]. unfold nullptr.
    intros Hnull. apply elem_of_cons in Hnull as [?|Hnull]; [done|].
    by apply elem_of_nil in Hnull.
  - intros level. unfold array_level, map_level. cbn [StlMapImp.find].
    destruct (Z.ltb_spec level 0); destruct (Z.eqb_spec 1 level); try lia; try done.
    + by subst.
    + destruct (Z.to_nat level) as [|[|index]] eqn:Hlevel; [done | lia | done].
  - intros t. vm_compute. by intros [= <-].
Defined.

(** The ordered map hands out tasks like the array map: live tasks with
    unsigned priority levels made ready one after the other in an empty
    ordered map are returned by as many calls of [next] highest level
    first and, within a level, first come first served, and the call of
    [next] after the last task returns null. *)
Theorem stl_map_serves_by_level_then_arrival
  {Task} `{PrioritizableByPriority Task}
  (memory : gmap N Task) (MaxPriorityLevel : nat) (arrivals : list TaskPtr) :
  Forall (fun task => task ≠ nullptr ∧
                      (∃ t, memory !! task = Some t ∧ 0 <= getPriority t) ∧
                      (level_of memory task <= MaxPriorityLevel)%nat) arrivals →
  ∃ map map',
    ready_all (StlMapImp.ready memory) arrivals [] = Returns map ∧
    dequeue_all StlMapImp.next (length arrivals) map
    = Returns (by_descending_level memory (S MaxPriorityLevel) arrivals, map') ∧
    StlMapImp.next map' = Returns (nullptr, map').
Proof.
  intros Hall.
  assert (Hlen0 : length (ArrayMapImp.empty MaxPriorityLevel) = S MaxPriorityLevel)
    by apply length_replicate.
  destruct (ServiceOrderFacts.ready_all_arrivals memory arrivals []
              (ArrayMapImp.empty MaxPriorityLevel))
    as (queues & Hready & Hwf & Hlen & Hinv).
  { eapply Forall_impl; [exact Hall|]. intros task (? & (t & ? & ?) & ?). rewrite Hlen0.
    split_and!; [done | by exists t | lia]. }
  { apply array_empty_well_formed. }
  { rewrite Hlen0. unfold ArrayMapImp.empty. apply list_eq. intros level.
    rewrite !list_lookup_fmap.
    destruct (decide (level < S MaxPriorityLevel)%nat).
    - rewrite lookup_replicate_2, lookup_seq_lt by done. done.
    - rewrite (proj1 (lookup_replicate_None _ _ _)), lookup_seq_ge by lia. done. }
  assert (Hperm : by_descending_level memory (S MaxPriorityLevel) arrivals ≡ₚ arrivals).
  { apply ServiceOrderFacts.by_descending_level_permutation.
    eapply Forall_impl; [exact Hall|]. intros task (? & ? & ?). simpl in *. lia. }
  assert (Hpending : pending queues
                     = by_descending_level memory (S MaxPriorityLevel) arrivals).
  { unfold pending, by_descending_level. by rewrite Hinv, Hlen0, fmap_reverse. }
  destruct (ServiceOrderFacts.dequeue_all_pending (length arrivals) queues Hwf)
    as (queues' & Hdrain & _ & Hnull).
  { by rewrite Hpending, Hperm. }
  assert (Hempty : same_levels (ArrayMapImp.empty MaxPriorityLevel) []).
  { intros level. unfold array_level, map_level, ArrayMapImp.empty. cbn [StlMapImp.find].
    destruct (level <? 0); [done|].
    destruct (replicate (S MaxPriorityLevel) (None : option FIFO.Queue) !! Z.to_nat level)
      as [slot|] eqn:Hslot; [|done].
    apply lookup_replicate in Hslot as [-> _]. done. }
  assert (Hmap0 : map_well_formed []).
  { split; [constructor|]. by intros level slot ?%elem_of_nil. }
  destruct (ready_all_agree memory arrivals (ArrayMapImp.empty MaxPriorityLevel) queues []
              (array_empty_well_formed MaxPriorityLevel) Hmap0 Hempty)
    as (map & Hready' & Hsame & Hmap & _); [|done|].
  { eapply Forall_impl; [exact Hall|]. intros task (_ & (t & Ht & Hpos) & _) t' Ht'.
    congruence. }
  destruct (dequeue_all_agree (length arrivals) queues queues' map _ Hwf Hmap Hsame Hdrain)
    as (map' & Hdrain' & Hsame' & Hmap' & Hwf').
  exists map, map'. rewrite <- Hpending. split_and!; [done | done |].
  destruct (next_and_ready_agree (Task := unit) (H := fun _ => 0) ∅ nullptr
              queues' map' Hwf' Hmap' Hsame' ltac:(done))
    as [(map'' & Hnext & Hsame'' & _) _].
  rewrite Hnull in Hnext. cbn [fst] in Hnext. rewrite Hnext. f_equal. f_equal.
  destruct (map_next_cases map' Hmap')
    as [[_ Hidle] | (level & found & rest & _ & Hfound & _ & Hpending')]; congruence.
Qed.

Lemma stl_map_serves_by_level_then_arrival_witness :
  ∃ map map',
    ready_all (StlMapImp.ready (tasks priority_raised_world)) [2%N; 1%N] [] = Returns map ∧
    dequeue_all StlMapImp.next (length [2%N; 1%N]) map
    = Returns (by_descending_level (tasks priority_raised_world) 10 [2%N; 1%N], map') ∧
    StlMapImp.next map' = Returns (nullptr, map').
Proof.
  apply (stl_map_serves_by_level_then_arrival (tasks priority_raised_world) 9 [2%N; 1%N]).
  repeat constructor; try done; try (eexists; split; [reflexivity | done]);
    vm_compute; lia.
Defined.

End InterchangeFacts.

(** ** Round robin *)

Module RoundRobinFacts.

Import HandlerFacts IdleTaskFacts.

Lemma hd_default {A} (d d' : A) (l : list A) : l ≠ [] → hd d l = hd d' l.
Proof. by destruct l. Qed.

Lemma turned_next (k : nat) (current : TaskPtr) (queue : list TaskPtr) :
  (k <= length queue)%nat →
  turned k (queue ++ [current]) = turned (S k) (current :: queue).
Proof.
  intros Hk. unfold turned. simpl.
  rewrite drop_app_le, take_app_le by done. by rewrite <- app_assoc.
Qed.

Lemma turned_length (k : nat) (line : list TaskPtr) : length (turned k line) = length line.
Proof.
  unfold turned. rewrite length_app, length_drop, length_take. lia.
Qed.

Lemma round_robin_interrupts {Task} (k : nat) :
  ∀ (current : TaskPtr) (w : World Task FIFO.Queue),
    (k <= length (current :: policy w))%nat →
    interrupts_in_a_row
      (TimerInterrupt.Preemptive.RunNext.onTimerInterrupt (self := FIFO_policy)) k current w
    = Returns (hd current (turned k (current :: policy w)),
               set_policy (tl (turned k (current :: policy w))) w).
Proof.
  induction k as [|k IH]; intros current w Hk.
  - unfold turned. simpl. rewrite app_nil_r. by destruct w.
  - cbn [interrupts_in_a_row].
    unfold TimerInterrupt.Preemptive.RunNext.onTimerInterrupt at 1.
    rewrite (bind_returns _ _ _ _ _ (FIFO_next_ready w current)).
    simpl in Hk. rewrite IH.
    + assert (Hline : hd current (policy w) :: policy (set_policy (tl (policy w ++ [current])) w)
                      = policy w ++ [current]) by (simpl; by destruct (policy w)).
      rewrite Hline, turned_next by lia.
      f_equal. f_equal. apply hd_default.
      intros Hnil. apply (f_equal length) in Hnil. rewrite turned_length in Hnil. done.
    + simpl. destruct (policy w); simpl in *; [lia|]. rewrite length_app. simpl. lia.
Qed.

Lemma round_robin_idle_step {Task} (idle : TaskPtr) (current : TaskPtr)
  (w : World Task FIFO.Queue) :
  current ≠ idle → nullptr ∉ current :: policy w →
  TimerInterrupt.Preemptive.RunNextWithIdleTaskSupport.onTimerInterrupt
    (self := FIFO_policy) (idle := idle) current w
  = TimerInterrupt.Preemptive.RunNext.onTimerInterrupt (self := FIFO_policy) current w.
Proof.
  intros Hidle Hnull.
  unfold TimerInterrupt.Preemptive.RunNextWithIdleTaskSupport.onTimerInterrupt,
    TimerInterrupt.Preemptive.RunNext.onTimerInterrupt.
  rewrite getIdleTask_bind. unfold idleTask.
  destruct (N.eqb_spec current idle); [done|]. cbn [negb].
  rewrite <- (bind_assoc (ready current) (fun _ => next)).
  unfold mbind at 1, Stateful_bind at 1. rewrite !FIFO_next_ready.
  destruct w as [memory queue]. simpl in *.
  destruct queue as [|first queue]; simpl.
  - destruct (N.eqb_spec current nullptr) as [->|]; [|done].
    exfalso. apply Hnull. constructor.
  - destruct (N.eqb_spec first nullptr) as [->|]; [|done].
    exfalso. apply Hnull. right. constructor.
Qed.

Lemma round_robin_idle_interrupts {Task} (idle : TaskPtr) (k : nat) :
  ∀ (current : TaskPtr) (w : World Task FIFO.Queue),
    nullptr ∉ current :: policy w → idle ∉ current :: policy w →
    interrupts_in_a_row
      (TimerInterrupt.Preemptive.RunNextWithIdleTaskSupport.onTimerInterrupt
         (self := FIFO_policy) (idle := idle)) k current w
    = interrupts_in_a_row
        (TimerInterrupt.Preemptive.RunNext.onTimerInterrupt (self := FIFO_policy)) k current w.
Proof.
  induction k as [|k IH]; intros current w Hnull Hidle; [done|].
  cbn [interrupts_in_a_row]. unfold mbind, Stateful_bind.
  rewrite round_robin_idle_step; [|by intros ->; apply Hidle; constructor | done].
  unfold TimerInterrupt.Preemptive.RunNext.onTimerInterrupt.
  rewrite FIFO_next_ready.
  assert (Hline : hd current (policy w) :: policy (set_policy (tl (policy w ++ [current])) w)
                  ≡ₚ current :: policy w).
  { simpl. destruct (policy w) as [|first queue]; [done|]. simpl.
    by rewrite <- Permutation_cons_append, Permutation_swap. }
  apply IH; by rewrite Hline.
Qed.

(** The round-robin timer handler over the FIFO queue takes turns: after
    [k] timer interrupts in a row, [k] tasks of the line formed by the
    running task and the ready queue have moved from the front to the
    back, the task now at the front runs and the others wait in that
    order; after as many interrupts as there are tasks, the scheduler is
    back where it started.  With idle task support the same holds for a
    line of tasks without the idle task. *)
Theorem round_robin_takes_turns {Task} (idle : TaskPtr) (k : nat)
  (current : TaskPtr) (w : World Task FIFO.Queue) :
  (k <= length (current :: policy w))%nat →
  interrupts_in_a_row
    (TimerInterrupt.Preemptive.RunNext.onTimerInterrupt (self := FIFO_policy)) k current w
  = Returns (hd current (turned k (current :: policy w)),
             set_policy (tl (turned k (current :: policy w))) w)
  ∧ interrupts_in_a_row
      (TimerInterrupt.Preemptive.RunNext.onTimerInterrupt (self := FIFO_policy))
      (length (current :: policy w)) current w
    = Returns (current, w)
  ∧ (nullptr ∉ current :: policy w → idle ∉ current :: policy w →
     interrupts_in_a_row
       (TimerInterrupt.Preemptive.RunNextWithIdleTaskSupport.onTimerInterrupt
          (self := FIFO_policy) (idle := idle)) k current w
     = Returns (hd current (turned k (current :: policy w)),
                set_policy (tl (turned k (current :: policy w))) w)).
Proof.
  intros Hk. split_and!.
  - by apply round_robin_interrupts.
  - rewrite round_robin_interrupts by done. unfold turned.
    rewrite drop_all, take_ge by done. by destruct w.
  - intros Hnull Hidle. rewrite round_robin_idle_interrupts by done.
    by apply round_robin_interrupts.
Qed.

Lemma round_robin_takes_turns_witness :
  interrupts_in_a_row
    (TimerInterrupt.Preemptive.RunNext.onTimerInterrupt (self := FIFO_policy))
    2 1%N (mkWorld four_equal_tasks [2%N; 3%N])
  = Returns (hd 1%N (turned 2 (1%N :: policy (mkWorld four_equal_tasks [2%N; 3%N]))),
             set_policy (tl (turned 2 (1%N :: policy (mkWorld four_equal_tasks [2%N; 3%N]))))
               (mkWorld four_equal_tasks [2%N; 3%N]))
  ∧ interrupts_in_a_row
      (TimerInterrupt.Preemptive.RunNext.onTimerInterrupt (self := FIFO_policy))
      (length (1%N :: policy (mkWorld four_equal_tasks [2%N; 3%N]))) 1%N
      (mkWorld four_equal_tasks [2%N; 3%N])
    = Returns (1%N, mkWorld four_equal_tasks [2%N; 3%N])
  ∧ (nullptr ∉ 1%N :: policy (mkWorld four_equal_tasks [2%N; 3%N]) →
     9%N ∉ 1%N :: policy (mkWorld four_equal_tasks [2%N; 3%N]) →
     interrupts_in_a_row
       (TimerInterrupt.Preemptive.RunNextWithIdleTaskSupport.onTimerInterrupt
          (self := FIFO_policy) (idle := 9%N)) 2 1%N (mkWorld four_equal_tasks [2%N; 3%N])
     = Returns (hd 1%N (turned 2 (1%N :: policy (mkWorld four_equal_tasks [2%N; 3%N]))),
                set_policy
                  (tl (turned 2 (1%N :: policy (mkWorld four_equal_tasks [2%N; 3%N]))))
                  (mkWorld four_equal_tasks [2%N; 3%N]))).
Proof.
  apply (round_robin_takes_turns 9%N 2 1%N (mkWorld four_equal_tasks [2%N; 3%N])).
  simpl. lia.
Defined.

End RoundRobinFacts.

(** ** Group operations of the unblock protocol *)

Module UnblockProtocolFacts.

Import HandlerFacts IdleTaskFacts.

Lemma intermediate_then {S A} (enqueue : Stateful S unit) (rest : Stateful S A) (w : S) :
  ((enqueue;; mret nullptr);; rest) w = (enqueue;; rest) w.
Proof.
  unfold mbind, mret, Stateful_bind, Stateful_ret.
  by destruct (enqueue w) as [[[] w']| |].
Qed.

Lemma bind_ext {S A B} (m : Stateful S A) (k k' : A -> Stateful S B) (w : S) :
  (∀ a w', k a w' = k' a w') → (m ≫= k) w = (m ≫= k') w.
Proof.
  intros Hext. unfold mbind, Stateful_bind. by destruct (m w) as [[a w']| |].
Qed.

(** A group operation is the enqueuing of the unblocked tasks, in the
    order of the intermediate calls, followed by the decision of the
    terminating call: the preemptive handler returns what [next] returns
    (and does not enqueue [current]); with idle task support it first
    enqueues [current] unless that is the idle task, and returns the idle
    task in place of null; the cooperative handlers return [current]. *)
Theorem unblock_group_enqueues_then_decides
  {Task P} (self : Policy (World Task P)) (idle : SupportsIdleTask (World Task P))
  (unblocked : list TaskPtr) (current : TaskPtr) (w : World Task P) :
  current ≠ nullptr →
  unblock_group TaskUnblocked.Preemptive.RunNext.onTaskUnblocked unblocked current w
  = (ready_each unblocked;; next) w
  ∧ unblock_group TaskUnblocked.Preemptive.RunNextWithIdleTaskSupport.onTaskUnblocked
      unblocked current w
    = (ready_each unblocked;;
       (if (current =? idle)%N then mret tt else ready current);;
       nextTask ← next;
       mret (or_idle idle nextTask)) w
  ∧ unblock_group TaskUnblocked.Cooperative.KeepRunningCurrent.onTaskUnblocked
      unblocked current w
    = (ready_each unblocked;; mret current) w
  ∧ unblock_group
      TaskUnblocked.Cooperative.KeepRunningCurrentWithIdleTaskSupport.onTaskUnblocked
      unblocked current w
    = (ready_each unblocked;; mret current) w.
Proof.
  intros Hcurrent. split_and!; revert w; induction unblocked as [|task rest IH]; intros w.
  - cbn [unblock_group ready_each].
    unfold TaskUnblocked.Preemptive.RunNext.onTaskUnblocked.
    destruct (N.eqb_spec current nullptr); [done|]. by rewrite N.eqb_refl.
  - cbn [unblock_group ready_each].
    change (TaskUnblocked.Preemptive.RunNext.onTaskUnblocked nullptr task)
      with (ready task;; mret nullptr).
    rewrite intermediate_then, bind_assoc. apply bind_ext. intros [] w'. apply IH.
  - cbn [unblock_group ready_each].
    unfold TaskUnblocked.Preemptive.RunNextWithIdleTaskSupport.onTaskUnblocked.
    destruct (N.eqb_spec current nullptr); [done|]. rewrite N.eqb_refl. cbn [negb].
    unfold getIdleTask, idleTask, or_idle, mbind, mret, Stateful_bind, Stateful_ret.
    destruct (current =? idle)%N; cbn [negb]; repeat case_outcome; try done;
      by destruct (_ =? nullptr)%N.
  - cbn [unblock_group ready_each].
    change (TaskUnblocked.Preemptive.RunNextWithIdleTaskSupport.onTaskUnblocked nullptr task)
      with (ready task;; mret nullptr).
    rewrite intermediate_then, bind_assoc. apply bind_ext. intros [] w'. apply IH.
  - cbn [unblock_group ready_each].
    unfold TaskUnblocked.Cooperative.KeepRunningCurrent.onTaskUnblocked.
    destruct (N.eqb_spec current nullptr); [done|]. by rewrite N.eqb_refl.
  - cbn [unblock_group ready_each].
    change (TaskUnblocked.Cooperative.KeepRunningCurrent.onTaskUnblocked nullptr task)
      with (ready task;; mret nullptr).
    rewrite intermediate_then, bind_assoc. apply bind_ext. intros [] w'. apply IH.
  - cbn [unblock_group ready_each].
    unfold TaskUnblocked.Cooperative.KeepRunningCurrentWithIdleTaskSupport.onTaskUnblocked.
    destruct (N.eqb_spec current nullptr); [done|]. by rewrite N.eqb_refl.
  - cbn [unblock_group ready_each].
    change (TaskUnblocked.Cooperative.KeepRunningCurrentWithIdleTaskSupport.onTaskUnblocked
              nullptr task)
      with (ready task;; mret nullptr).
    rewrite intermediate_then, bind_assoc. apply bind_ext. intros [] w'. apply IH.
Qed.

Lemma unblock_group_enqueues_then_decides_witness :
  unblock_group (TaskUnblocked.Preemptive.RunNext.onTaskUnblocked (self := FIFO_policy))
    [2%N; 3%N] 1%N (mkWorld four_equal_tasks [])
  = (ready_each (self := FIFO_policy) [2%N; 3%N];; @next _ FIFO_policy)
      (mkWorld four_equal_tasks [])
  ∧ unblock_group
      (TaskUnblocked.Preemptive.RunNextWithIdleTaskSupport.onTaskUnblocked
         (self := FIFO_policy) (idle := 9%N))
      [2%N; 3%N] 1%N (mkWorld four_equal_tasks [])
    = (ready_each (self := FIFO_policy) [2%N; 3%N];;
       (if (1 =? 9)%N then mret tt else @ready _ FIFO_policy 1%N);;
       nextTask ← @next _ FIFO_policy;
       mret (or_idle 9%N nextTask)) (mkWorld four_equal_tasks [])
  ∧ unblock_group
      (TaskUnblocked.Cooperative.KeepRunningCurrent.onTaskUnblocked (self := FIFO_policy))
      [2%N; 3%N] 1%N (mkWorld four_equal_tasks [])
    = (ready_each (self := FIFO_policy) [2%N; 3%N];; mret 1%N) (mkWorld four_equal_tasks [])
  ∧ unblock_group
      (TaskUnblocked.Cooperative.KeepRunningCurrentWithIdleTaskSupport.onTaskUnblocked
         (self := FIFO_policy) (idle := 9%N))
      [2%N; 3%N] 1%N (mkWorld four_equal_tasks [])
    = (ready_each (self := FIFO_policy) [2%N; 3%N];; mret 1%N) (mkWorld four_equal_tasks []).
Proof.
  apply (unblock_group_enqueues_then_decides FIFO_policy
           (9%N : SupportsIdleTask (World SimpleTask.t FIFO.Queue))
           [2%N; 3%N] 1%N (mkWorld four_equal_tasks [])).
  done.
Defined.

End UnblockProtocolFacts.

(** ** Giving up the processor in the prioritized multi-queue *)

Module YieldOrderFacts.

Import PrioritizedMultiQueue MultiQueueFacts HandlerFacts FeedbackQueueFacts ServiceOrderFacts.

(** A task that yields in a scheduler over the prioritized multi-queue
    goes behind the tasks that wait at its level or above, and ahead of
    the tasks of the lower levels: the yield handler returns the first
    task of the resulting line, the yielding task itself when no task
    waits at its level or above, and the others stay pending in that
    order.  The handler for a task that changed its own priority is the
    same function and places the task by its new level. *)
Theorem yielding_task_waits_behind_its_level
  {Task} `{PrioritizableByPriority Task}
  (w : World Task ArrayMapImp.Queues) (current : TaskPtr) (t : Task) :
  current ≠ nullptr →
  tasks w !! current = Some t →
  array_well_formed (policy w) →
  (Z.to_nat (getPriority t) < length (policy w))%nat →
  ∃ queues',
    TaskYielding.Common.RunNext.onTaskYielded (self := ArrayMapImp_policy) current w
    = Returns (hd current (pending_above (Z.to_nat (getPriority t)) (policy w)
                           ++ pending_at (Z.to_nat (getPriority t)) (policy w)),
               set_policy queues' w) ∧
    pending queues'
    = tl (pending_above (Z.to_nat (getPriority t)) (policy w)
          ++ pending_at (Z.to_nat (getPriority t)) (policy w) ++ [current])
      ++ pending_below (Z.to_nat (getPriority t)) (policy w) ∧
    TaskSelfPriorityChanged.Preemptive.Balance.onTaskPriorityChanged
      (self := ArrayMapImp_policy) current w
    = TaskYielding.Common.RunNext.onTaskYielded (self := ArrayMapImp_policy) current w.
Proof.
  intros Hcurrent Ht Hwf Hlevel.
  set (level := Z.to_nat (getPriority t)) in *.
  destruct (lookup_lt_is_Some_2 _ _ Hlevel) as [slot Hslot].
  pose proof (array_ready_returns (tasks w) current t (policy w) slot Hcurrent Ht Hslot)
    as Hready.
  fold level in Hready.
  set (queues1 := <[level := Some (FIFO.ready current (slot_queue slot))]> (policy w)) in *.
  assert (Hwf1 : array_well_formed queues1) by (by eapply array_ready_well_formed).
  assert (Hline : pending queues1
                  = pending_above level (policy w)
                    ++ (pending_at level (policy w) ++ [current])
                    ++ pending_below level (policy w)).
  { unfold queues1. rewrite pending_insert by done.
    unfold pending_above, pending_at, pending_below. by rewrite Hslot. }
  destruct (pending_next queues1 Hwf1)
    as [[Hnone _] | (task & queues' & Hnext & Htask & Hpending & _ & _)].
  { exfalso. rewrite Hline in Hnone.
    apply (f_equal length) in Hnone. rewrite !length_app in Hnone. simpl in Hnone. lia. }
  exists queues'. split_and!; [| |done].
  - unfold TaskYielding.Common.RunNext.onTaskYielded. simpl.
    unfold mbind, Stateful_bind, Outcome_bind. rewrite Hready.
    cbn [policy set_policy tasks]. rewrite Hnext. cbn [mret Outcome_ret].
    f_equal. f_equal.
    rewrite Hline in Hpending.
    destruct (pending_above level (policy w)) as [|first above]; simpl in *.
    + destruct (pending_at level (policy w)) as [|first own]; simpl in *; congruence.
    + congruence.
  - rewrite Hline in Hpending. rewrite !app_assoc in Hpending.
    rewrite !app_assoc.
    destruct ((pending_above level (policy w) ++ pending_at level (policy w)) ++ [current])
      as [|first line] eqn:Hfront; simpl in *; [|congruence].
    apply (f_equal length) in Hfront. rewrite length_app in Hfront. simpl in Hfront. lia.
Qed.

Lemma yielding_task_waits_behind_its_level_witness :
  ∃ queues',
    TaskYielding.Common.RunNext.onTaskYielded (self := ArrayMapImp_policy) 3%N
      waiting_at_every_level_world
    = Returns (4%N, set_policy queues' waiting_at_every_level_world) ∧
    pending queues' = [5%N; 3%N; 6%N] ∧
    TaskSelfPriorityChanged.Preemptive.Balance.onTaskPriorityChanged
      (self := ArrayMapImp_policy) 3%N waiting_at_every_level_world
    = TaskYielding.Common.RunNext.onTaskYielded (self := ArrayMapImp_policy) 3%N
        waiting_at_every_level_world.
Proof.
  destruct (yielding_task_waits_behind_its_level
              waiting_at_every_level_world 3%N (SimpleTask.mk 3 2 0))
    as (queues' & Hreturned & Hpending & Hsame).
  - done.
  - reflexivity.
  - intros level queue Hslot.
    destruct level as [|[|[|[|level]]]]; simpl in Hslot; try done;
      injection Hslot as <-; rewrite list_elem_of_singleton; done.
  - vm_compute. lia.
  - exists queues'. split_and!; [exact Hreturned | exact Hpending | exact Hsame].
Defined.

End YieldOrderFacts.

(** ** Quanta in the multilevel feedback queue *)

Module QuantumFacts.

Import PrioritizedMultiQueue SampleSchedulers HandlerFacts MultiQueueFacts FeedbackQueueFacts
  IdleTaskFacts.

(** One tick of a task whose quantum is not used up by it. *)
Lemma tick_keeps_running {P} (quantumUsedUp : ProvidesTaskQuantumUsedUpHandler
                                                (World SimpleTask.t P))
  (current : TaskPtr) (identifier priority ticks : Z) (w : World SimpleTask.t P) :
  current ≠ nullptr →
  tasks w !! current = Some (SimpleTask.mk identifier priority ticks) →
  0 <= ticks <= UINT32_MAX →
  ticks ≠ 1 →
  TimerInterrupt.Preemptive.KeepRunningCurrentWithAnyQuantumUsedUpHandler.onTimerInterrupt
    current w
  = Returns (current,
             set_tasks (<[current := SimpleTask.mk identifier priority
                                       (if ticks =? 0 then UINT32_MAX else ticks - 1)]>
                          (tasks w)) w).
Proof.
  intros Hc Ht Hticks Hne.
  unfold TimerInterrupt.Preemptive.KeepRunningCurrentWithAnyQuantumUsedUpHandler.onTimerInterrupt.
  rewrite (bind_returns _ _ _ _ _ (call_task_returns w current _ tick Hc Ht)).
  set (w1 := set_tasks _ w).
  assert (Hwrap : wrap32 (ticks - 1) = if ticks =? 0 then UINT32_MAX else ticks - 1).
  { destruct (Z.eqb_spec ticks 0) as [->|]; [done|]. apply wrap32_small. lia. }
  assert (Ht1 : tasks w1 !! current
                = Some (SimpleTask.mk identifier priority
                          (if ticks =? 0 then UINT32_MAX else ticks - 1))).
  { unfold w1. simpl. rewrite lookup_insert_eq. by rewrite Hwrap. }
  rewrite (bind_returns _ _ _ _ _
             (read_task_returns w1 current _ hasUsedUpTimeAllotment Hc Ht1)).
  assert (Hleft : hasUsedUpTimeAllotment
                    (SimpleTask.mk identifier priority
                       (if ticks =? 0 then UINT32_MAX else ticks - 1)) = false).
  { simpl. destruct (Z.eqb_spec ticks 0); [done|]. apply Z.eqb_neq. lia. }
  rewrite Hleft. unfold w1. simpl. by rewrite Hwrap.
Qed.

Lemma ticks_keep_running {P} (self : Policy (World SimpleTask.t P))
  (idle : SupportsIdleTask (World SimpleTask.t P))
  (current : TaskPtr) (identifier priority : Z) (k : nat) :
  current ≠ nullptr →
  current ≠ idleTask →
  ∀ (ticks : Z) (w : World SimpleTask.t P),
    tasks w !! current = Some (SimpleTask.mk identifier priority ticks) →
    Z.of_nat k < ticks <= UINT32_MAX →
    consecutive_interrupts
      TimerInterrupt.Preemptive.KeepRunningCurrentWithAutoDemotionOnQuantumUsedUpAndIdleTaskSupport.onTimerInterrupt
      k current w
    = Returns (tt, set_tasks (<[current := SimpleTask.mk identifier priority
                                             (ticks - Z.of_nat k)]> (tasks w)) w).
Proof.
  intros Hc Hidle. induction k as [|k IH]; intros ticks w Ht Hk.
  - simpl. rewrite Z.sub_0_r. unfold set_tasks. rewrite insert_id by done. by destruct w.
  - cbn [consecutive_interrupts]. unfold mbind, Stateful_bind.
    rewrite idle_support_agrees by done.
    unfold TimerInterrupt.Preemptive.KeepRunningCurrentWithAutoDemotionOnQuantumUsedUp.onTimerInterrupt.
    rewrite (tick_keeps_running _ current identifier priority ticks) by (done || lia).
    rewrite N.eqb_refl.
    assert ((ticks =? 0) = false) as -> by lia.
    rewrite (IH (ticks - 1)); [| apply lookup_insert_eq | lia].
    replace (ticks - 1 - Z.of_nat k) with (ticks - Z.of_nat (S k)) by lia.
    unfold set_tasks. simpl. by rewrite insert_insert_eq.
Qed.

(** In the multilevel feedback queue, a new task that is created while
    the idle task runs is dispatched at once, without passing through
    [ready], so no quantum is allocated to it: its tick counter is still
    0, the first timer interrupt wraps the counter around to
    [UINT32_MAX], and through its first [UINT32_MAX] ticks the task keeps
    the processor at its priority level, whatever the quantum of that
    level is, the ready queues being left as they are. *)
Theorem task_dispatched_from_idle_runs_unmetered
  (QuantumSpecifier : Z -> Outcome Z) (idle task : TaskPtr)
  (identifier priority : Z) (k : nat) (w : MultilevelFeedbackQueue.State SimpleTask.t) :
  task ≠ nullptr →
  task ≠ idle →
  tasks w !! task = Some (SimpleTask.new identifier priority) →
  1 <= Z.of_nat k <= UINT32_MAX →
  MultilevelFeedbackQueue.onTaskCreated (idle := idle) QuantumSpecifier idle task w
  = Returns (task, w)
  ∧ consecutive_interrupts
      (MultilevelFeedbackQueue.onTimerInterrupt (idle := idle) QuantumSpecifier) k task w
    = Returns (tt, set_tasks (<[task := SimpleTask.mk identifier priority
                                          (UINT32_MAX - (Z.of_nat k - 1))]> (tasks w)) w).
Proof.
  intros Htask Hidle Ht Hk. split.
  - unfold MultilevelFeedbackQueue.onTaskCreated.
    apply (creation_from_idle (H := AnyPrioritizable_by_priority)
             (MultilevelFeedbackQueue.policy QuantumSpecifier)
             (idle : SupportsIdleTask (MultilevelFeedbackQueue.State SimpleTask.t))).
  - destruct k as [|k]; [lia|].
    cbn [consecutive_interrupts]. unfold mbind, Stateful_bind.
    unfold MultilevelFeedbackQueue.onTimerInterrupt at 1.
    rewrite (idle_support_agrees _
               (idle : SupportsIdleTask (MultilevelFeedbackQueue.State SimpleTask.t)))
      by done.
    unfold TimerInterrupt.Preemptive.KeepRunningCurrentWithAutoDemotionOnQuantumUsedUp.onTimerInterrupt.
    rewrite (tick_keeps_running _ task identifier priority 0);
      [| done | exact Ht | unfold UINT32_MAX; lia | done].
    rewrite N.eqb_refl. cbn [Z.eqb].
    unfold MultilevelFeedbackQueue.onTimerInterrupt.
    rewrite (ticks_keep_running (MultilevelFeedbackQueue.policy QuantumSpecifier)
               (idle : SupportsIdleTask (MultilevelFeedbackQueue.State SimpleTask.t))
               task identifier priority k Htask Hidle UINT32_MAX);
      [| apply lookup_insert_eq | lia].
    replace (UINT32_MAX - Z.of_nat k) with (UINT32_MAX - (Z.of_nat (S k) - 1)) by lia.
    unfold set_tasks. simpl. by rewrite insert_insert_eq.
Qed.

Lemma task_dispatched_from_idle_runs_unmetered_witness :
  MultilevelFeedbackQueue.onTaskCreated (idle := 9%N) SimpleTask.QuantumSpecifier 9%N 3%N
    lone_task_world
  = Returns (3%N, lone_task_world)
  ∧ consecutive_interrupts
      (MultilevelFeedbackQueue.onTimerInterrupt (idle := 9%N) SimpleTask.QuantumSpecifier)
      5 3%N lone_task_world
    = Returns (tt, set_tasks (<[3%N := SimpleTask.mk 3 3 (UINT32_MAX - (Z.of_nat 5 - 1))]>
                                (tasks lone_task_world)) lone_task_world).
Proof.
  apply (task_dispatched_from_idle_runs_unmetered SimpleTask.QuantumSpecifier 9%N 3%N 3 3 5
           lone_task_world).
  - done.
  - done.
  - reflexivity.
  - unfold UINT32_MAX. lia.
Defined.

Lemma quantum_interrupts (QuantumSpecifier : Z -> Outcome Z)
  (current : TaskPtr) (identifier priority quantum' : Z) (k : nat) :
  current ≠ nullptr →
  1 <= priority <= UINT32_MAX →
  QuantumSpecifier (Z.max 1 (priority - 1)) = Returns quantum' →
  ∀ (left : Z) (w : MultilevelFeedbackQueue.State SimpleTask.t),
    tasks w !! current = Some (SimpleTask.mk identifier priority left) →
    Z.of_nat k <= left <= UINT32_MAX →
    1 <= left →
    (Z.to_nat priority < length (policy w))%nat →
    Forall idle_slot (policy w) →
    ∃ w',
      consecutive_interrupts
        (TimerInterrupt.Preemptive.KeepRunningCurrentWithAutoDemotionOnQuantumUsedUp.onTimerInterrupt
           (self := MultilevelFeedbackQueue.policy QuantumSpecifier)) k current w
      = Returns (tt, w') ∧
      tasks w' !! current
      = Some (if Z.of_nat k =? left
              then SimpleTask.mk identifier (Z.max 1 (priority - 1)) quantum'
              else SimpleTask.mk identifier priority (left - Z.of_nat k)) ∧
      Forall idle_slot (policy w').
Proof.
  intros Hc Hp Hq. induction k as [|k IH]; intros left w Ht Hk Hleft Hlen Hidle.
  - exists w. split; [done|].
    assert ((Z.of_nat 0 =? left) = false) as -> by (apply Z.eqb_neq; lia).
    by rewrite Z.sub_0_r.
  - destruct (mlfq_interrupt_lone_task QuantumSpecifier w current identifier priority
                left quantum' Hc Ht ltac:(lia) Hp Hlen Hidle Hq)
      as (w1 & Hstep & Ht1 & Hidle1 & Hlen1).
    cbn [consecutive_interrupts]. rewrite (bind_returns _ _ _ _ _ Hstep).
    rewrite N.eqb_refl.
    destruct (Z.eqb_spec left 1) as [->|Hmore].
    + assert (k = O) as -> by lia. exists w1. by split_and!.
    + destruct (IH (left - 1) w1) as (w' & Hrun & Ht' & Hidle');
        [done | lia | lia | by rewrite Hlen1 | done |].
      exists w'. split_and!; [done | | done]. rewrite Ht'.
      destruct (Z.eqb_spec (Z.of_nat k) (left - 1)), (Z.eqb_spec (Z.of_nat (S k)) left);
        try lia; [done|]. do 2 f_equal. lia.
Qed.

(** In the multilevel feedback queue with any quanta, a task that runs
    alone with the full quantum of its level keeps the processor and its
    level while ticks of that quantum are left, one tick less after every
    timer interrupt, and the interrupt that uses up the quantum moves it
    one level down (not below level 1) with the full quantum of the new
    level. *)
Theorem quantum_of_the_level_then_demotion
  (QuantumSpecifier : Z -> Outcome Z) (idle current : TaskPtr)
  (identifier priority quantum quantum' : Z) (k : nat)
  (w : MultilevelFeedbackQueue.State SimpleTask.t) :
  current ≠ nullptr →
  current ≠ idle →
  1 <= priority <= UINT32_MAX →
  1 <= quantum <= UINT32_MAX →
  QuantumSpecifier (Z.max 1 (priority - 1)) = Returns quantum' →
  tasks w !! current = Some (SimpleTask.mk identifier priority quantum) →
  (Z.to_nat priority < length (policy w))%nat →
  Forall idle_slot (policy w) →
  Z.of_nat k <= quantum →
  ∃ w',
    consecutive_interrupts
      (MultilevelFeedbackQueue.onTimerInterrupt (idle := idle) QuantumSpecifier) k current w
    = Returns (tt, w') ∧
    tasks w' !! current
    = Some (if Z.of_nat k =? quantum
            then SimpleTask.mk identifier (Z.max 1 (priority - 1)) quantum'
            else SimpleTask.mk identifier priority (quantum - Z.of_nat k)) ∧
    Forall idle_slot (policy w').
Proof.
  intros Hc Hidle Hp Hquantum Hq Ht Hlen Hqueues Hk.
  destruct (quantum_interrupts QuantumSpecifier current identifier priority quantum' k
              Hc Hp Hq quantum w Ht ltac:(lia) ltac:(lia) Hlen Hqueues)
    as (w' & Hrun & Ht' & Hidle').
  exists w'. split_and!; [|done..]. rewrite <- Hrun.
  apply consecutive_interrupts_ext. intros w0.
  unfold MultilevelFeedbackQueue.onTimerInterrupt.
  by apply (idle_support_agrees _
              (idle : SupportsIdleTask (MultilevelFeedbackQueue.State SimpleTask.t))).
Qed.

Lemma quantum_of_the_level_then_demotion_witness :
  ∃ w',
    consecutive_interrupts
      (MultilevelFeedbackQueue.onTimerInterrupt (idle := 9%N) SimpleTask.QuantumSpecifier)
      1 3%N last_tick_world
    = Returns (tt, w') ∧
    tasks w' !! 3%N
    = Some (if Z.of_nat 1 =? 1
            then SimpleTask.mk 3 (Z.max 1 (3 - 1)) 2
            else SimpleTask.mk 3 3 (1 - Z.of_nat 1)) ∧
    Forall idle_slot (policy w').
Proof.
  apply (quantum_of_the_level_then_demotion SimpleTask.QuantumSpecifier 9%N 3%N 3 3 1 2 1
           last_tick_world).
  - done.
  - done.
  - unfold UINT32_MAX. lia.
  - unfold UINT32_MAX. lia.
  - reflexivity.
  - reflexivity.
  - vm_compute. lia.
  - repeat constructor; by left.
  - lia.
Defined.

(** [ready] of the multilevel feedback queue never queues a task without
    its quantum: when it returns, the task's tick counter is what the
    quantum specifier assigns to the task's level, its level is
    unchanged and the task is the last of the queue of its level.  When
    the quantum specifier rejects the level, [ready] aborts with the
    specifier's message; when the level is past the last level of the
    array, the behaviour is not defined. *)
Theorem feedback_queue_ready_allocates_the_quantum
  (QuantumSpecifier : Z -> Outcome Z) (task : TaskPtr)
  (identifier priority ticks : Z) (w : MultilevelFeedbackQueue.State SimpleTask.t) :
  task ≠ nullptr →
  tasks w !! task = Some (SimpleTask.mk identifier priority ticks) →
  (∀ quantum slot,
     QuantumSpecifier priority = Returns quantum →
     policy w !! Z.to_nat priority = Some slot →
     @ready _ (MultilevelFeedbackQueue.policy QuantumSpecifier) task w
     = Returns (tt, mkWorld (<[task := SimpleTask.mk identifier priority quantum]> (tasks w))
                     (<[Z.to_nat priority := Some (slot_queue slot ++ [task])]> (policy w))))
  ∧ (∀ msg,
       QuantumSpecifier priority = Aborts msg →
       @ready _ (MultilevelFeedbackQueue.policy QuantumSpecifier) task w = Aborts msg)
  ∧ (∀ quantum,
       QuantumSpecifier priority = Returns quantum →
       (length (policy w) <= Z.to_nat priority)%nat →
       @ready _ (MultilevelFeedbackQueue.policy QuantumSpecifier) task w = Undefined).
Proof.
  intros Htask Ht. split_and!.
  - intros quantum slot Hq Hslot.
    exact (mlfq_ready_returns QuantumSpecifier w task _ quantum slot Htask Ht Hq Hslot).
  - intros msg Hq. simpl.
    unfold PriorityBasedTaskQuantumAllocator, read_task, call_task.
    unfold mbind, mret, Stateful_bind, Stateful_ret, Outcome_bind, Outcome_ret.
    rewrite (deref_lookup _ _ _ Htask Ht).
    change (getPriority (SimpleTask.mk identifier priority ticks)) with priority.
    by rewrite Hq.
  - intros quantum Hq Hlen. simpl.
    unfold PriorityBasedTaskQuantumAllocator, read_task, call_task.
    unfold mbind, mret, Stateful_bind, Stateful_ret, Outcome_bind, Outcome_ret.
    rewrite (deref_lookup _ _ _ Htask Ht).
    change (getPriority (SimpleTask.mk identifier priority ticks)) with priority.
    rewrite Hq. cbn [tasks].
    rewrite (deref_lookup _ _ _ Htask Ht). cbn [tasks policy set_tasks].
    unfold ArrayMapImp.ready.
    rewrite (deref_lookup _ _ (SimpleTask.mk identifier priority quantum) Htask)
      by apply lookup_insert_eq.
    simpl. by rewrite lookup_ge_None_2.
Qed.

Lemma feedback_queue_ready_allocates_the_quantum_witness :
  (∀ quantum slot,
     SimpleTask.QuantumSpecifier 3 = Returns quantum →
     policy lone_task_world !! Z.to_nat 3 = Some slot →
     @ready _ (MultilevelFeedbackQueue.policy SimpleTask.QuantumSpecifier) 3%N lone_task_world
     = Returns (tt, mkWorld (<[3%N := SimpleTask.mk 3 3 quantum]> (tasks lone_task_world))
                     (<[Z.to_nat 3 := Some (slot_queue slot ++ [3%N])]>
                        (policy lone_task_world))))
  ∧ (∀ msg,
       SimpleTask.QuantumSpecifier 3 = Aborts msg →
       @ready _ (MultilevelFeedbackQueue.policy SimpleTask.QuantumSpecifier) 3%N
         lone_task_world
       = Aborts msg)
  ∧ (∀ quantum,
       SimpleTask.QuantumSpecifier 3 = Returns quantum →
       (length (policy lone_task_world) <= Z.to_nat 3)%nat →
       @ready _ (MultilevelFeedbackQueue.policy SimpleTask.QuantumSpecifier) 3%N
         lone_task_world
       = Undefined).
Proof.
  apply (feedback_queue_ready_allocates_the_quantum SimpleTask.QuantumSpecifier 3%N 3 3 0
           lone_task_world).
  - done.
  - reflexivity.
Defined.

(** Recharging in the policy or in the handler comes to the same: on any
    policy, the quantum-used-up handler that only demotes, run over the
    policy extended with the quantum allocator at [ready], is the handler
    that demotes and recharges run over the plain policy; and yielding
    over the extended policy is the handler that recharges over the plain
    one. *)
Theorem quantum_allocator_as_extension_or_in_handler
  {Task P} `{Quantizable Task} `{PrioritizableByPriority Task}
  `{PrioritizableByAutoMutablePriority Task}
  (self : Policy (World Task P)) (QuantumSpecifier : Z -> Outcome Z)
  (current : TaskPtr) (w : World Task P) :
  TaskQuantumUsedUp.Preemptive.RunNextWithDemotion.onTaskQuantumUsedUp
    (self := PolicyWithEnqueueExtensions self
               [PriorityBasedTaskQuantumAllocator QuantumSpecifier])
    current w
  = TaskQuantumUsedUp.Preemptive.RunNextWithDemotionAndQuantumRecharged.onTaskQuantumUsedUp
      (self := self) QuantumSpecifier current w
  ∧ TaskYielding.Common.RunNext.onTaskYielded
      (self := PolicyWithEnqueueExtensions self
                 [PriorityBasedTaskQuantumAllocator QuantumSpecifier])
      current w
    = TaskQuantumUsedUp.Preemptive.RunNextWithQuantumRecharged.onTaskQuantumUsedUp
        (self := self) QuantumSpecifier current w.
Proof.
  unfold TaskQuantumUsedUp.Preemptive.RunNextWithDemotion.onTaskQuantumUsedUp,
    TaskQuantumUsedUp.Preemptive.RunNextWithDemotionAndQuantumRecharged.onTaskQuantumUsedUp,
    TaskQuantumUsedUp.Preemptive.RunNextWithQuantumRecharged.onTaskQuantumUsedUp,
    TaskYielding.Common.RunNext.onTaskYielded.
  cbn [ready next PolicyWithEnqueueExtensions run_extensions].
  unfold PriorityBasedTaskQuantumAllocator.
  unfold mbind, mret, Stateful_bind, Stateful_ret.
  split; repeat case_outcome; try done.
Qed.

(** An extension installed for [next] is run on whatever the policy
    returns, the null pointer of an empty ready queue included: with the
    quantum allocator as the extension, [next] on a scheduler without a
    ready task dereferences null, while a task that is handed out has the
    quantum of its level. *)
Theorem dequeue_extension_runs_on_null
  {Task P} `{Quantizable Task} `{PrioritizableByPriority Task}
  (self : Policy (World Task P)) (QuantumSpecifier : Z -> Outcome Z)
  (w w' : World Task P) (task : TaskPtr) :
  @next _ self w = Returns (task, w') →
  (task = nullptr →
   @next _ (PolicyWithDequeueExtensions self
              [PriorityBasedTaskQuantumAllocator QuantumSpecifier]) w
   = Undefined)
  ∧ (∀ t quantum,
       task ≠ nullptr →
       tasks w' !! task = Some t →
       QuantumSpecifier (getPriority t) = Returns quantum →
       @next _ (PolicyWithDequeueExtensions self
                  [PriorityBasedTaskQuantumAllocator QuantumSpecifier]) w
       = Returns (task, set_tasks (<[task := allocateTicks quantum t]> (tasks w')) w')).
Proof.
  intros Hnext. cbn [next PolicyWithDequeueExtensions run_extensions].
  unfold PriorityBasedTaskQuantumAllocator. split.
  - intros ->. rewrite (bind_returns _ _ _ _ _ Hnext).
    unfold read_task, mbind, Stateful_bind, Outcome_bind. done.
  - intros t quantum Htask Ht Hq. rewrite (bind_returns _ _ _ _ _ Hnext).
    unfold read_task, call_task.
    unfold mbind, mret, Stateful_bind, Stateful_ret, Outcome_bind, Outcome_ret.
    rewrite (deref_lookup _ _ _ Htask Ht), Hq.
    by rewrite (deref_lookup _ _ _ Htask Ht).
Qed.

Lemma dequeue_extension_runs_on_null_witness :
  (nullptr = nullptr →
   @next _ (PolicyWithDequeueExtensions FIFO_policy
              [PriorityBasedTaskQuantumAllocator SimpleTask.QuantumSpecifier])
     no_ready_task_world
   = Undefined)
  ∧ (∀ t quantum,
       nullptr ≠ nullptr →
       tasks no_ready_task_world !! nullptr = Some t →
       SimpleTask.QuantumSpecifier (getPriority t) = Returns quantum →
       @next _ (PolicyWithDequeueExtensions FIFO_policy
                  [PriorityBasedTaskQuantumAllocator SimpleTask.QuantumSpecifier])
         no_ready_task_world
       = Returns (nullptr,
                  set_tasks (<[nullptr := allocateTicks quantum t]>
                               (tasks no_ready_task_world))
                    no_ready_task_world)).
Proof.
  apply (dequeue_extension_runs_on_null FIFO_policy SimpleTask.QuantumSpecifier
           no_ready_task_world no_ready_task_world nullptr).
  reflexivity.
Defined.

End QuantumFacts.

(** ** The idle task stays out of the ready queue *)

Module IdleInvariantFacts.

Import HandlerFacts.

Lemma keeps_bind_post {S A B} (property : S -> Prop) (post : A -> Prop)
  (m : Stateful S A) (k : A -> Stateful S B) :
  (∀ w a w', property w → m w = Returns (a, w') → property w' ∧ post a) →
  (∀ a, post a → keeps property (k a)) →
  keeps property (m ≫= k).
Proof.
  intros Hm Hk w b w'' Hw. unfold mbind, Stateful_bind.
  destruct (m w) as [[a w']| |] eqn:Hrun; [|done..].
  destruct (Hm w a w' Hw Hrun) as [Hw' Ha]. by apply (Hk a Ha).
Qed.

Lemma keeps_bind {S A B} (property : S -> Prop) (m : Stateful S A) (k : A -> Stateful S B) :
  keeps property m → (∀ a, keeps property (k a)) → keeps property (m ≫= k).
Proof.
  intros Hm Hk. apply (keeps_bind_post property (fun _ => True)).
  - intros w a w' Hw Hrun. split; [by eapply Hm | done].
  - intros a _. apply Hk.
Qed.

Lemma keeps_ret {S A} (property : S -> Prop) (a : A) : keeps property (mret a).
Proof. by intros w a' w' Hw [= _ <-]. Qed.

Lemma keeps_getIdleTask {S} {idle : SupportsIdleTask S} (property : S -> Prop) :
  keeps property getIdleTask.
Proof. apply keeps_ret. Qed.

Lemma keeps_call_task {Task P} (property : World Task P -> Prop)
  (p : TaskPtr) (method : Task -> Task) :
  (∀ w memory, property w → property (set_tasks memory w)) →
  keeps property (call_task p method).
Proof.
  intros Hframe w a w' Hw. unfold call_task.
  destruct (deref (tasks w) p) as [t| |]; [|done..]. intros [= _ <-]. by apply Hframe.
Qed.

Lemma keeps_read_task {Task P A} (property : World Task P -> Prop)
  (p : TaskPtr) (method : Task -> A) :
  keeps property (read_task p method).
Proof.
  intros w a w' Hw. unfold read_task.
  destruct (deref (tasks w) p) as [t| |]; [|done..]. by intros [= _ <-].
Qed.

Lemma keeps_with_idle {S A} {idle : SupportsIdleTask S} (property : S -> Prop)
  (k : TaskPtr -> Stateful S A) :
  keeps property (k idleTask) → keeps property (getIdleTask ≫= k).
Proof. intros Hk w a w' Hw. rewrite getIdleTask_bind. by apply Hk. Qed.

Lemma keeps_specifier {S} (property : S -> Prop) (quantum : Outcome Z) :
  keeps property (fun w => n ← quantum; Returns (n, w)).
Proof.
  intros w a w' Hw. destruct quantum as [n| |]; [|done..]. by intros [= _ <-].
Qed.

Lemma keeps_or_idle {S} {idle : SupportsIdleTask S} (property : S -> Prop)
  (nextTask : TaskPtr) :
  keeps property (if (nextTask =? nullptr)%N then getIdleTask else mret nextTask).
Proof. destruct (nextTask =? nullptr)%N; apply keeps_ret. Qed.

(** The handlers with idle task support never enqueue the idle task:
    whatever property of the scheduler's state [next] keeps, [ready]
    keeps for every task but the idle task, and the member functions of
    the tasks do not affect, every one of these handlers keeps as well,
    for any [current] and any created or unblocked task other than the
    idle task.  So the idle task never enters a ready queue that did not
    hold it. *)
Theorem idle_task_is_never_enqueued
  {Task P} `{Quantizable Task} `{PrioritizableByPriority Task}
  `{AnyPrioritizable Task} `{PrioritizableByAutoMutablePriority Task}
  (self : Policy (World Task P)) (idle : SupportsIdleTask (World Task P))
  (QuantumSpecifier : Z -> Outcome Z)
  (property : World Task P -> Prop) (current task : TaskPtr) :
  (∀ queued, queued ≠ idleTask → keeps property (ready queued)) →
  keeps property next →
  (∀ w memory, property w → property (set_tasks memory w)) →
  task ≠ idleTask →
  keeps property
    (TimerInterrupt.Preemptive.RunNextWithIdleTaskSupport.onTimerInterrupt current)
  ∧ keeps property
      (TimerInterrupt.Preemptive.KeepRunningCurrentWithAutoDemotionOnQuantumUsedUpAndIdleTaskSupport.onTimerInterrupt
         current)
  ∧ keeps property
      (TimerInterrupt.Preemptive.KeepRunningCurrentWithAutoRechargeOnQuantumUsedUpAndIdleTaskSupport.onTimerInterrupt
         QuantumSpecifier current)
  ∧ keeps property
      (TaskCreation.Preemptive.RunHigherPriorityWithIdleTaskSupport.onTaskCreated current task)
  ∧ keeps property
      (TaskCreation.Cooperative.KeepRunningCurrentWithIdleTaskSupport.onTaskCreated
         current task)
  ∧ keeps property
      (TaskTermination.Common.RunNextWithIdleTaskSupport.onTaskFinished current)
  ∧ keeps property (TaskBlocked.Common.RunNextWithIdleTaskSupport.onTaskBlocked current)
  ∧ keeps property
      (TaskUnblocked.Preemptive.RunNextWithIdleTaskSupport.onTaskUnblocked current task)
  ∧ keeps property
      (TaskUnblocked.Cooperative.KeepRunningCurrentWithIdleTaskSupport.onTaskUnblocked
         current task).
Proof.
  intros Hready Hnext Hframe Htask.
  assert (Hfetch : keeps property
                     (nextTask ← next;
                      if (nextTask =? nullptr)%N then getIdleTask else mret nextTask)).
  { apply keeps_bind; [done|]. intros nextTask. apply keeps_or_idle. }
  assert (Hcurrent : keeps property
                       (if negb (current =? idleTask)%N then ready current else mret tt)).
  { destruct (N.eqb_spec current idleTask); [apply keeps_ret | by apply Hready]. }
  assert (Htick : ∀ (quantumUsedUp : ProvidesTaskQuantumUsedUpHandler (World Task P)),
             (current ≠ idleTask → keeps property (onTaskQuantumUsedUp current)) →
             keeps property
               (TimerInterrupt.Preemptive.KeepRunningCurrentWithAnyQuantumUsedUpHandlerAndIdleTaskSupport.onTimerInterrupt
                  current)).
  { intros quantumUsedUp Hused.
    unfold TimerInterrupt.Preemptive.KeepRunningCurrentWithAnyQuantumUsedUpHandlerAndIdleTaskSupport.onTimerInterrupt.
    apply keeps_with_idle. destruct (N.eqb_spec current idleTask); [done|].
    apply keeps_bind; [by apply keeps_call_task|]. intros [].
    apply keeps_bind; [apply keeps_read_task|]. intros [|]; [by apply Hused | apply keeps_ret]. }
  split_and!.
  - unfold TimerInterrupt.Preemptive.RunNextWithIdleTaskSupport.onTimerInterrupt.
    apply keeps_with_idle. by apply keeps_bind.
  - apply Htick. intros Hidle.
    unfold onTaskQuantumUsedUp,
      TaskQuantumUsedUp.Preemptive.RunNextWithDemotion.onTaskQuantumUsedUp.
    apply keeps_bind; [by apply keeps_call_task|]. intros [].
    apply keeps_bind; [by apply Hready | done].
  - apply Htick. intros Hidle.
    unfold onTaskQuantumUsedUp,
      TaskQuantumUsedUp.Preemptive.RunNextWithQuantumRecharged.onTaskQuantumUsedUp.
    apply keeps_bind; [apply keeps_read_task|]. intros priority.
    apply keeps_bind; [apply keeps_specifier|]. intros ticks.
    apply keeps_bind; [by apply keeps_call_task|]. intros [].
    apply keeps_bind; [by apply Hready | done].
  - unfold TaskCreation.Preemptive.RunHigherPriorityWithIdleTaskSupport.onTaskCreated.
    apply keeps_with_idle. destruct (N.eqb_spec current idleTask); [apply keeps_ret|].
    apply (keeps_bind_post property (fun result => result.2 = current ∨ result.2 = task)).
    + intros w result w' Hw. unfold orderByPriority.
      destruct (deref (tasks w) current) as [t1| |]; [|done..].
      destruct (deref (tasks w) task) as [t2| |]; [|done..]. cbn [mbind Outcome_bind].
      intros [= <- <-]. split; [done|]. destruct (wrapped_ge t1 t2); auto.
    + intros result [-> | ->]; (apply keeps_bind; [by apply Hready | intros []; apply keeps_ret]).
  - unfold TaskCreation.Cooperative.KeepRunningCurrentWithIdleTaskSupport.onTaskCreated.
    apply keeps_with_idle. destruct (N.eqb_spec current idleTask); [apply keeps_ret|].
    apply keeps_bind; [by apply Hready | intros []; apply keeps_ret].
  - done.
  - done.
  - unfold TaskUnblocked.Preemptive.RunNextWithIdleTaskSupport.onTaskUnblocked.
    destruct (current =? nullptr)%N.
    + apply keeps_bind; [by apply Hready | intros []; apply keeps_ret].
    + apply keeps_bind.
      * destruct (task =? nullptr)%N; [apply keeps_ret | by apply Hready].
      * intros []. apply keeps_with_idle. by apply keeps_bind.
  - unfold TaskUnblocked.Cooperative.KeepRunningCurrentWithIdleTaskSupport.onTaskUnblocked.
    destruct (current =? nullptr)%N.
    + apply keeps_bind; [by apply Hready | intros []; apply keeps_ret].
    + destruct (task =? nullptr)%N; [apply keeps_ret|].
      apply keeps_bind; [by apply Hready|]. intros []. apply keeps_with_idle.
      destruct (current =? idleTask)%N; [done | apply keeps_ret].
Qed.

Lemma idle_task_is_never_enqueued_witness :
  keeps (fun w : World SimpleTask.t FIFO.Queue => 9%N ∉ policy w)
    (TimerInterrupt.Preemptive.RunNextWithIdleTaskSupport.onTimerInterrupt
       (self := FIFO_policy) (idle := 9%N) 1%N)
  ∧ keeps (fun w : World SimpleTask.t FIFO.Queue => 9%N ∉ policy w)
      (TaskUnblocked.Preemptive.RunNextWithIdleTaskSupport.onTaskUnblocked
         (self := FIFO_policy) (idle := 9%N) 1%N 2%N).
Proof.
  pose proof (idle_task_is_never_enqueued
                (FIFO_policy (Task := SimpleTask.t))
                (9%N : SupportsIdleTask (World SimpleTask.t FIFO.Queue))
                SimpleTask.QuantumSpecifier
                (fun w => 9%N ∉ policy w) 1%N 2%N)
    as (Htimer & _ & _ & _ & _ & _ & _ & Hunblocked & _).
  - intros queued Hqueued w [] w' Hw [= <-]. simpl.
    unfold FIFO.ready. rewrite elem_of_app, list_elem_of_singleton.
    intros [Hin | Heq]; [done | by apply Hqueued].
  - intros w found w' Hw. simpl. destruct (policy w) as [|first queue] eqn:Hq.
    + intros [= _ <-]. simpl. apply not_elem_of_nil.
    + intros [= _ <-]. simpl. intros Hin. apply Hw. by right.
  - done.
  - done.
  - by split.
Defined.

End IdleInvariantFacts.

(** ** Creation of tasks *)

Module CreationFacts.

Import HandlerFacts IdleTaskFacts.

Lemma simple_task_ordered : ordered_by SimpleTask.priority.
Proof. intros lhs rhs. simpl. apply Z.geb_leb. Qed.

Lemma simple_realtime_task_ordered :
  ordered_by (fun t : SimpleRealtimeTask.t => - SimpleRealtimeTask.deadline t).
Proof.
  intros lhs rhs. simpl.
  destruct (Z.gtb_spec (SimpleRealtimeTask.deadline lhs) (SimpleRealtimeTask.deadline rhs));
    destruct (Z.leb_spec (- SimpleRealtimeTask.deadline rhs) (- SimpleRealtimeTask.deadline lhs));
    try done; lia.
Qed.

Lemma order_by_rank {Task P} `{AnyPrioritizable Task} (rank : Task -> Z)
  (current task : TaskPtr) (running created : Task) (w : World Task P) :
  ordered_by rank →
  current ≠ nullptr → task ≠ nullptr →
  tasks w !! current = Some running →
  tasks w !! task = Some created →
  orderByPriority current task w
  = Returns (if rank running <? rank created then (task, current) else (current, task), w).
Proof.
  intros Hrank Hc Ht Hrunning Hcreated. unfold orderByPriority.
  rewrite (deref_lookup _ _ running Hc Hrunning). cbn [mbind Outcome_bind].
  rewrite (deref_lookup _ _ created Ht Hcreated). cbn [mbind Outcome_bind].
  rewrite Hrank.
  by destruct (Z.leb_spec (rank created) (rank running)), (Z.ltb_spec (rank running) (rank created));
    try lia.
Qed.

(** A created task preempts the running one exactly when it strictly
    outranks it (a higher priority level, an earlier deadline): then the
    preemptive creation handler makes [current] ready and returns the
    new task; on a tie or a lower rank it makes the new task ready and
    returns [current].  The handler with idle task support does the same
    unless [current] is the idle task, which gives way to any new task
    and is not made ready. *)
Theorem created_task_preempts_only_if_it_outranks
  {Task P} `{AnyPrioritizable Task} (rank : Task -> Z)
  (self : Policy (World Task P)) (idle : SupportsIdleTask (World Task P))
  (current task : TaskPtr) (running created : Task) (w : World Task P) :
  ordered_by rank →
  current ≠ nullptr → task ≠ nullptr →
  tasks w !! current = Some running →
  tasks w !! task = Some created →
  TaskCreation.Preemptive.RunHigherPriority.onTaskCreated current task w
  = (if rank running <? rank created
     then ready current;; mret task
     else ready task;; mret current) w
  ∧ (current ≠ idleTask →
     TaskCreation.Preemptive.RunHigherPriorityWithIdleTaskSupport.onTaskCreated current task w
     = (if rank running <? rank created
        then ready current;; mret task
        else ready task;; mret current) w)
  ∧ TaskCreation.Preemptive.RunHigherPriorityWithIdleTaskSupport.onTaskCreated
      idleTask task w
    = Returns (task, w).
Proof.
  intros Hrank Hc Ht Hrunning Hcreated.
  pose proof (order_by_rank rank current task running created w Hrank Hc Ht Hrunning Hcreated)
    as Horder.
  split_and!.
  - unfold TaskCreation.Preemptive.RunHigherPriority.onTaskCreated.
    rewrite (bind_returns _ _ _ _ _ Horder).
    by destruct (rank running <? rank created).
  - intros Hidle.
    unfold TaskCreation.Preemptive.RunHigherPriorityWithIdleTaskSupport.onTaskCreated.
    rewrite getIdleTask_bind. destruct (N.eqb_spec current idleTask); [done|].
    rewrite (bind_returns _ _ _ _ _ Horder).
    by destruct (rank running <? rank created).
  - apply creation_from_idle.
Qed.

Lemma created_task_preempts_only_if_it_outranks_witness :
  TaskCreation.Preemptive.RunHigherPriority.onTaskCreated
    (self := FIFO_policy) 2%N 1%N (mkWorld deadline_tie [])
  = (if - SimpleRealtimeTask.deadline (SimpleRealtimeTask.mk 2 24)
        <? - SimpleRealtimeTask.deadline (SimpleRealtimeTask.mk 1 24)
     then @ready _ FIFO_policy 2%N;; mret 1%N
     else @ready _ FIFO_policy 1%N;; mret 2%N) (mkWorld deadline_tie [])
  ∧ (2%N ≠ 9%N →
     TaskCreation.Preemptive.RunHigherPriorityWithIdleTaskSupport.onTaskCreated
       (self := FIFO_policy) (idle := 9%N) 2%N 1%N (mkWorld deadline_tie [])
     = (if - SimpleRealtimeTask.deadline (SimpleRealtimeTask.mk 2 24)
           <? - SimpleRealtimeTask.deadline (SimpleRealtimeTask.mk 1 24)
        then @ready _ FIFO_policy 2%N;; mret 1%N
        else @ready _ FIFO_policy 1%N;; mret 2%N) (mkWorld deadline_tie []))
  ∧ TaskCreation.Preemptive.RunHigherPriorityWithIdleTaskSupport.onTaskCreated
      (self := FIFO_policy) (idle := 9%N) 9%N 1%N (mkWorld deadline_tie [])
    = Returns (1%N, mkWorld deadline_tie []).
Proof.
  apply (created_task_preempts_only_if_it_outranks
           (fun t => - SimpleRealtimeTask.deadline t) FIFO_policy
           (9%N : SupportsIdleTask (World SimpleRealtimeTask.t FIFO.Queue))
           2%N 1%N (SimpleRealtimeTask.mk 2 24) (SimpleRealtimeTask.mk 1 24)
           (mkWorld deadline_tie [])).
  - exact simple_realtime_task_ordered.
  - done.
  - done.
  - reflexivity.
  - reflexivity.
Defined.

End CreationFacts.

(** ** The cooperative first-come, first-served scheduler *)

Module RunToCompletionFacts.

Import HandlerFacts IdleTaskFacts.

Lemma create_all_queues {Task} (idle : TaskPtr) (created : list TaskPtr) :
  ∀ (current : TaskPtr) (w : World Task FIFO.Queue),
    current ≠ idle →
    create_all
      (TaskCreation.Cooperative.KeepRunningCurrentWithIdleTaskSupport.onTaskCreated
         (self := FIFO_policy) (idle := idle)) created current w
    = Returns (current, set_policy (policy w ++ created) w).
Proof.
  induction created as [|task rest IH]; intros current w Hidle.
  - simpl. rewrite app_nil_r. by destruct w.
  - cbn [create_all].
    rewrite (bind_returns _ _ w current (set_policy (policy w ++ [task]) w)).
    + rewrite IH by done. simpl. by rewrite <- app_assoc.
    + by apply (cooperative_creation_keeps_current FIFO_policy
                  (idle : SupportsIdleTask (World Task FIFO.Queue))).
Qed.

Lemma finish_all_drains {Task} (idle : TaskPtr) (queue : FIFO.Queue) :
  ∀ (current : TaskPtr) (w : World Task FIFO.Queue),
    nullptr ∉ queue →
    policy w = queue →
    finish_all
      (TaskTermination.Common.RunNextWithIdleTaskSupport.onTaskFinished
         (self := FIFO_policy) (idle := idle)) (S (length queue)) current w
    = Returns (queue ++ [idle], set_policy [] w).
Proof.
  induction queue as [|first queue IH]; intros current w Hnull Hq.
  - cbn [length finish_all].
    unfold TaskTermination.Common.RunNextWithIdleTaskSupport.onTaskFinished.
    unfold getIdleTask, idleTask, mbind, mret, Stateful_bind, Stateful_ret. simpl.
    rewrite Hq. simpl. by destruct w; simpl in *; subst.
  - cbn [length]. cbn [finish_all].
    rewrite (bind_returns _ _ w first (set_policy queue w)).
    + rewrite (bind_returns _ _ (set_policy queue w) (queue ++ [idle]) (set_policy [] w));
        [done|].
      apply (IH first (set_policy queue w)); [|done].
      intros Hin. apply Hnull. by right.
    + unfold TaskTermination.Common.RunNextWithIdleTaskSupport.onTaskFinished.
      unfold getIdleTask, idleTask, mbind, mret, Stateful_bind, Stateful_ret. simpl.
      rewrite Hq. simpl. destruct (N.eqb_spec first nullptr) as [->|]; [|done].
      exfalso. apply Hnull. constructor.
Qed.

(** The cooperative scheduler over the FIFO queue runs tasks to
    completion in their order of creation: of tasks created one after the
    other while the idle task runs, the first is dispatched at once and
    keeps the processor while the others are created; as the tasks then
    finish one after the other, the others are dispatched in their order
    of creation, and the idle task after the last one, with an empty
    ready queue. *)
Theorem cooperative_scheduler_runs_in_creation_order
  {Task} (idle : TaskPtr) (created : list TaskPtr) (w : World Task FIFO.Queue) :
  nullptr ∉ created →
  idle ∉ created →
  policy w = [] →
  create_all
    (TaskCreation.Cooperative.KeepRunningCurrentWithIdleTaskSupport.onTaskCreated
       (self := FIFO_policy) (idle := idle)) created idle w
  = Returns (hd idle created, set_policy (tl created) w)
  ∧ (running ← create_all
                 (TaskCreation.Cooperative.KeepRunningCurrentWithIdleTaskSupport.onTaskCreated
                    (self := FIFO_policy) (idle := idle)) created idle;
     finish_all
       (TaskTermination.Common.RunNextWithIdleTaskSupport.onTaskFinished
          (self := FIFO_policy) (idle := idle)) (length created) running) w
    = Returns (tl (created ++ [idle]), w).
Proof.
  intros Hnull Hidle Hq.
  assert (Hcreate : create_all
            (TaskCreation.Cooperative.KeepRunningCurrentWithIdleTaskSupport.onTaskCreated
               (self := FIFO_policy) (idle := idle)) created idle w
          = Returns (hd idle created, set_policy (tl created) w)).
  { destruct created as [|first rest].
    - simpl. destruct w; simpl in *; by subst.
    - cbn [create_all].
      rewrite (bind_returns _ _ w first w).
      + rewrite create_all_queues; [by rewrite Hq|].
        intros ->. apply Hidle. constructor.
      + unfold TaskCreation.Cooperative.KeepRunningCurrentWithIdleTaskSupport.onTaskCreated.
        rewrite getIdleTask_bind. unfold idleTask. by rewrite N.eqb_refl. }
  split; [done|].
  rewrite (bind_returns _ _ _ _ _ Hcreate).
  destruct created as [|first rest]; [by destruct w; simpl in *; subst|].
  cbn [length tl hd app].
  rewrite (finish_all_drains idle rest); [|intros Hin; apply Hnull; by right | done].
  destruct w; simpl in *; by subst.
Qed.

Lemma cooperative_scheduler_runs_in_creation_order_witness :
  create_all
    (TaskCreation.Cooperative.KeepRunningCurrentWithIdleTaskSupport.onTaskCreated
       (self := FIFO_policy) (idle := 9%N)) [1%N; 2%N; 3%N] 9%N no_ready_task_world
  = Returns (hd 9%N [1%N; 2%N; 3%N], set_policy (tl [1%N; 2%N; 3%N]) no_ready_task_world)
  ∧ (running ← create_all
                 (TaskCreation.Cooperative.KeepRunningCurrentWithIdleTaskSupport.onTaskCreated
                    (self := FIFO_policy) (idle := 9%N)) [1%N; 2%N; 3%N] 9%N;
     finish_all
       (TaskTermination.Common.RunNextWithIdleTaskSupport.onTaskFinished
          (self := FIFO_policy) (idle := 9%N)) (length [1%N; 2%N; 3%N]) running)
      no_ready_task_world
    = Returns (tl ([1%N; 2%N; 3%N] ++ [9%N]), no_ready_task_world).
Proof.
  apply (cooperative_scheduler_runs_in_creation_order 9%N [1%N; 2%N; 3%N]
           no_ready_task_world).
  - unfold nullptr. intros Hin.
    repeat (apply elem_of_cons in Hin as [?|Hin]; [done|]). by apply elem_of_nil in Hin.
  - intros Hin.
    repeat (apply elem_of_cons in Hin as [?|Hin]; [done|]). by apply elem_of_nil in Hin.
  - reflexivity.
Defined.

End RunToCompletionFacts.

(** ** Time slices *)

Module TimeSliceFacts.

Import HandlerFacts IdleTaskFacts FeedbackQueueFacts QuantumFacts.

Lemma slice_keeps_running {P} (self : Policy (World SimpleTask.t P))
  (QuantumSpecifier : Z -> Outcome Z)
  (current : TaskPtr) (identifier priority : Z) (k : nat) :
  current ≠ nullptr →
  ∀ (ticks : Z) (w : World SimpleTask.t P),
    tasks w !! current = Some (SimpleTask.mk identifier priority ticks) →
    Z.of_nat k < ticks <= UINT32_MAX →
    interrupts_in_a_row
      (TimerInterrupt.Preemptive.KeepRunningCurrentWithAutoRechargeOnQuantumUsedUp.onTimerInterrupt
         QuantumSpecifier) k current w
    = Returns (current,
               set_tasks (<[current := SimpleTask.mk identifier priority
                                         (ticks - Z.of_nat k)]> (tasks w)) w).
Proof.
  intros Hc. induction k as [|k IH]; intros ticks w Ht Hk.
  - simpl. rewrite Z.sub_0_r. unfold set_tasks. rewrite insert_id by done. by destruct w.
  - cbn [interrupts_in_a_row]. unfold mbind, Stateful_bind.
    unfold TimerInterrupt.Preemptive.KeepRunningCurrentWithAutoRechargeOnQuantumUsedUp.onTimerInterrupt
      at 1.
    rewrite (tick_keeps_running _ current identifier priority ticks) by (done || lia).
    assert ((ticks =? 0) = false) as -> by (apply Z.eqb_neq; lia).
    rewrite (IH (ticks - 1)); [| apply lookup_insert_eq | lia].
    replace (ticks - 1 - Z.of_nat k) with (ticks - Z.of_nat (S k)) by lia.
    unfold set_tasks. simpl. by rewrite insert_insert_eq.
Qed.

Lemma interrupts_then_one {State} (handler : TaskPtr -> Stateful State TaskPtr) (k : nat) :
  ∀ (current : TaskPtr) (w : State),
    interrupts_in_a_row handler (S k) current w
    = (running ← interrupts_in_a_row handler k current; handler running) w.
Proof.
  induction k as [|k IH]; intros current w.
  - cbn [interrupts_in_a_row]. unfold mbind, mret, Stateful_bind, Stateful_ret.
    by destruct (handler current w) as [[running w']| |].
  - cbn [interrupts_in_a_row] in *. unfold mbind, Stateful_bind in *.
    destruct (handler current w) as [[running w']| |]; [|done..]. apply IH.
Qed.

Lemma last_tick_of_the_slice (QuantumSpecifier : Z -> Outcome Z)
  (current : TaskPtr) (identifier priority quantum : Z)
  (w : World SimpleTask.t FIFO.Queue) :
  current ≠ nullptr →
  tasks w !! current = Some (SimpleTask.mk identifier priority 1) →
  QuantumSpecifier priority = Returns quantum →
  TimerInterrupt.Preemptive.KeepRunningCurrentWithAutoRechargeOnQuantumUsedUp.onTimerInterrupt
    (self := FIFO_policy) QuantumSpecifier current w
  = Returns (hd current (policy w),
             mkWorld (<[current := SimpleTask.mk identifier priority quantum]> (tasks w))
                     (tl (policy w ++ [current]))).
Proof.
  intros Hc Ht Hq.
  unfold TimerInterrupt.Preemptive.KeepRunningCurrentWithAutoRechargeOnQuantumUsedUp.onTimerInterrupt.
  unfold TimerInterrupt.Preemptive.KeepRunningCurrentWithAnyQuantumUsedUpHandler.onTimerInterrupt.
  rewrite (bind_returns _ _ _ _ _ (call_task_returns w current _ tick Hc Ht)).
  set (w1 := set_tasks _ w).
  assert (Ht1 : tasks w1 !! current = Some (SimpleTask.mk identifier priority 0))
    by apply lookup_insert_eq.
  rewrite (bind_returns _ _ _ _ _
             (read_task_returns w1 current _ hasUsedUpTimeAllotment Hc Ht1)).
  cbn [hasUsedUpTimeAllotment SimpleTask.quantizable SimpleTask.ticks Z.eqb].
  unfold onTaskQuantumUsedUp,
    TaskQuantumUsedUp.Preemptive.RunNextWithQuantumRecharged.onTaskQuantumUsedUp.
  rewrite (bind_returns _ _ _ _ _ (read_task_returns w1 current _ getPriority Hc Ht1)).
  change (getPriority (SimpleTask.mk identifier priority 0)) with priority.
  unfold mbind at 1, Stateful_bind at 1. rewrite Hq. cbn [mbind Outcome_bind].
  rewrite (bind_returns _ _ _ _ _
             (call_task_returns w1 current _ (allocateTicks quantum) Hc Ht1)).
  rewrite FIFO_next_ready. unfold w1, set_tasks, set_policy. simpl.
  by rewrite !insert_insert_eq.
Qed.

(** Round robin with time slices: under the timer handler that recharges
    the quantum when it is used up, over the FIFO queue, a running task
    with [ticks] ticks left keeps the processor through the next
    [ticks - 1] timer interrupts, one tick less after each, the ready
    queue being left alone; the interrupt that takes its last tick gives
    it the quantum of its priority level again, puts it at the back of
    the ready queue and dispatches the task at the front (the task
    itself when no other task is ready). *)
Theorem time_slice_then_back_of_the_queue
  (QuantumSpecifier : Z -> Outcome Z)
  (current : TaskPtr) (identifier priority ticks quantum : Z) (k : nat)
  (w : World SimpleTask.t FIFO.Queue) :
  current ≠ nullptr →
  tasks w !! current = Some (SimpleTask.mk identifier priority ticks) →
  1 <= ticks <= UINT32_MAX →
  QuantumSpecifier priority = Returns quantum →
  Z.of_nat k < ticks →
  interrupts_in_a_row
    (TimerInterrupt.Preemptive.KeepRunningCurrentWithAutoRechargeOnQuantumUsedUp.onTimerInterrupt
       (self := FIFO_policy) QuantumSpecifier) k current w
  = Returns (current,
             set_tasks (<[current := SimpleTask.mk identifier priority
                                       (ticks - Z.of_nat k)]> (tasks w)) w)
  ∧ interrupts_in_a_row
      (TimerInterrupt.Preemptive.KeepRunningCurrentWithAutoRechargeOnQuantumUsedUp.onTimerInterrupt
         (self := FIFO_policy) QuantumSpecifier) (Z.to_nat ticks) current w
    = Returns (hd current (policy w),
               mkWorld (<[current := SimpleTask.mk identifier priority quantum]> (tasks w))
                       (tl (policy w ++ [current]))).
Proof.
  intros Hc Ht Hticks Hq Hk. split.
  - apply (slice_keeps_running FIFO_policy); [done | done | lia].
  - replace (Z.to_nat ticks) with (S (Z.to_nat (ticks - 1))) by lia.
    rewrite interrupts_then_one.
    rewrite (bind_returns _ _ _ _ _
               (slice_keeps_running FIFO_policy QuantumSpecifier current identifier priority
                  (Z.to_nat (ticks - 1)) Hc ticks w Ht ltac:(lia))).
    rewrite (last_tick_of_the_slice QuantumSpecifier current identifier priority quantum);
      [| done | | done].
    + unfold set_tasks. simpl. by rewrite insert_insert_eq.
    + simpl. rewrite lookup_insert_eq. do 2 f_equal. lia.
Qed.

Lemma time_slice_then_back_of_the_queue_witness :
  interrupts_in_a_row
    (TimerInterrupt.Preemptive.KeepRunningCurrentWithAutoRechargeOnQuantumUsedUp.onTimerInterrupt
       (self := FIFO_policy) two_ticks_everywhere) 1 3%N
    (mkWorld (tasks lone_running_task_world) [5%N])
  = Returns (3%N,
             set_tasks (<[3%N := SimpleTask.mk 3 3 (2 - Z.of_nat 1)]>
                          (tasks (mkWorld (tasks lone_running_task_world) [5%N])))
               (mkWorld (tasks lone_running_task_world) [5%N]))
  ∧ interrupts_in_a_row
      (TimerInterrupt.Preemptive.KeepRunningCurrentWithAutoRechargeOnQuantumUsedUp.onTimerInterrupt
         (self := FIFO_policy) two_ticks_everywhere) (Z.to_nat 2) 3%N
      (mkWorld (tasks lone_running_task_world) [5%N])
    = Returns (hd 3%N (policy (mkWorld (tasks lone_running_task_world) [5%N])),
               mkWorld (<[3%N := SimpleTask.mk 3 3 2]>
                          (tasks (mkWorld (tasks lone_running_task_world) [5%N])))
                       (tl (policy (mkWorld (tasks lone_running_task_world) [5%N]) ++ [3%N]))).
Proof.
  apply (time_slice_then_back_of_the_queue two_ticks_everywhere 3%N 3 3 2 2 1
           (mkWorld (tasks lone_running_task_world) [5%N])).
  - done.
  - reflexivity.
  - unfold UINT32_MAX. lia.
  - reflexivity.
  - lia.
Defined.

End TimeSliceFacts.

(** ** Preemption in the prioritized multi-queue *)

Module PreemptionFacts.

Import PrioritizedMultiQueue MultiQueueFacts HandlerFacts FeedbackQueueFacts ServiceOrderFacts
  CreationFacts.

Lemma ready_waits_behind_its_level {Task} `{PrioritizableByPriority Task}
  (w : World Task ArrayMapImp.Queues) (task : TaskPtr) (t : Task) :
  task ≠ nullptr →
  tasks w !! task = Some t →
  (Z.to_nat (getPriority t) < length (policy w))%nat →
  ∃ queues',
    @ready _ ArrayMapImp_policy task w = Returns (tt, set_policy queues' w) ∧
    pending queues'
    = pending_above (Z.to_nat (getPriority t)) (policy w)
      ++ pending_at (Z.to_nat (getPriority t)) (policy w) ++ [task]
      ++ pending_below (Z.to_nat (getPriority t)) (policy w).
Proof.
  intros Htask Ht Hlevel.
  destruct (lookup_lt_is_Some_2 _ _ Hlevel) as [slot Hslot].
  eexists. split.
  - simpl. unfold mbind, Outcome_bind.
    by rewrite (array_ready_returns (tasks w) task t (policy w) slot Htask Ht Hslot).
  - rewrite pending_insert by done.
    unfold pending_above, pending_at, pending_below, FIFO.ready. rewrite Hslot.
    simpl. by rewrite <- app_assoc.
Qed.

(** In the prioritized round-robin scheduler, the task that loses at a
    creation waits behind the tasks of its own level: when the created
    task has a higher priority level than [current], it is returned and
    [current] is queued behind the tasks that wait at its level (it does
    not keep a place at the front); otherwise [current] is returned and
    the created task is queued behind the tasks of its level.  The tasks
    of the other levels keep their places. *)
Theorem preempted_task_waits_behind_its_level
  {Task} `{PrioritizableByPriority Task}
  (w : World Task ArrayMapImp.Queues) (current task : TaskPtr) (running created : Task) :
  current ≠ nullptr → task ≠ nullptr →
  tasks w !! current = Some running →
  tasks w !! task = Some created →
  (Z.to_nat (getPriority running) < length (policy w))%nat →
  (Z.to_nat (getPriority created) < length (policy w))%nat →
  ∃ queues',
    TaskCreation.Preemptive.RunHigherPriority.onTaskCreated
      (H := AnyPrioritizable_by_priority) (self := ArrayMapImp_policy) current task w
    = Returns (if getPriority running <? getPriority created then task else current,
               set_policy queues' w) ∧
    pending queues'
    = if getPriority running <? getPriority created
      then pending_above (Z.to_nat (getPriority running)) (policy w)
           ++ pending_at (Z.to_nat (getPriority running)) (policy w) ++ [current]
           ++ pending_below (Z.to_nat (getPriority running)) (policy w)
      else pending_above (Z.to_nat (getPriority created)) (policy w)
           ++ pending_at (Z.to_nat (getPriority created)) (policy w) ++ [task]
           ++ pending_below (Z.to_nat (getPriority created)) (policy w).
Proof.
  intros Hc Ht Hrunning Hcreated Hlevel Hlevel'.
  assert (Hrank : ordered_by (H := AnyPrioritizable_by_priority) (getPriority (Task := Task))).
  { intros lhs rhs. simpl. apply Z.geb_leb. }
  pose proof (order_by_rank (H := AnyPrioritizable_by_priority) getPriority current task
                running created w Hrank Hc Ht Hrunning Hcreated) as Horder.
  unfold TaskCreation.Preemptive.RunHigherPriority.onTaskCreated.
  rewrite (bind_returns _ _ _ _ _ Horder).
  destruct (getPriority running <? getPriority created); cbn [fst snd].
  - destruct (ready_waits_behind_its_level w current running Hc Hrunning Hlevel)
      as (queues' & Hready & Hpending).
    exists queues'. by rewrite (bind_returns _ _ _ _ _ Hready).
  - destruct (ready_waits_behind_its_level w task created Ht Hcreated Hlevel')
      as (queues' & Hready & Hpending).
    exists queues'. by rewrite (bind_returns _ _ _ _ _ Hready).
Qed.

Lemma preempted_task_waits_behind_its_level_witness :
  ∃ queues',
    TaskCreation.Preemptive.RunHigherPriority.onTaskCreated
      (H := AnyPrioritizable_by_priority) (self := ArrayMapImp_policy) 2%N 1%N
      priority_raised_world
    = Returns (if getPriority (SimpleTask.mk 2 3 0) <? getPriority (SimpleTask.mk 1 5 0)
               then 1%N else 2%N,
               set_policy queues' priority_raised_world) ∧
    pending queues'
    = if getPriority (SimpleTask.mk 2 3 0) <? getPriority (SimpleTask.mk 1 5 0)
      then pending_above (Z.to_nat (getPriority (SimpleTask.mk 2 3 0)))
             (policy priority_raised_world)
           ++ pending_at (Z.to_nat (getPriority (SimpleTask.mk 2 3 0)))
                (policy priority_raised_world) ++ [2%N]
           ++ pending_below (Z.to_nat (getPriority (SimpleTask.mk 2 3 0)))
                (policy priority_raised_world)
      else pending_above (Z.to_nat (getPriority (SimpleTask.mk 1 5 0)))
             (policy priority_raised_world)
           ++ pending_at (Z.to_nat (getPriority (SimpleTask.mk 1 5 0)))
                (policy priority_raised_world) ++ [1%N]
           ++ pending_below (Z.to_nat (getPriority (SimpleTask.mk 1 5 0)))
                (policy priority_raised_world).
Proof.
  apply (preempted_task_waits_behind_its_level priority_raised_world 2%N 1%N
           (SimpleTask.mk 2 3 0) (SimpleTask.mk 1 5 0)).
  - done.
  - done.
  - reflexivity.
  - reflexivity.
  - vm_compute. lia.
  - vm_compute. lia.
Defined.

End PreemptionFacts.
